(** * Reflected message types of ProtoBuf.js ([src/type.js])

    A shallow embedding of [Type]: the lazily cached views [fieldsById] and
    [fieldNames], [exists], [add], [remove], [create], [encode] and [decode],
    together with the properties of them that its documentation states.

    JavaScript objects live in explicit stores, so that identity, sharing and
    in-place mutation are visible: reflection objects (types, fields, one-ofs,
    nested objects) are addressed by references into a [World], runtime data
    (arrays, plain objects, message instances) by addresses into its heap.
    Every operation is a state transformer on the [World] that either returns
    a value or throws. *)

From Stdlib Require Import ZArith List String Ascii Bool Lia DecimalString.
From stdpp Require Import base option list gmap functions.
Import ListNotations.
Local Open Scope string_scope.
Local Open Scope list_scope.
Local Open Scope Z_scope.

(** ** JavaScript values *)

Abbreviation addr := nat.

(** The values the code handles.  Numbers are the integers (no NaN, no
    fractions); [VRef] is a reference to a heap object and is compared by
    identity; [VBuiltin k] is the member that [Object.prototype] provides
    under the key [k]. *)
Inductive JsVal :=
| VUndef
| VNull
| VBool (b : bool)
| VNum (n : Z)
| VStr (s : string)
| VRef (a : addr)
| VBuiltin (k : string).

(** A JavaScript object used as a string-keyed map, keys in insertion order. *)
Definition Obj (A : Type) := list (string * A).

Inductive HObj :=
| HArr (elts : list JsVal)
| HRec (props : Obj JsVal) (proto : option addr).

Abbreviation Heap := (list HObj).

Module Js.

Fixpoint own {A} (o : Obj A) (k : string) : option A :=
  match o with
  | [] => None
  | (k', v) :: rest => if String.eqb k' k then Some v else own rest k
  end.

(** [o[k] = v]: overwrite in place, or append a new key. *)
Fixpoint assign {A} (o : Obj A) (k : string) (v : A) : Obj A :=
  match o with
  | [] => [(k, v)]
  | (k', v') :: rest =>
      if String.eqb k' k then (k', v) :: rest else (k', v') :: assign rest k v
  end.

(** [delete o[k]]. *)
Definition delete {A} (o : Obj A) (k : string) : Obj A :=
  List.filter (fun p => negb (String.eqb (fst p) k)) o.

(** [Object.keys(o)], for keys that are not array indices (field names are
    identifiers): insertion order. *)
Definition keys {A} (o : Obj A) : list string := List.map fst o.

(** Keys every plain object inherits from [Object.prototype]. *)
Definition object_prototype_keys : list string :=
  [ "constructor"; "toString"; "toLocaleString"; "valueOf"; "hasOwnProperty";
    "isPrototypeOf"; "propertyIsEnumerable"; "__proto__";
    "__defineGetter__"; "__defineSetter__"; "__lookupGetter__";
    "__lookupSetter__" ].

Definition inherited (k : string) : bool :=
  existsb (String.eqb k) object_prototype_keys.

(** What [o[k]] finds on an object literal. *)
Inductive Slot (A : Type) :=
| Own (a : A)
| Builtin
| Absent.
Arguments Own {A} a.
Arguments Builtin {A}.
Arguments Absent {A}.

Definition lookup {A} (o : Obj A) (k : string) : Slot A :=
  match own o k with
  | Some a => Own a
  | None => if inherited k then Builtin else Absent
  end.

(** Truthiness of a slot holding an object reference. *)
Definition present {A} (s : Slot A) : bool :=
  match s with Absent => false | _ => true end.

(** [Boolean(v)]. *)
Definition truthy (v : JsVal) : bool :=
  match v with
  | VUndef | VNull => false
  | VBool b => b
  | VNum n => negb (n =? 0)
  | VStr s => negb (String.eqb s "")
  | VRef _ | VBuiltin _ => true
  end.

(** [a || b]. *)
Definition or (a b : JsVal) : JsVal := if truthy a then a else b.

(** [a === b]. *)
Definition strict_eq (a b : JsVal) : bool :=
  match a, b with
  | VUndef, VUndef | VNull, VNull => true
  | VBool x, VBool y => Bool.eqb x y
  | VNum x, VNum y => x =? y
  | VStr x, VStr y => String.eqb x y
  | VRef x, VRef y => Nat.eqb x y
  | VBuiltin x, VBuiltin y => String.eqb x y
  | _, _ => false
  end.

(** [util.isObject]: a reference to a mutable object (array, map, message). *)
Definition isObject (v : JsVal) : bool :=
  match v with VRef _ => true | _ => false end.

(** *** Coercions used by [==] *)

Fixpoint digits (s : string) (acc : Z) : option Z :=
  match s with
  | EmptyString => Some acc
  | String c r =>
      let n := Z.of_nat (nat_of_ascii c) in
      if (48 <=? n) && (n <=? 57) then digits r (10 * acc + (n - 48)) else None
  end.

(** [ToNumber] on strings, for the empty string and signed decimal integer
    literals; anything else counts as NaN ([None]). *)
Definition string_to_number (s : string) : option Z :=
  match s with
  | EmptyString => Some 0
  | String "-" (String c r) => Z.opp <$> digits (String c r) 0
  | String "+" (String c r) => digits (String c r) 0
  | _ => digits s 0
  end.

Definition number_to_string (n : Z) : string :=
  NilZero.string_of_int (Z.to_int n).

(** [String(v)] for an array element, as [Array.prototype.join] does it;
    the fuel bounds the nesting of arrays. *)
Fixpoint elt_to_string (fuel : nat) (h : Heap) (v : JsVal) : string :=
  match v with
  | VUndef | VNull => ""
  | VBool true => "true"
  | VBool false => "false"
  | VNum n => number_to_string n
  | VStr s => s
  | VBuiltin _ => "function () { [native code] }"
  | VRef a =>
      match fuel with
      | O => ""
      | S fuel' =>
          match h !! a with
          | Some (HArr l) =>
              String.concat "," (List.map (elt_to_string fuel' h) l)
          | _ => "[object Object]"
          end
      end
  end.

(** [ToPrimitive] of a heap object: arrays join their elements, other
    objects print as [[object Object]]. *)
Definition to_primitive (h : Heap) (a : addr) : JsVal :=
  match h !! a with
  | Some (HArr _) => VStr (elt_to_string (S (length h)) h (VRef a))
  | _ => VStr "[object Object]"
  end.

Definition to_number (v : JsVal) : option Z :=
  match v with
  | VNum n => Some n
  | VBool b => Some (if b then 1 else 0)
  | VStr s => string_to_number s
  | _ => None
  end.

(** [a == b] between primitives. *)
Definition loose_eq_prim (a b : JsVal) : bool :=
  match a, b with
  | (VUndef | VNull), (VUndef | VNull) => true
  | (VUndef | VNull), _ | _, (VUndef | VNull) => false
  | VStr x, VStr y => String.eqb x y
  | VBuiltin x, VBuiltin y => String.eqb x y
  | VBuiltin _, _ | _, VBuiltin _ => false
  | _, _ =>
      match to_number a, to_number b with
      | Some x, Some y => x =? y
      | _, _ => false
      end
  end.

(** [a == b]: references compare by identity; a reference against a
    primitive is first turned into a primitive. *)
Definition loose_eq (h : Heap) (a b : JsVal) : bool :=
  match a, b with
  | VRef x, VRef y => Nat.eqb x y
  | VRef x, (VUndef | VNull) | (VUndef | VNull), VRef x => false
  | VRef x, VBuiltin _ | VBuiltin _, VRef x => false
  | VRef x, _ => loose_eq_prim (to_primitive h x) b
  | _, VRef y => loose_eq_prim a (to_primitive h y)
  | _, _ => loose_eq_prim a b
  end.

(** *** Property access on heap objects *)

(** [obj[k]] along the prototype chain.  A prototype is an object that was
    allocated before the object that delegates to it, so the chain descends
    through the addresses. *)
Fixpoint get_from (fuel : nat) (h : Heap) (a : addr) (k : string) : JsVal :=
  match fuel with
  | O => VUndef
  | S fuel' =>
      match h !! a with
      | Some (HRec props proto) =>
          match own props k with
          | Some v => v
          | None =>
              match proto with
              | Some p =>
                  if (p <? a)%nat then get_from fuel' h p k
                  else VUndef
              | None => if inherited k then VBuiltin k else VUndef
              end
          end
      | _ => VUndef
      end
  end.

Definition get (h : Heap) (a : addr) (k : string) : JsVal :=
  get_from (S a) h a k.

(** [obj[k] = v] on a record object (own property). *)
Definition set (h : Heap) (a : addr) (k : string) (v : JsVal) : Heap :=
  match h !! a with
  | Some (HRec props proto) => <[a := HRec (assign props k v) proto]> h
  | _ => h
  end.


(** [util.isArray]. *)
Definition isArray (h : Heap) (v : JsVal) : bool :=
  match v with
  | VRef a => match h !! a with Some (HArr _) => true | _ => false end
  | _ => false
  end.

End Js.

(** ** Reflection objects and the world they live in *)

Abbreviation tref := nat.
Abbreviation fref := nat.
Abbreviation oref := nat.
Abbreviation nref := nat.

Module Field.

(** Declared types whose wire form the specification fixes. *)
Inductive Kind := uint32 | string.

(** A resolved field.  [parent] is the back-reference of every reflection
    object, [message] the one [Type.add] and [Type.remove] maintain. *)
Record t := {
  name : String.string;
  id : Z;
  type : Kind;
  required : bool;
  repeated : bool;
  map : bool;
  defaultValue : JsVal;
  parent : option tref;
  message : option tref
}.

Definition set_parent (p : option tref) (f : t) : t :=
  {| name := name f; id := id f; type := type f; required := required f;
     repeated := repeated f; map := map f; defaultValue := defaultValue f;
     parent := p; message := message f |}.

Definition set_message (m : option tref) (f : t) : t :=
  {| name := name f; id := id f; type := type f; required := required f;
     repeated := repeated f; map := map f; defaultValue := defaultValue f;
     parent := parent f; message := m |}.

End Field.

(** One-ofs and nested objects (enums, types, services): name and parent. *)
Module Refl.

Record t := { name : string; parent : option tref }.

Definition set_parent (p : option tref) (r : t) : t :=
  {| name := name r; parent := p |}.

End Refl.

Module TypeObj.

(** A [Type]: its name, the three namespaces [exists] looks into, and the
    three caches. *)
Record t := {
  name : string;
  fields : Obj fref;
  oneofs : option (Obj oref);
  nested : option (Obj nref);
  _fieldsById : option (gmap Z fref);
  _fieldNames : option (list string);
  _prototype : option addr
}.

(** [new Type(name)]. *)
Definition new (n : string) : t :=
  {| name := n; fields := []; oneofs := None; nested := None;
     _fieldsById := None; _fieldNames := None; _prototype := None |}.

Definition set_fields (fs : Obj fref) (T : t) : t :=
  {| name := name T; fields := fs; oneofs := oneofs T; nested := nested T;
     _fieldsById := _fieldsById T; _fieldNames := _fieldNames T;
     _prototype := _prototype T |}.

Definition set_oneofs (os : option (Obj oref)) (T : t) : t :=
  {| name := name T; fields := fields T; oneofs := os; nested := nested T;
     _fieldsById := _fieldsById T; _fieldNames := _fieldNames T;
     _prototype := _prototype T |}.

Definition set_fieldsById (c : option (gmap Z fref)) (T : t) : t :=
  {| name := name T; fields := fields T; oneofs := oneofs T;
     nested := nested T; _fieldsById := c; _fieldNames := _fieldNames T;
     _prototype := _prototype T |}.

Definition set_fieldNames (c : option (list string)) (T : t) : t :=
  {| name := name T; fields := fields T; oneofs := oneofs T;
     nested := nested T; _fieldsById := _fieldsById T; _fieldNames := c;
     _prototype := _prototype T |}.

Definition set_prototype (c : option addr) (T : t) : t :=
  {| name := name T; fields := fields T; oneofs := oneofs T;
     nested := nested T; _fieldsById := _fieldsById T;
     _fieldNames := _fieldNames T; _prototype := c |}.

End TypeObj.

Record World := {
  w_types : tref -> TypeObj.t;
  w_fields : fref -> Field.t;
  w_oneofs : oref -> Refl.t;
  w_nested : nref -> Refl.t;
  w_heap : Heap
}.

(** What [add] and [remove] are handed: [instanceof] is the constructor. *)
Inductive Child :=
| CField (f : fref)
| COneOf (o : oref)
| CNested (n : nref).

(** ** Exceptions and the state monad *)

(** The errors the code raises, named after their messages, the two the
    runtime and the reader raise, and [OutOfFuel], which only the bounded
    rendering of the [while] loop of [decode] can produce (and never does,
    see [decode_loop_inv]). *)
Inductive Err :=
| DuplicateName (name : string) (t : tref)
| DuplicateId (id : Z) (t : tref)
| NotMember (t : tref)
| UnsupportedWireType (id wireType : Z) (t : tref)
| InvalidWireFormat (pos limit : Z)
| BufferUnderrun
| TypeError
| OutOfFuel.

Inductive Outcome (A : Type) :=
| Ret (a : A)
| Throw (e : Err).
Arguments Ret {A} a.
Arguments Throw {A} e.

Definition M (A : Type) := World -> Outcome A * World.

Definition ret {A} (a : A) : M A := fun w => (Ret a, w).

Definition throw {A} (e : Err) : M A := fun w => (Throw e, w).

Definition bind {A B} (c : M A) (k : A -> M B) : M B :=
  fun w =>
    match c w with
    | (Ret a, w') => k a w'
    | (Throw e, w') => (Throw e, w')
    end.

Notation "'let*' x := c 'in' k" := (bind c (fun x => k))
  (at level 10, x name, c at level 100, k at level 200).
Notation "'let*' ' p := c 'in' k" :=
  (bind c (fun x => match x with p => k end))
  (at level 10, p strict pattern, c at level 100, k at level 200).
Notation "'do' c 'then' k" := (bind c (fun _ => k))
  (at level 10, c at level 100, k at level 200).

Definition getType (t : tref) : M TypeObj.t := fun w => (Ret (w_types w t), w).

Definition getField (f : fref) : M Field.t := fun w => (Ret (w_fields w f), w).

Definition getHeap : M Heap := fun w => (Ret (w_heap w), w).

Definition upd_type (t : tref) (g : TypeObj.t -> TypeObj.t) (w : World) : World :=
  {| w_types := <[t := g (w_types w t)]> (w_types w);
     w_fields := w_fields w; w_oneofs := w_oneofs w;
     w_nested := w_nested w; w_heap := w_heap w |}.

Definition upd_field (f : fref) (g : Field.t -> Field.t) (w : World) : World :=
  {| w_types := w_types w;
     w_fields := <[f := g (w_fields w f)]> (w_fields w);
     w_oneofs := w_oneofs w; w_nested := w_nested w; w_heap := w_heap w |}.

Definition upd_oneof (o : oref) (g : Refl.t -> Refl.t) (w : World) : World :=
  {| w_types := w_types w; w_fields := w_fields w;
     w_oneofs := <[o := g (w_oneofs w o)]> (w_oneofs w);
     w_nested := w_nested w; w_heap := w_heap w |}.

Definition upd_nested (n : nref) (g : Refl.t -> Refl.t) (w : World) : World :=
  {| w_types := w_types w; w_fields := w_fields w; w_oneofs := w_oneofs w;
     w_nested := <[n := g (w_nested w n)]> (w_nested w);
     w_heap := w_heap w |}.

Definition set_heap (h : Heap) (w : World) : World :=
  {| w_types := w_types w; w_fields := w_fields w; w_oneofs := w_oneofs w;
     w_nested := w_nested w; w_heap := h |}.

Definition modType (t : tref) (g : TypeObj.t -> TypeObj.t) : M unit :=
  fun w => (Ret tt, upd_type t g w).

Definition modField (f : fref) (g : Field.t -> Field.t) : M unit :=
  fun w => (Ret tt, upd_field f g w).

Definition modOneOf (o : oref) (g : Refl.t -> Refl.t) : M unit :=
  fun w => (Ret tt, upd_oneof o g w).

Definition modNested (n : nref) (g : Refl.t -> Refl.t) : M unit :=
  fun w => (Ret tt, upd_nested n g w).

Definition lift {A} (o : Outcome A) : M A := fun w => (o, w).

Definition putHeap (h : Heap) : M unit := fun w => (Ret tt, set_heap h w).

(** Allocation of a fresh heap object. *)
Definition alloc (o : HObj) : M addr :=
  let* h := getHeap in
  do putHeap (h ++ [o]) then
  ret (length h).

(** [obj[k]]. *)
Definition readProp (a : addr) (k : string) : M JsVal :=
  let* h := getHeap in
  ret (Js.get h a k).

(** [obj[k] = v]. *)
Definition writeProp (a : addr) (k : string) (v : JsVal) : M unit :=
  let* h := getHeap in
  putHeap (Js.set h a k v).

(** [object.name]. *)
Definition name_of (w : World) (c : Child) : string :=
  match c with
  | CField f => Field.name (w_fields w f)
  | COneOf o => Refl.name (w_oneofs w o)
  | CNested n => Refl.name (w_nested w n)
  end.

Definition child_name (c : Child) : M string := fun w => (Ret (name_of w c), w).

(** Modelled from the spec: [ReflectionObject.onAdd], which is not part of the
    sources; on a successful add the child's parent back-reference is set to
    the adopting type. *)
Definition onAdd (c : Child) (t : tref) : M unit :=
  match c with
  | CField f => modField f (Field.set_parent (Some t))
  | COneOf o => modOneOf o (Refl.set_parent (Some t))
  | CNested n => modNested n (Refl.set_parent (Some t))
  end.

(** ** The cached views *)

(** [Type#fieldNames]. *)
Definition fieldNames (t : tref) : M (list string) :=
  let* T := getType t in
  match TypeObj._fieldNames T with
  | Some names => ret names
  | None =>
      let names := Js.keys (TypeObj.fields T) in
      do modType t (TypeObj.set_fieldNames (Some names)) then
      ret names
  end.

(** The loop of [Type#fieldsById].  The names come from [fieldNames], whose
    cache, when coherent, lists own keys of [fields]; reading [.id] off a name
    that is no key of [fields], or indexing a null cache, is a [TypeError]. *)
Fixpoint fieldsById_fill (t : tref) (names : list string) : M unit :=
  match names with
  | [] => ret tt
  | n :: rest =>
      let* T := getType t in
      match Js.own (TypeObj.fields T) n with
      | None => throw TypeError
      | Some field =>
          let* F := getField field in
          let id := Field.id F in
          match TypeObj._fieldsById T with
          | None => throw TypeError
          | Some byId =>
              match byId !! id with
              | Some _ => throw (DuplicateId id t)
              | None =>
                  do modType t
                       (TypeObj.set_fieldsById (Some (<[id := field]> byId))) then
                  fieldsById_fill t rest
              end
          end
      end
  end.

(** [Type#fieldsById]. *)
Definition fieldsById (t : tref) : M (gmap Z fref) :=
  let* T := getType t in
  match TypeObj._fieldsById T with
  | Some byId => ret byId
  | None =>
      do modType t (TypeObj.set_fieldsById (Some ∅)) then
      let* names := fieldNames t in
      do fieldsById_fill t names then
      let* T' := getType t in
      match TypeObj._fieldsById T' with
      | Some byId => ret byId
      | None => throw TypeError
      end
  end.

(** ** [exists], [add], [remove] *)

(** [TypePrototype.exists]. *)
Definition exists_ (t : tref) (name : string) : M bool :=
  let* T := getType t in
  ret (Js.present (Js.lookup (TypeObj.fields T) name)
       || match TypeObj.nested T with
          | Some n => Js.present (Js.lookup n name)
          | None => false
          end
       || match TypeObj.oneofs T with
          | Some o => Js.present (Js.lookup o name)
          | None => false
          end).

(** [this._fieldsById = this._fieldNames = null]. *)
Definition clear_caches (T : TypeObj.t) : TypeObj.t :=
  TypeObj.set_fieldsById None (TypeObj.set_fieldNames None T).

Section AddRemove.

(** [Namespace.prototype.add] and [Namespace.prototype.remove] are not part
    of the sources; [add] and [remove] delegate to them for children that
    are neither fields nor one-ofs. *)
Variable NamespacePrototype_add : tref -> Child -> M tref.
Variable NamespacePrototype_remove : tref -> Child -> M tref.

(** [TypePrototype.remove]. *)
Definition remove (t : tref) (object : Child) : M tref :=
  match object with
  | CField f =>
      let* F := getField f in
      let* T := getType t in
      match Js.lookup (TypeObj.fields T) (Field.name F) with
      | Js.Own f' =>
          if Nat.eqb f' f then
            do modType t (fun T =>
                 TypeObj.set_fields
                   (Js.delete (TypeObj.fields T) (Field.name F)) T) then
            do modType t clear_caches then
            do modField f (Field.set_message None) then
            ret t
          else throw (NotMember t)
      | _ => throw (NotMember t)
      end
  | _ => NamespacePrototype_remove t object
  end.

(** [TypePrototype.add]. *)
Definition add (t : tref) (object : Child) : M tref :=
  let* name := child_name object in
  let* dup := exists_ t name in
  if dup : bool then throw (DuplicateName name t)
  else
    match object with
    | CField f =>
        let* F := getField f in
        do match Field.parent F with
           | Some p => remove p object
           | None => ret t
           end then
        do modType t (fun T =>
             TypeObj.set_fields (Js.assign (TypeObj.fields T) name f) T) then
        do modType t clear_caches then
        do modField f (Field.set_message (Some t)) then
        do onAdd object t then
        ret t
    | COneOf o =>
        do modType t (fun T =>
             TypeObj.set_oneofs
               (Some (Js.assign (default [] (TypeObj.oneofs T)) name o)) T) then
        do onAdd object t then
        ret t
    | CNested _ => NamespacePrototype_add t object
    end.

End AddRemove.

(** ** The worlds [add] and [remove] leave *)

(** The world a successful [remove] of a field leaves. *)
Definition removed (t : tref) (f : fref) (w : World) : World :=
  upd_field f (Field.set_message None)
    (upd_type t clear_caches
       (upd_type t (fun T =>
          TypeObj.set_fields
            (Js.delete (TypeObj.fields T) (Field.name (w_fields w f))) T) w)).

(** The world a successful [add] of a field leaves, from the world [w1]
    that the detachment from the former parent left. *)
Definition added (t : tref) (f : fref) (name : string) (w1 : World) : World :=
  upd_field f (Field.set_parent (Some t))
    (upd_field f (Field.set_message (Some t))
       (upd_type t clear_caches
          (upd_type t (fun T =>
             TypeObj.set_fields (Js.assign (TypeObj.fields T) name f) T) w1))).

Definition detached (f : fref) (w : World) : World :=
  match Field.parent (w_fields w f) with
  | Some p => removed p f w
  | None => w
  end.

(** ** [create] *)

(** Modelled from the spec: [Root.handleResolve], which is not part of the
    sources, merges pending extension fields into the type and is idempotent;
    modelled for a root without pending extensions, where it changes
    nothing. *)
Definition resolveExtends (t : tref) : M tref := ret t.

(** Modelled from the spec: [Field.resolve], which is not part of the sources,
    is idempotent and returns the field; the fields of a [World] are resolved
    ones, whose [defaultValue] is settled. *)
Definition resolve (f : fref) : M Field.t := getField f.

(** [this.fields[name].resolve()]; a name that is no key of [fields] makes the
    call a [TypeError]. *)
Definition resolved_field (t : tref) (name : string) : M Field.t :=
  let* T := getType t in
  match Js.lookup (TypeObj.fields T) name with
  | Js.Own f => resolve f
  | _ => throw TypeError
  end.

(** The loop that prepares the prototype of the instances, once. *)
Fixpoint create_prototype (t : tref) (prototype : addr)
    (fieldNames : list string) : M unit :=
  match fieldNames with
  | [] => ret tt
  | name :: rest =>
      let* field := resolved_field t name in
      let value := Field.defaultValue field in
      do (if negb (Js.isObject value) then writeProp prototype name value
          else ret tt) then
      create_prototype t prototype rest
  end.

(** The test that decides whether [message[name] = value] is executed. *)
Definition materialized (field : Field.t) (value : JsVal) : bool :=
  Field.required field || Field.repeated field || Field.map field
  || negb (Js.strict_eq value (Field.defaultValue field))
  || Js.isObject value.

(** The loop that populates a new instance. *)
Fixpoint create_populate (t : tref) (properties message : addr)
    (fieldNames : list string) : M unit :=
  match fieldNames with
  | [] => ret tt
  | name :: rest =>
      let* field := resolved_field t name in
      let* supplied := readProp properties name in
      let value := Js.or supplied (Field.defaultValue field) in
      do (if materialized field value then writeProp message name value
          else ret tt) then
      create_populate t properties message rest
  end.

(** [TypePrototype.create].  The call [create(constructor)] is the case
    without properties.  A [new Prototype()] is an object without properties
    of its own. *)
Definition create (t : tref) (properties : option addr)
    (constructor : option (option addr -> M addr)) : M addr :=
  match constructor with
  | Some c => c properties
  | None =>
      let* properties :=
        match properties with
        | Some p => ret p
        | None => alloc (HRec [] None)
        end in
      let* this := resolveExtends t in
      let* fieldNames := fieldNames this in
      let* T := getType t in
      let* prototype :=
        match TypeObj._prototype T with
        | Some p => ret p
        | None =>
            let* p := alloc (HRec [] None) in
            do create_prototype t p fieldNames then
            do modType t (TypeObj.set_prototype (Some p)) then
            ret p
        end in
      let* message := alloc (HRec [] (Some prototype)) in
      do create_populate t properties message fieldNames then
      ret message
  end.

(** ** Wire primitives *)

(** Modelled from the spec: the writer, which is not part of the sources: an
    append-only byte builder; a varint is the base-128 encoding of an unsigned
    integer, least significant group first; a tag is the varint of
    [(id << 3) | wireType]; a length-delimited run is its length as a varint
    followed by its bytes. *)
Module Writer.

Definition t := list Z.

Definition new : t := [].

Fixpoint varint (fuel : nat) (n : Z) : list Z :=
  match fuel with
  | O => [Z.land n 127]
  | S fuel' =>
      if n <? 128 then [n]
      else Z.lor (Z.land n 127) 128 :: varint fuel' (Z.shiftr n 7)
  end.

Definition uint32 (v : Z) (w : t) : t := w ++ varint 4 (v mod 2 ^ 32).

Definition tag (id wireType : Z) (w : t) : t :=
  uint32 (Z.lor (Z.shiftl id 3) wireType) w.

Definition bytes (b : list Z) (w : t) : t :=
  uint32 (Z.of_nat (length b)) w ++ b.

Definition string (s : String.string) (w : t) : t :=
  bytes (List.map (fun c => Z.of_nat (nat_of_ascii c)) (list_ascii_of_string s)) w.

Definition finish (w : t) : list Z := w.

End Writer.

(** Modelled from the spec: the reader, which is not part of the sources: a
    cursor [pos] over an immutable byte sequence of length [len]; [tag] reads
    one varint and splits it into the field id (the value shifted right by 3)
    and the wire type (its low 3 bits); [skip] with a byte count advances the
    cursor by it, without one it advances past exactly one varint; reading
    past [len] fails with a buffer underrun. *)
Module Reader.

Record t := { buf : list Z; pos : nat }.

Definition new (buffer : list Z) : t := {| buf := buffer; pos := 0 |}.

Definition len (r : t) : nat := length (buf r).

Definition advance (n : nat) (r : t) : t :=
  {| buf := buf r; pos := (pos r + n)%nat |}.

(** The value of the varint at the head of [bs] and the number of bytes it
    occupies. *)
Fixpoint varint (bs : list Z) : option (Z * nat) :=
  match bs with
  | [] => None
  | b :: rest =>
      if b <? 128 then Some (b, 1%nat)
      else
        match varint rest with
        | Some (v, n) => Some (Z.land b 127 + Z.shiftl v 7, S n)
        | None => None
        end
  end.

Definition uint32 (r : t) : Outcome (Z * t) :=
  match varint (drop (pos r) (buf r)) with
  | Some (v, n) => Ret (v mod 2 ^ 32, advance n r)
  | None => Throw BufferUnderrun
  end.

Record Tag := { id : Z; wireType : Z }.

Definition tag (r : t) : Outcome (Tag * t) :=
  match uint32 r with
  | Ret (v, r') => Ret ({| id := Z.shiftr v 3; wireType := Z.land v 7 |}, r')
  | Throw e => Throw e
  end.

(** [skip(length)]. *)
Definition skip (length : Z) (r : t) : t := advance (Z.to_nat length) r.

(** [skip()]. *)
Definition skip_varint (r : t) : Outcome t :=
  match varint (drop (pos r) (buf r)) with
  | Some (_, n) => Ret (advance n r)
  | None => Throw BufferUnderrun
  end.

(** A length-delimited run: its bytes and the reader behind it. *)
Definition bytes (r : t) : Outcome (list Z * t) :=
  match uint32 r with
  | Ret (n, r') =>
      if (pos r' + Z.to_nat n <=? len r')%nat
      then Ret (take (Z.to_nat n) (drop (pos r') (buf r')), advance (Z.to_nat n) r')
      else Throw BufferUnderrun
  | Throw e => Throw e
  end.

(** All the varints of a packed run. *)
Fixpoint varints (fuel : nat) (bs : list Z) : option (list Z) :=
  match bs with
  | [] => Some []
  | _ =>
      match fuel with
      | O => None
      | S fuel' =>
          match varint bs with
          | Some (v, n) => cons (v mod 2 ^ 32) <$> varints fuel' (drop n bs)
          | None => None
          end
      end
  end.

End Reader.

(** ** The codec of a field *)

(** Modelled from the spec: [Field.encode], which is not part of the sources.
    A [uint32] is written as tag (wire type 0) and varint, a [string] as tag
    (wire type 2) and length-delimited bytes; a repeated field writes its
    elements one after the other, each with its tag.  Values of another shape
    than the declared one are rejected. *)
Definition encode_scalar (field : Field.t) (value : JsVal) (writer : Writer.t)
    : Outcome Writer.t :=
  match Field.type field, value with
  | Field.uint32, VNum n =>
      Ret (Writer.uint32 n (Writer.tag (Field.id field) 0 writer))
  | Field.string, VStr s =>
      Ret (Writer.string s (Writer.tag (Field.id field) 2 writer))
  | _, _ => Throw TypeError
  end.

Fixpoint encode_elements (field : Field.t) (elts : list JsVal)
    (writer : Writer.t) : Outcome Writer.t :=
  match elts with
  | [] => Ret writer
  | v :: rest =>
      match encode_scalar field v writer with
      | Ret writer' => encode_elements field rest writer'
      | Throw e => Throw e
      end
  end.

Definition Field_encode (f : fref) (value : JsVal) (writer : Writer.t)
    : M Writer.t :=
  let* field := getField f in
  if Field.repeated field then
    let* h := getHeap in
    match value with
    | VRef a =>
        match h !! a with
        | Some (HArr elts) => lift (encode_elements field elts writer)
        | _ => throw TypeError
        end
    | _ => throw TypeError
    end
  else lift (encode_scalar field value writer).

(** Modelled from the spec: [Field.decode], which is not part of the sources,
    reads the value that follows a tag: a varint for [uint32], a
    length-delimited run for [string]; a repeated [uint32] met with wire type
    2 is a packed run and yields a new array of all its elements. *)
Definition Field_decode (f : fref) (reader : Reader.t) (wireType : Z)
    : M (JsVal * Reader.t) :=
  let* field := getField f in
  match Field.type field with
  | Field.uint32 =>
      if Field.repeated field && (wireType =? 2) then
        let* '(run, reader') := lift (Reader.bytes reader) in
        match Reader.varints (length run) run with
        | Some vs =>
            let* a := alloc (HArr (List.map VNum vs)) in
            ret (VRef a, reader')
        | None => throw BufferUnderrun
        end
      else
        let* '(v, reader') := lift (Reader.uint32 reader) in
        ret (VNum v, reader')
  | Field.string =>
      let* '(run, reader') := lift (Reader.bytes reader) in
      ret (VStr (string_of_list_ascii
                   (List.map (fun b => ascii_of_nat (Z.to_nat b)) run)),
           reader')
  end.

(** ** [encode] *)

(** The loop of [TypePrototype.encode]. *)
Fixpoint encode_fields (t : tref) (message : addr) (writer : Writer.t)
    (fieldNames : list string) : M Writer.t :=
  match fieldNames with
  | [] => ret writer
  | name :: rest =>
      let* T := getType t in
      let* value := readProp message name in
      match Js.lookup (TypeObj.fields T) name with
      | Js.Own f =>
          let* field := resolve f in
          let* h := getHeap in
          let* writer' :=
            if Field.required field
               || negb (Js.loose_eq h value (Field.defaultValue field))
            then Field_encode f value writer
            else ret writer in
          encode_fields t message writer' rest
      | _ => throw TypeError
      end
  end.

(** [TypePrototype.encode]. *)
Definition encode (t : tref) (message : addr) (writer : option Writer.t)
    : M Writer.t :=
  let writer := default Writer.new writer in
  let* this := resolveExtends t in
  let* fieldNames := fieldNames this in
  encode_fields t message writer fieldNames.

(** ** [decode] *)

(** [array.push(value)]; an [array] that is no array has no [push]. *)
Definition push (array : JsVal) (values : list JsVal) : M unit :=
  let* h := getHeap in
  match array with
  | VRef a =>
      match h !! a with
      | Some (HArr elts) => putHeap (<[a := HArr (elts ++ values)]> h)
      | _ => throw TypeError
      end
  | _ => throw TypeError
  end.

Definition array_elements (h : Heap) (v : JsVal) : list JsVal :=
  match v with
  | VRef a => match h !! a with Some (HArr elts) => elts | _ => [] end
  | _ => []
  end.

(** The body of the [while] loop of [TypePrototype.decode]. *)
Definition decode_step (t : tref) (message : addr) (fieldsById : gmap Z fref)
    (reader : Reader.t) : M Reader.t :=
  let* '(tag, reader) := lift (Reader.tag reader) in
  match fieldsById !! Reader.id tag with
  | Some f =>
      let* field := getField f in
      let name := Field.name field in
      let* '(value, reader) := Field_decode f reader (Reader.wireType tag) in
      do (if Field.repeated field then
            let* current := readProp message name in
            let* array :=
              if Js.truthy current then ret current
              else
                let* a := alloc (HArr []) in
                do writeProp message name (VRef a) then
                ret (VRef a) in
            let* h := getHeap in
            if Js.isArray h value then push array (array_elements h value)
            else push array [value]
          else writeProp message name value) then
      ret reader
  | None =>
      match Reader.wireType tag with
      | 0 => lift (Reader.skip_varint reader)
      | 1 => ret (Reader.skip 8 reader)
      | 2 =>
          let* '(n, reader) := lift (Reader.uint32 reader) in
          ret (Reader.skip n reader)
      | 5 => ret (Reader.skip 4 reader)
      | wireType => throw (UnsupportedWireType (Reader.id tag) wireType t)
      end
  end.

(** The [while] loop, bounded by the number of iterations it is given. *)
Fixpoint decode_loop (fuel : nat) (t : tref) (message : addr)
    (fieldsById : gmap Z fref) (limit : Z) (reader : Reader.t) : M Reader.t :=
  if Z.of_nat (Reader.pos reader) <? limit then
    match fuel with
    | O => throw OutOfFuel
    | S fuel' =>
        let* reader' := decode_step t message fieldsById reader in
        decode_loop fuel' t message fieldsById limit reader'
    end
  else ret reader.

(** [TypePrototype.decode], from a reader.  Every iteration consumes at least
    the byte of a tag, so [limit - pos] iterations are all the loop can make. *)
Definition decode (t : tref) (reader : Reader.t)
    (constructor : option (option addr -> M addr)) (length : option Z)
    : M (addr * Reader.t) :=
  let* this := resolveExtends t in
  let limit :=
    match length with
    | None => Z.of_nat (Reader.len reader)
    | Some n => Z.of_nat (Reader.pos reader) + n
    end in
  let* properties := alloc (HRec [] None) in
  let* message := create this (Some properties) constructor in
  let* fieldsById := fieldsById this in
  let* reader' :=
    decode_loop (Z.to_nat (limit - Z.of_nat (Reader.pos reader)))
      this message fieldsById limit reader in
  if Z.of_nat (Reader.pos reader') =? limit then ret (message, reader')
  else throw (InvalidWireFormat (Z.of_nat (Reader.pos reader')) limit).


(** ** Vocabulary of the statements *)

(** [name] is bound in one of the namespaces of a type: its fields, its
    nested objects or its one-ofs. *)
Definition bound (T : TypeObj.t) (name : string) : Prop :=
  is_Some (Js.own (TypeObj.fields T) name)
  \/ (exists n, TypeObj.nested T = Some n /\ is_Some (Js.own n name))
  \/ (exists o, TypeObj.oneofs T = Some o /\ is_Some (Js.own o name)).

(** The field [f] appears in the [fields] mapping of the type [t]. *)
Definition holds (w : World) (t : tref) (f : fref) : Prop :=
  exists k, Js.own (TypeObj.fields (w_types w t)) k = Some f.

(** Every field that a type holds is stored under its own name and has that
    type as its parent. *)
Definition ownership (w : World) : Prop :=
  forall t k f,
    Js.own (TypeObj.fields (w_types w t)) k = Some f ->
    k = Field.name (w_fields w f) /\ Field.parent (w_fields w f) = Some t.

(** ** Sample worlds *)

Definition sample_field (name : string) (id : Z) (type : Field.Kind)
    (required repeated : bool) (defaultValue : JsVal) : Field.t :=
  {| Field.name := name; Field.id := id; Field.type := type;
     Field.required := required; Field.repeated := repeated;
     Field.map := false; Field.defaultValue := defaultValue;
     Field.parent := None; Field.message := None |}.

(** Empty types; the fields 0: [id] (required [uint32], id 1), 1: [name]
    (optional [string], id 2), 2: [x] (optional [uint32], id 1, default 5),
    3: another [id] (optional [uint32], id 3) and 4: [r] (repeated [uint32],
    id 4, whose default is the empty array at heap address 0); and the
    property objects [{x: 0}] at address 1, [{id: 7, name: "x"}] at address
    2 and [{r: [7]}] at address 4, its array at address 3. *)
Definition sample_world : World :=
  {| w_types := fun _ => TypeObj.new "T";
     w_fields := fun f =>
       match f with
       | 0%nat => sample_field "id" 1 Field.uint32 true false (VNum 0)
       | 1%nat => sample_field "name" 2 Field.string false false (VStr "")
       | 2%nat => sample_field "x" 1 Field.uint32 false false (VNum 5)
       | 3%nat => sample_field "id" 3 Field.uint32 false false (VNum 0)
       | _ => sample_field "r" 4 Field.uint32 false true (VRef 0%nat)
       end;
     w_oneofs := fun _ => {| Refl.name := "choice"; Refl.parent := None |};
     w_nested := fun _ => {| Refl.name := "Inner"; Refl.parent := None |};
     w_heap :=
       [ HArr [];
         HRec [("x", VNum 0)] None;
         HRec [("id", VNum 7); ("name", VStr "x")] None;
         HArr [VNum 7];
         HRec [("r", VRef 3%nat)] None ] |}.

(** A namespace that takes no nested objects. *)
Definition no_namespace (t : tref) (c : Child) : M tref := throw TypeError.

(** The world after running [c], whatever the outcome. *)
Definition after {A} (c : M A) (w : World) : World := snd (c w).

(** The ids of the fields of a type, in the order of the names. *)
Definition ids_of (w : World) (t : tref) (names : list string) : list Z :=
  omap (fun n => (fun f => Field.id (w_fields w f))
                   <$> Js.own (TypeObj.fields (w_types w t)) n) names.

Definition field_ids (w : World) (t : tref) : list Z :=
  ids_of w t (Js.keys (TypeObj.fields (w_types w t))).

(** What filling the view by id of [t] changes in a world: that cache. *)
Definition cache_filled (t : tref) (w w' : World) (m : gmap Z fref) : Prop :=
  w_types w' t = TypeObj.set_fieldsById (Some m) (w_types w t)
  /\ (forall t', t <> t' -> w_types w' t' = w_types w t')
  /\ w_fields w' = w_fields w /\ w_heap w' = w_heap w.

(** The cache of the names of [t], if filled, lists the keys of [fields]. *)
Definition names_coherent (w : World) (t : tref) : Prop :=
  forall names,
    TypeObj._fieldNames (w_types w t) = Some names ->
    names = Js.keys (TypeObj.fields (w_types w t)).

(** What reading [fieldNames] of [t] changes in a world: that cache. *)
Definition names_cached (t : tref) (w w' : World) : Prop :=
  w_types w' t
  = TypeObj.set_fieldNames (Some (Js.keys (TypeObj.fields (w_types w t))))
      (w_types w t)
  /\ (forall t', t <> t' -> w_types w' t' = w_types w t')
  /\ w_fields w' = w_fields w /\ w_heap w' = w_heap w.

(** Two worlds with the same reflection objects; only the heap may differ. *)
Definition same_schema (w w' : World) : Prop :=
  w_types w' = w_types w /\ w_fields w' = w_fields w
  /\ w_oneofs w' = w_oneofs w /\ w_nested w' = w_nested w.

(** What [create] assigns to [message[k]] for the properties object at [p]:
    the value, if the test of the loop passes for the field named [k]. *)
Definition slot_value (w : World) (t : tref) (p : addr) (k : string)
    : option JsVal :=
  match Js.own (TypeObj.fields (w_types w t)) k with
  | Some f =>
      let field := w_fields w f in
      let value := Js.or (Js.get (w_heap w) p k) (Field.defaultValue field) in
      if materialized field value then Some value else None
  | None => None
  end.

(** What the prototype of the instances holds under [k]: the default of the
    field named [k] unless it is an object. *)
Definition template_value (w : World) (t : tref) (k : string) : option JsVal :=
  match Js.own (TypeObj.fields (w_types w t)) k with
  | Some f =>
      let value := Field.defaultValue (w_fields w f) in
      if Js.isObject value then None else Some value
  | None => None
  end.

(** What [create t properties] (without a constructor) leaves in the world
    [w'] and the instance [m] it returns, from the world [w]: the reflection
    objects are as they were but for the caches of the names and of the
    prototype of [t]; the old heap cells are as they were; the instance is a
    new object whose own properties are those that [slot_value] describes and
    whose prototype is the cached one of the type, built now if there was
    none. *)
Definition created (t : tref) (p : addr) (w : World) (m : addr) (w' : World)
    : Prop :=
  w_fields w' = w_fields w
  /\ (forall t', t <> t' -> w_types w' t' = w_types w t')
  /\ TypeObj.fields (w_types w' t) = TypeObj.fields (w_types w t)
  /\ TypeObj._fieldsById (w_types w' t) = TypeObj._fieldsById (w_types w t)
  /\ TypeObj._fieldNames (w_types w' t)
     = Some (Js.keys (TypeObj.fields (w_types w t)))
  /\ (forall b, (b < length (w_heap w))%nat -> w_heap w' !! b = w_heap w !! b)
  /\ (length (w_heap w) <= m)%nat
  /\ exists tmpl ps,
       TypeObj._prototype (w_types w' t) = Some tmpl
       /\ w_heap w' !! m = Some (HRec ps (Some tmpl))
       /\ (forall k, Js.own ps k = slot_value w t p k)
       /\ match TypeObj._prototype (w_types w t) with
          | Some q => tmpl = q
          | None =>
              (tmpl < m)%nat
              /\ exists tps,
                   w_heap w' !! tmpl = Some (HRec tps None)
                   /\ forall k, Js.own tps k = template_value w t k
          end.

(** The value that [create] reads off the properties for the field named
    [k]; without a properties object it reads an empty object literal. *)
Definition supplied (w : World) (properties : option addr) (k : string) : JsVal :=
  match properties with
  | Some p => Js.get (w_heap w) p k
  | None => if Js.inherited k then VBuiltin k else VUndef
  end.



(** The prototype of the instances of [t], if there is one already, provides
    the value [d] under [k]. *)
Definition prototype_serves (w : World) (t : tref) (k : string) (d : JsVal)
    : Prop :=
  match TypeObj._prototype (w_types w t) with
  | Some q => (q < length (w_heap w))%nat /\ Js.get (w_heap w) q k = d
  | None => True
  end.

(** The test of the loop of [encode] for the field named [name]. *)
Definition encoded (w : World) (t : tref) (message : addr) (name : string)
    : bool :=
  match Js.own (TypeObj.fields (w_types w t)) name with
  | Some f =>
      let field := w_fields w f in
      Field.required field
      || negb (Js.loose_eq (w_heap w) (Js.get (w_heap w) message name)
                 (Field.defaultValue field))
  | None => false
  end.

(** [Field.encode] called for each of the names in turn, on the value the
    message has for it. *)
Fixpoint encode_each (w : World) (t : tref) (message : addr)
    (names : list string) (writer : Writer.t) : M Writer.t :=
  match names with
  | [] => ret writer
  | name :: rest =>
      match Js.own (TypeObj.fields (w_types w t)) name with
      | Some f =>
          let* writer' :=
            Field_encode f (Js.get (w_heap w) message name) writer in
          encode_each w t message rest writer'
      | None => throw TypeError
      end
  end.

(** The limit [decode] establishes. *)
Definition limit_of (reader : Reader.t) (length : option Z) : Z :=
  match length with
  | None => Z.of_nat (Reader.len reader)
  | Some n => Z.of_nat (Reader.pos reader) + n
  end.

(** [exists] as a function of the type. *)
Definition taken (T : TypeObj.t) (name : string) : bool :=
  Js.present (Js.lookup (TypeObj.fields T) name)
  || match TypeObj.nested T with
     | Some n => Js.present (Js.lookup n name)
     | None => false
     end
  || match TypeObj.oneofs T with
     | Some o => Js.present (Js.lookup o name)
     | None => false
     end.

(** * Further properties: vocabulary *)

(** No name is a key of two of the namespaces of a type. *)
Definition namespaces_disjoint (T : TypeObj.t) : Prop :=
  forall name,
    (is_Some (Js.own (TypeObj.fields T) name) ->
       Js.own (default [] (TypeObj.nested T)) name = None
       /\ Js.own (default [] (TypeObj.oneofs T)) name = None)
    /\ (is_Some (Js.own (default [] (TypeObj.nested T)) name) ->
          Js.own (default [] (TypeObj.oneofs T)) name = None).

(** The sample world with its field 0 renamed to [constructor]. *)
Definition sample_world_inherited : World :=
  upd_field 0%nat
    (fun F =>
       {| Field.name := "constructor"; Field.id := Field.id F;
          Field.type := Field.type F; Field.required := Field.required F;
          Field.repeated := Field.repeated F; Field.map := Field.map F;
          Field.defaultValue := Field.defaultValue F;
          Field.parent := Field.parent F; Field.message := Field.message F |})
    sample_world.

(** The prototype of a heap object. *)
Definition proto_of (h : Heap) (a : addr) : option addr :=
  match h !! a with
  | Some (HRec _ proto) => proto
  | _ => None
  end.

(** [TypePrototype.decodeDelimited], from a reader: the run that the reader
    hands out is decoded by a reader of its own, to its end; the reader of
    the caller is left behind the run. *)
Definition decodeDelimited (t : tref) (reader : Reader.t)
    (constructor : option (option addr -> M addr)) : M (addr * Reader.t) :=
  let* '(run, reader') := lift (Reader.bytes reader) in
  let* '(message, _) := decode t (Reader.new run) constructor None in
  ret (message, reader').

(** ** Vocabulary of the round trip *)

(** A value that the codec of the field writes and reads back: a [uint32]
    in its range, a string whose length fits the length prefix. *)
Definition wire_value (field : Field.t) (v : JsVal) : Prop :=
  match Field.type field, v with
  | Field.uint32, VNum n => 0 <= n < 2 ^ 32
  | Field.string, VStr s => Z.of_nat (String.length s) < 2 ^ 32
  | _, _ => False
  end.

(** The bytes that the codec of a field that is not repeated appends for a
    value. *)
Definition wire_bytes (field : Field.t) (v : JsVal) : list Z :=
  match encode_scalar field v Writer.new with
  | Ret bytes => bytes
  | Throw _ => []
  end.

(** The bytes of the fields [names] of a message, one field after the
    other. *)
Definition frames (w : World) (t : tref) (message : addr)
    (names : list string) : list Z :=
  concat
    (List.map
       (fun name =>
          match Js.own (TypeObj.fields (w_types w t)) name with
          | Some f => wire_bytes (w_fields w f) (Js.get (w_heap w) message name)
          | None => []
          end)
       names).

(** A type of singular fields: every field goes by the name it is declared
    under, none is repeated, and every id fits a tag of 32 bits. *)
Definition singular_schema (w : World) (t : tref) : Prop :=
  forall k f,
    Js.own (TypeObj.fields (w_types w t)) k = Some f ->
    Field.name (w_fields w f) = k
    /\ Field.repeated (w_fields w f) = false
    /\ 0 <= Field.id (w_fields w f) < 2 ^ 29.

(** A field name whose bytes the loop of [decode] reads back: the field is
    singular, its value is one the codec carries, and the view by id leads
    from its id to the field. *)
Definition readable (w : World) (t : tref) (message : addr)
    (byId : gmap Z fref) (name : string) : Prop :=
  exists f,
    Js.own (TypeObj.fields (w_types w t)) name = Some f
    /\ wire_value (w_fields w f) (Js.get (w_heap w) message name)
    /\ Field.name (w_fields w f) = name
    /\ Field.repeated (w_fields w f) = false
    /\ 0 <= Field.id (w_fields w f) < 2 ^ 29
    /\ byId !! Field.id (w_fields w f) = Some f.
(** * Properties *)

(** Unfolds the monad and the accessors of the world, and reduces what that
    exposes. *)
Ltac monad_simpl :=
  repeat (progress (unfold bind, ret, throw, lift, getType, getField, getHeap,
                      modType, modField, modOneOf, modNested, putHeap,
                      child_name;
                    cbv beta iota)).

(** ** Objects as maps *)

Lemma own_assign_eq {A} (o : Obj A) k v : Js.own (Js.assign o k v) k = Some v.
Proof.
  induction o as [|[k' v'] o IH]; simpl.
  - now rewrite String.eqb_refl.
  - destruct (String.eqb k' k) eqn:E; simpl; rewrite E; auto.
Qed.

Lemma own_assign_ne {A} (o : Obj A) k k' v :
  k <> k' -> Js.own (Js.assign o k v) k' = Js.own o k'.
Proof.
  intros Hne. induction o as [|[k0 v0] o IH]; simpl.
  - destruct (String.eqb k k') eqn:E; auto.
    apply String.eqb_eq in E. contradiction.
  - destruct (String.eqb k0 k) eqn:E; simpl.
    + apply String.eqb_eq in E. subst k0.
      destruct (String.eqb k k') eqn:E'; auto.
      apply String.eqb_eq in E'. contradiction.
    + now rewrite IH.
Qed.

Lemma own_delete_eq {A} (o : Obj A) k : Js.own (Js.delete o k) k = None.
Proof.
  unfold Js.delete. induction o as [|[k0 v0] o IH]; simpl; auto.
  destruct (String.eqb k0 k) eqn:E; simpl; auto. now rewrite E.
Qed.

Lemma own_delete_ne {A} (o : Obj A) k k' :
  k <> k' -> Js.own (Js.delete o k) k' = Js.own o k'.
Proof.
  intros Hne. unfold Js.delete.
  induction o as [|[k0 v0] o IH]; simpl; auto.
  destruct (String.eqb k0 k) eqn:E; simpl.
  - apply String.eqb_eq in E. subst k0.
    destruct (String.eqb k k') eqn:E'; auto.
    apply String.eqb_eq in E'. contradiction.
  - now rewrite IH.
Qed.

Lemma own_keys {A} (o : Obj A) k : In k (Js.keys o) <-> is_Some (Js.own o k).
Proof.
  unfold Js.keys. induction o as [|[k0 v0] o IH]; simpl.
  - split; [tauto | intros [x Hx]; discriminate].
  - destruct (String.eqb k0 k) eqn:E.
    + apply String.eqb_eq in E. split; eauto.
    + rewrite <- IH. split; auto. intros [->|]; auto.
      rewrite String.eqb_refl in E. discriminate.
Qed.

Lemma lookup_absent_own {A} (o : Obj A) k :
  Js.present (Js.lookup o k) = false -> Js.own o k = None.
Proof.
  unfold Js.lookup. destruct (Js.own o k); simpl; auto. discriminate.
Qed.

Lemma lookup_own {A} (o : Obj A) k a :
  Js.lookup o k = Js.Own a <-> Js.own o k = Some a.
Proof.
  unfold Js.lookup. destruct (Js.own o k).
  - split; congruence.
  - destruct (Js.inherited k); split; discriminate.
Qed.

Lemma own_present {A} (o : Obj A) k :
  is_Some (Js.own o k) -> Js.present (Js.lookup o k) = true.
Proof. intros [a Ha]. unfold Js.lookup. now rewrite Ha. Qed.

(** ** Reading a world after an update *)

Lemma types_upd_type_eq t g w : w_types (upd_type t g w) t = g (w_types w t).
Proof. simpl. apply fn_lookup_insert. Qed.

Lemma types_upd_type_ne t t' g w :
  t <> t' -> w_types (upd_type t g w) t' = w_types w t'.
Proof. intros. simpl. now apply fn_lookup_insert_ne. Qed.

Lemma fields_upd_field_eq f g w : w_fields (upd_field f g w) f = g (w_fields w f).
Proof. simpl. apply fn_lookup_insert. Qed.

Lemma fields_upd_field_ne f f' g w :
  f <> f' -> w_fields (upd_field f g w) f' = w_fields w f'.
Proof. intros. simpl. now apply fn_lookup_insert_ne. Qed.

(** Whatever [add] and [remove] do to a field, its name and id stay. *)
Lemma name_upd_field f f' g w :
  (forall F, Field.name (g F) = Field.name F) ->
  Field.name (w_fields (upd_field f g w) f') = Field.name (w_fields w f').
Proof.
  intros Hg. destruct (decide (f = f')) as [->|Hne].
  - now rewrite fields_upd_field_eq.
  - now rewrite fields_upd_field_ne.
Qed.

(** ** [add] and [remove] *)

Section AddRemoveFacts.

Variable NA NR : tref -> Child -> M tref.

Lemma remove_field_inv t f w r w' :
  remove NR t (CField f) w = (Ret r, w') ->
  Js.own (TypeObj.fields (w_types w t)) (Field.name (w_fields w f)) = Some f
  /\ r = t /\ w' = removed t f w.
Proof.
  unfold remove, bind, getField, getType. simpl.
  destruct (Js.lookup _ _) as [f'| |] eqn:L; try discriminate.
  destruct (Nat.eqb f' f) eqn:E; try discriminate.
  apply Nat.eqb_eq in E. subst f'. apply lookup_own in L.
  intros H. injection H as <- <-. auto.
Qed.

Lemma remove_field_run t f w :
  Js.own (TypeObj.fields (w_types w t)) (Field.name (w_fields w f)) = Some f ->
  remove NR t (CField f) w = (Ret t, removed t f w).
Proof.
  intros H. apply lookup_own in H.
  unfold remove, bind, getField, getType. simpl. rewrite H.
  now rewrite Nat.eqb_refl.
Qed.

Arguments remove : simpl never.

Lemma add_field_inv t f w r w' :
  add NA NR t (CField f) w = (Ret r, w') ->
  let name := Field.name (w_fields w f) in
  Js.own (TypeObj.fields (w_types w t)) name = None
  /\ (forall p, Field.parent (w_fields w f) = Some p ->
        Js.own (TypeObj.fields (w_types w p)) name = Some f)
  /\ r = t /\ w' = added t f name (detached f w).
Proof.
  unfold add, bind, child_name, exists_, getType, getField, ret. simpl.
  destruct (Js.present (Js.lookup (TypeObj.fields (w_types w t)) _)) eqn:P;
    simpl; try discriminate.
  apply lookup_absent_own in P.
  destruct (_ || _); try discriminate.
  unfold detached.
  destruct (Field.parent (w_fields w f)) as [p|] eqn:Hp.
  - destruct (remove NR p (CField f) w) as [[r1|e] w1] eqn:R; try discriminate.
    apply remove_field_inv in R as (Hown & -> & ->).
    intros H. injection H as <- <-. repeat split; auto.
    intros p' Hp'. now injection Hp' as <-.
  - intros H. injection H as <- <-. repeat split; auto. discriminate.
Qed.

End AddRemoveFacts.

(** ** Duplicate names *)

(** C8. [add] fails with the duplicate-name error whenever the name of the
    child is already bound in one of the namespaces of the type (fields,
    nested objects, one-ofs), whatever the kind of the child, and leaves the
    world as it was. *)
Theorem add_rejects_bound_name (NA NR : tref -> Child -> M tref)
    (w : World) (t : tref) (object : Child) :
  bound (w_types w t) (name_of w object) ->
  add NA NR t object w = (Throw (DuplicateName (name_of w object) t), w).
Proof.
  intros Hb. set (name := name_of w object) in *.
  assert (Hex : Js.present (Js.lookup (TypeObj.fields (w_types w t)) name)
       || match TypeObj.nested (w_types w t) with
          | Some n => Js.present (Js.lookup n name)
          | None => false
          end
       || match TypeObj.oneofs (w_types w t) with
          | Some o => Js.present (Js.lookup o name)
          | None => false
          end = true).
  { destruct Hb as [H | [(n & Hn & H) | (o & Ho & H)]].
    - now rewrite (own_present _ _ H).
    - rewrite Hn, (own_present _ _ H). now rewrite orb_true_r.
    - rewrite Ho, (own_present _ _ H). now rewrite orb_true_r. }
  unfold add, exists_. monad_simpl. fold name. now rewrite Hex.
Qed.

Lemma add_rejects_bound_name_witness :
  let w := after (add no_namespace no_namespace 0%nat (CField 0%nat)) sample_world in
  bound (w_types w 0%nat) (name_of w (CField 3%nat))
  /\ add no_namespace no_namespace 0%nat (CField 3%nat) w
     = (Throw (DuplicateName "id" 0%nat), w).
Proof.
  intros w.
  assert (Hb : bound (w_types w 0%nat) (name_of w (CField 3%nat))).
  { left. vm_compute. eauto. }
  split; [exact Hb |].
  exact (add_rejects_bound_name no_namespace no_namespace w 0%nat (CField 3%nat) Hb).
Defined.

(** ** Ownership of fields *)

Section Ownership.

Variable NA NR : tref -> Child -> M tref.

Lemma own_fields_removed_eq t f w k :
  Js.own (TypeObj.fields (w_types (removed t f w) t)) k
  = if decide (Field.name (w_fields w f) = k) then None
    else Js.own (TypeObj.fields (w_types w t)) k.
Proof.
  unfold removed. simpl. rewrite !fn_lookup_insert. simpl.
  destruct (decide _) as [->|Hne].
  - apply own_delete_eq.
  - now apply own_delete_ne.
Qed.

Lemma types_removed_ne t t' f w :
  t <> t' -> w_types (removed t f w) t' = w_types w t'.
Proof.
  intros Hne. unfold removed. simpl. now rewrite !fn_lookup_insert_ne.
Qed.

Lemma name_removed t f w g :
  Field.name (w_fields (removed t f w) g) = Field.name (w_fields w g).
Proof. unfold removed. now rewrite name_upd_field. Qed.

Lemma parent_removed t f w g :
  Field.parent (w_fields (removed t f w) g) = Field.parent (w_fields w g).
Proof.
  unfold removed. destruct (decide (f = g)) as [->|Hne].
  - now rewrite fields_upd_field_eq.
  - now rewrite fields_upd_field_ne.
Qed.

Lemma own_fields_added_eq t f name w k :
  Js.own (TypeObj.fields (w_types (added t f name w) t)) k
  = if decide (name = k) then Some f
    else Js.own (TypeObj.fields (w_types w t)) k.
Proof.
  unfold added. simpl. rewrite !fn_lookup_insert. simpl.
  destruct (decide _) as [->|Hne].
  - apply own_assign_eq.
  - now apply own_assign_ne.
Qed.

Lemma types_added_ne t t' f name w :
  t <> t' -> w_types (added t f name w) t' = w_types w t'.
Proof.
  intros Hne. unfold added. simpl. now rewrite !fn_lookup_insert_ne.
Qed.

Lemma name_added t f name w g :
  Field.name (w_fields (added t f name w) g) = Field.name (w_fields w g).
Proof. unfold added. now rewrite !name_upd_field. Qed.

Lemma parent_added t f name w g :
  Field.parent (w_fields (added t f name w) g)
  = if decide (f = g) then Some t else Field.parent (w_fields w g).
Proof.
  unfold added. destruct (decide (f = g)) as [->|Hne].
  - now rewrite fields_upd_field_eq.
  - now rewrite !fields_upd_field_ne.
Qed.

(** Detaching a field keeps the ownership discipline and leaves the field
    in no type at all. *)
Lemma detached_ownership f w :
  ownership w ->
  (forall p, Field.parent (w_fields w f) = Some p ->
     Js.own (TypeObj.fields (w_types w p)) (Field.name (w_fields w f)) = Some f) ->
  ownership (detached f w) /\ forall t, ~ holds (detached f w) t f.
Proof.
  intros Hw Hp. unfold detached.
  destruct (Field.parent (w_fields w f)) as [p|] eqn:E.
  - split.
    + intros t k g. rewrite name_removed, parent_removed.
      destruct (decide (p = t)) as [<-|Hne].
      * rewrite own_fields_removed_eq. destruct (decide _); [discriminate|].
        apply Hw.
      * rewrite types_removed_ne by auto. apply Hw.
    + intros t [k Hk]. destruct (decide (p = t)) as [<-|Hne].
      * rewrite own_fields_removed_eq in Hk.
        destruct (decide _) as [|Hn]; [discriminate|].
        apply Hw in Hk as [-> _]. now apply Hn.
      * rewrite types_removed_ne in Hk by auto.
        apply Hw in Hk as [_ Hk]. congruence.
  - split; auto. intros t [k Hk]. apply Hw in Hk as [_ Hk]. congruence.
Qed.

(** C10. In a world that respects the ownership discipline (a field held by
    a type is stored under its name and has that type as parent), a
    successful [add] of a field leaves the field in the fields mapping of
    the adopting type and of no other type, and the discipline still
    holds. *)
Theorem add_field_single_owner (w : World) (t : tref) (f : fref)
    (r : tref) (w' : World) :
  ownership w ->
  add NA NR t (CField f) w = (Ret r, w') ->
  (forall t', holds w' t' f <-> t' = t) /\ ownership w'.
Proof.
  intros Hw Hadd.
  apply add_field_inv in Hadd as (Hfree & Hpar & -> & ->).
  destruct (detached_ownership f w Hw Hpar) as [Hd Hnone].
  assert (Hname : Field.name (w_fields (detached f w) f)
                  = Field.name (w_fields w f)).
  { unfold detached. destruct (Field.parent _); auto. apply name_removed. }
  set (name := Field.name (w_fields w f)) in *.
  set (w1 := detached f w) in *.
  split.
  - intros t'. split.
    + intros [k Hk]. destruct (decide (t = t')) as [|Hne]; auto.
      rewrite types_added_ne in Hk by auto.
      exfalso. apply (Hnone t'). now exists k.
    + intros ->. exists name. rewrite own_fields_added_eq.
      now destruct (decide _).
  - intros t' k g. rewrite name_added, parent_added.
    destruct (decide (t = t')) as [<-|Hne].
    + rewrite own_fields_added_eq.
      destruct (decide (name = k)) as [<-|Hk].
      * intros [= <-]. rewrite Hname. now destruct (decide _).
      * intros Hg. destruct (decide (f = g)) as [<-|Hfg].
        -- exfalso. apply (Hnone t). now exists k.
        -- now apply Hd.
    + rewrite types_added_ne by auto. intros Hg.
      destruct (decide (f = g)) as [<-|Hfg].
      * exfalso. apply (Hnone t'). now exists k.
      * now apply Hd.
Qed.

End Ownership.

Lemma add_field_single_owner_witness :
  let w1 := after (add no_namespace no_namespace 1%nat (CField 0%nat)) sample_world in
  let w2 := after (add no_namespace no_namespace 0%nat (CField 0%nat)) w1 in
  ownership w1
  /\ add no_namespace no_namespace 0%nat (CField 0%nat) w1 = (Ret 0%nat, w2)
  /\ (forall t', holds w2 t' 0%nat <-> t' = 0%nat) /\ ownership w2.
Proof.
  intros w1 w2.
  assert (H0 : ownership sample_world).
  { intros t k f. simpl. discriminate. }
  assert (E1 : add no_namespace no_namespace 1%nat (CField 0%nat) sample_world
               = (Ret 1%nat, w1)) by reflexivity.
  assert (E2 : add no_namespace no_namespace 0%nat (CField 0%nat) w1
               = (Ret 0%nat, w2)) by reflexivity.
  assert (H1 : ownership w1).
  { exact (proj2 (add_field_single_owner no_namespace no_namespace
                    sample_world 1%nat 0%nat 1%nat w1 H0 E1)). }
  split; [exact H1 |]. split; [exact E2 |].
  exact (add_field_single_owner no_namespace no_namespace
           w1 0%nat 0%nat 0%nat w2 H1 E2).
Defined.

(** ** The view by id *)

Section FieldsById.

Variable t : tref.

Lemma ids_of_upd_cache names c w :
  ids_of (upd_type t (TypeObj.set_fieldsById c) w) t names = ids_of w t names.
Proof. unfold ids_of. now rewrite types_upd_type_eq. Qed.

Lemma fill_ok names : forall w acc,
  TypeObj._fieldsById (w_types w t) = Some acc ->
  Forall (fun n => is_Some (Js.own (TypeObj.fields (w_types w t)) n)) names ->
  NoDup (ids_of w t names) ->
  (forall i, In i (ids_of w t names) -> acc !! i = None) ->
  exists w' m,
    fieldsById_fill t names w = (Ret tt, w')
    /\ cache_filled t w w' m
    /\ (forall n f, In n names ->
          Js.own (TypeObj.fields (w_types w t)) n = Some f ->
          m !! Field.id (w_fields w f) = Some f)
    /\ (forall i, ~ In i (ids_of w t names) -> m !! i = acc !! i).
Proof.
  induction names as [|n rest IH]; intros w acc Hc Hall Hnd Hfresh.
  - exists w, acc. simpl. repeat split; auto; try tauto.
    destruct (w_types w t); simpl in *. now subst.
  - inversion Hall as [|? ? [f Hf] Hrest]; subst.
    assert (Hids : ids_of w t (n :: rest)
                   = Field.id (w_fields w f) :: ids_of w t rest).
    { unfold ids_of. simpl. now rewrite Hf. }
    rewrite Hids in Hnd, Hfresh. inversion Hnd as [|? ? Hni Hnd']; subst.
    set (i := Field.id (w_fields w f)) in *.
    set (w1 := upd_type t (TypeObj.set_fieldsById (Some (<[i := f]> acc))) w).
    destruct (IH w1 (<[i := f]> acc)) as (w' & m & Hrun & Hcf & Hin & Hout).
    + unfold w1. now rewrite types_upd_type_eq.
    + unfold w1. now rewrite types_upd_type_eq.
    + unfold w1. now rewrite ids_of_upd_cache.
    + unfold w1. rewrite ids_of_upd_cache. intros j Hj.
      rewrite lookup_insert_ne; [apply Hfresh; now right |].
      intros E. apply Hni, list_elem_of_In. now rewrite E.
    + exists w', m. split; [|split; [|split]].
      * simpl. monad_simpl. rewrite Hf, Hc. fold i.
        rewrite (Hfresh i) by now left. exact Hrun.
      * destruct Hcf as (Ht & Hother & Hfs & Hh).
        unfold w1 in *. repeat split.
        -- rewrite Ht, types_upd_type_eq. reflexivity.
        -- intros t' Hne. rewrite Hother by auto.
           now rewrite types_upd_type_ne.
        -- exact Hfs.
        -- exact Hh.
      * intros n' f' [<-|Hn'] Hf'.
        -- rewrite Hf in Hf'. injection Hf' as <-. fold i.
           rewrite Hout; [apply lookup_insert_eq |].
           unfold w1. rewrite ids_of_upd_cache.
           intros Hx. now apply Hni, list_elem_of_In.
        -- apply (Hin n' f' Hn'). unfold w1. rewrite types_upd_type_eq.
           exact Hf'.
      * intros j Hj. rewrite Hids in Hj. simpl in Hj.
        rewrite Hout.
        -- apply lookup_insert_ne. intros ->. apply Hj. now left.
        -- unfold w1. rewrite ids_of_upd_cache. intros Hj'. apply Hj. now right.
Qed.

Lemma fill_duplicate names : forall w acc,
  TypeObj._fieldsById (w_types w t) = Some acc ->
  Forall (fun n => is_Some (Js.own (TypeObj.fields (w_types w t)) n)) names ->
  ~ (NoDup (ids_of w t names)
     /\ forall i, In i (ids_of w t names) -> acc !! i = None) ->
  exists i w' m,
    fieldsById_fill t names w = (Throw (DuplicateId i t), w')
    /\ cache_filled t w w' m.
Proof.
  induction names as [|n rest IH]; intros w acc Hc Hall Hbad.
  - exfalso. apply Hbad. split; [constructor | intros i []].
  - inversion Hall as [|? ? [f Hf] Hrest]; subst.
    assert (Hids : ids_of w t (n :: rest)
                   = Field.id (w_fields w f) :: ids_of w t rest).
    { unfold ids_of. simpl. now rewrite Hf. }
    rewrite Hids in Hbad.
    set (i := Field.id (w_fields w f)) in *.
    destruct (acc !! i) as [g|] eqn:Hi.
    + exists i, w, acc. split.
      * simpl. monad_simpl. rewrite Hf, Hc. fold i. now rewrite Hi.
      * repeat split; auto. destruct (w_types w t); simpl in *. now subst.
    + set (w1 := upd_type t (TypeObj.set_fieldsById (Some (<[i := f]> acc))) w).
      destruct (IH w1 (<[i := f]> acc)) as (j & w' & m & Hrun & Hcf).
      * unfold w1. now rewrite types_upd_type_eq.
      * unfold w1. now rewrite types_upd_type_eq.
      * unfold w1. rewrite ids_of_upd_cache. intros [Hnd Hfresh].
        apply Hbad. split.
        -- constructor; auto. intros Hin. apply list_elem_of_In, Hfresh in Hin.
           rewrite lookup_insert_eq in Hin. discriminate.
        -- intros k [<-|Hk]; auto.
           specialize (Hfresh k Hk).
           destruct (decide (i = k)) as [<-|Hne].
           ++ rewrite lookup_insert_eq in Hfresh. discriminate.
           ++ now rewrite lookup_insert_ne in Hfresh.
      * exists j, w', m. split.
        -- simpl. monad_simpl. rewrite Hf, Hc. fold i. rewrite Hi.
           exact Hrun.
        -- destruct Hcf as (Ht & Hother & Hfs & Hh).
           unfold w1 in *. repeat split; auto.
           ++ rewrite Ht, types_upd_type_eq. reflexivity.
           ++ intros t' Hne. rewrite Hother by auto.
              now rewrite types_upd_type_ne.
Qed.

End FieldsById.

Section Views.

Variable t : tref.

Lemma fieldNames_run w :
  names_coherent w t ->
  exists w',
    fieldNames t w = (Ret (Js.keys (TypeObj.fields (w_types w t))), w')
    /\ names_cached t w w'.
Proof.
  intros Hc. unfold fieldNames. monad_simpl.
  destruct (TypeObj._fieldNames (w_types w t)) as [names|] eqn:E.
  - exists w. pose proof (Hc names E) as ->. split; auto.
    repeat split; auto.
    destruct (w_types w t); simpl in *. now subst.
  - eexists. split; [reflexivity |].
    split; [apply types_upd_type_eq |].
    split; [|split; reflexivity].
    intros t' Hne. now apply types_upd_type_ne.
Qed.

Lemma keys_all_own {A} (o : Obj A) :
  Forall (fun n => is_Some (Js.own o n)) (Js.keys o).
Proof.
  apply Forall_forall. intros n Hn. apply own_keys.
  first [exact Hn | now apply list_elem_of_In].
Qed.

(** Rebuilding the view by id from an empty cache. *)
Lemma fieldsById_rebuild w :
  TypeObj._fieldsById (w_types w t) = None ->
  names_coherent w t ->
  (NoDup (field_ids w t) ->
   exists m w',
     fieldsById t w = (Ret m, w')
     /\ w_fields w' = w_fields w /\ w_heap w' = w_heap w
     /\ TypeObj.fields (w_types w' t) = TypeObj.fields (w_types w t)
     /\ TypeObj._fieldsById (w_types w' t) = Some m
     /\ TypeObj._prototype (w_types w' t) = TypeObj._prototype (w_types w t)
     /\ (forall n f, Js.own (TypeObj.fields (w_types w t)) n = Some f ->
           m !! Field.id (w_fields w f) = Some f)
     /\ (forall i, ~ In i (field_ids w t) -> m !! i = None))
  /\ (~ NoDup (field_ids w t) ->
      exists i w', fieldsById t w = (Throw (DuplicateId i t), w')).
Proof.
  intros Hnone Hcoh.
  set (w1 := upd_type t (TypeObj.set_fieldsById (Some ∅)) w).
  assert (Hcoh1 : names_coherent w1 t).
  { intros names. unfold w1. rewrite types_upd_type_eq. apply Hcoh. }
  destruct (fieldNames_run w1 Hcoh1) as (w2 & Hn & Ht2 & Ho2 & Hf2 & Hh2).
  assert (Hfs : TypeObj.fields (w_types w2 t) = TypeObj.fields (w_types w t)).
  { rewrite Ht2. unfold w1. now rewrite types_upd_type_eq. }
  assert (Hids : forall names, ids_of w2 t names = ids_of w t names).
  { intros names. unfold ids_of. now rewrite Hfs, Hf2. }
  assert (Hc2 : TypeObj._fieldsById (w_types w2 t) = Some ∅).
  { rewrite Ht2. unfold w1. now rewrite types_upd_type_eq. }
  assert (Hkeys : Js.keys (TypeObj.fields (w_types w1 t))
                  = Js.keys (TypeObj.fields (w_types w t))).
  { unfold w1. now rewrite types_upd_type_eq. }
  assert (Hall : Forall (fun n => is_Some (Js.own (TypeObj.fields (w_types w2 t)) n))
                   (Js.keys (TypeObj.fields (w_types w t)))).
  { rewrite Hfs. apply keys_all_own. }
  assert (Hunf : fieldsById t w
    = bind (fieldsById_fill t (Js.keys (TypeObj.fields (w_types w t))))
        (fun _ => let* T' := getType t in
                  match TypeObj._fieldsById T' with
                  | Some byId => ret byId
                  | None => throw TypeError
                  end) w2).
  { unfold fieldsById. unfold bind at 1. unfold getType at 1. cbv beta iota.
    rewrite Hnone. unfold bind at 1. unfold modType at 1. cbv beta iota.
    fold w1. unfold bind at 1. rewrite Hn, Hkeys. reflexivity. }
  split.
  - intros Hnd.
    destruct (fill_ok t _ w2 ∅ Hc2 Hall) as (w' & m & Hrun & Hcf & Hin & Hout).
    + now rewrite Hids.
    + intros i _. apply lookup_empty.
    + destruct Hcf as (Ht' & Ho' & Hf' & Hh').
      exists m, w'. rewrite Hunf. unfold bind at 1. rewrite Hrun.
      monad_simpl. rewrite Ht'. simpl. repeat split.
      * now transitivity (w_fields w2).
      * now transitivity (w_heap w2).
      * exact Hfs.
      * rewrite Ht2. unfold w1. now rewrite types_upd_type_eq.
      * intros n f Hown. change (w_fields w) with (w_fields w1).
        rewrite <- Hf2. apply (Hin n f).
        -- apply own_keys. eauto.
        -- now rewrite Hfs.
      * intros i Hi. rewrite Hout; [apply lookup_empty |].
        now rewrite Hids.
  - intros Hdup.
    destruct (fill_duplicate t _ w2 ∅ Hc2 Hall) as (i & w' & m & Hrun & _).
    + rewrite Hids. intros [Hnd _]. now apply Hdup.
    + exists i, w'. rewrite Hunf. unfold bind at 1. now rewrite Hrun.
Qed.

End Views.

(** ** The heap *)

Lemma lookup_set_ne (h : Heap) a b k v : a <> b -> Js.set h a k v !! b = h !! b.
Proof.
  intros Hne. unfold Js.set. destruct (h !! a) as [[elts|ps pr]|]; auto.
  now apply list_lookup_insert_ne.
Qed.

Lemma lookup_set_eq (h : Heap) a k v ps pr :
  h !! a = Some (HRec ps pr) ->
  Js.set h a k v !! a = Some (HRec (Js.assign ps k v) pr).
Proof.
  intros H. unfold Js.set. rewrite H.
  apply list_lookup_insert_eq. now apply lookup_lt_Some in H.
Qed.

Lemma length_set (h : Heap) a k v : length (Js.set h a k v) = length h.
Proof.
  unfold Js.set. destruct (h !! a) as [[elts|ps pr]|]; auto. apply length_insert.
Qed.

(** A property read looks at the object and at older objects only. *)
Lemma get_from_agree fuel : forall (h h' : Heap) a k,
  (forall b, (b <= a)%nat -> h' !! b = h !! b) ->
  Js.get_from fuel h' a k = Js.get_from fuel h a k.
Proof.
  induction fuel as [|fuel IH]; intros h h' a k Hag; simpl; auto.
  rewrite Hag by lia.
  destruct (h !! a) as [[elts|ps pr]|]; auto.
  destruct (Js.own ps k); auto.
  destruct pr as [p|]; auto.
  destruct (p <? a)%nat eqn:E; auto.
  apply Nat.ltb_lt in E. apply IH. intros b Hb. apply Hag. lia.
Qed.

Lemma get_agree (h h' : Heap) a k :
  (forall b, (b <= a)%nat -> h' !! b = h !! b) ->
  Js.get h' a k = Js.get h a k.
Proof. apply get_from_agree. Qed.

Lemma get_own (h : Heap) a k ps pr v :
  h !! a = Some (HRec ps pr) -> Js.own ps k = Some v -> Js.get h a k = v.
Proof. intros H Ho. unfold Js.get. simpl. now rewrite H, Ho. Qed.

Lemma get_from_fuel (h : Heap) k : forall fuel1 fuel2 a,
  (a < fuel1)%nat -> (a < fuel2)%nat ->
  Js.get_from fuel1 h a k = Js.get_from fuel2 h a k.
Proof.
  induction fuel1 as [|fuel1 IH]; intros fuel2 a H1 H2; [lia |].
  destruct fuel2 as [|fuel2]; [lia |]. simpl.
  destruct (h !! a) as [[elts|ps pr]|]; auto.
  destruct (Js.own ps k); auto.
  destruct pr as [p|]; auto.
  destruct (p <? a)%nat eqn:E; auto.
  apply Nat.ltb_lt in E. apply IH; lia.
Qed.

Lemma get_proto (h : Heap) a k ps p :
  h !! a = Some (HRec ps (Some p)) -> Js.own ps k = None -> (p < a)%nat ->
  Js.get h a k = Js.get h p k.
Proof.
  intros H Ho Hlt. unfold Js.get. simpl Js.get_from at 1. rewrite H, Ho.
  apply Nat.ltb_lt in Hlt as Hlt'. rewrite Hlt'.
  apply get_from_fuel; lia.
Qed.

(** ** [create] *)

Lemma resolved_field_run t n w f :
  Js.own (TypeObj.fields (w_types w t)) n = Some f ->
  resolved_field t n w = (Ret (w_fields w f), w).
Proof.
  intros H. apply lookup_own in H. unfold resolved_field, resolve.
  monad_simpl. now rewrite H.
Qed.

Lemma same_schema_refl w : same_schema w w.
Proof. repeat split. Qed.

Lemma same_schema_set_heap h w : same_schema w (set_heap h w).
Proof. repeat split. Qed.

Lemma same_schema_trans w1 w2 w3 :
  same_schema w1 w2 -> same_schema w2 w3 -> same_schema w1 w3.
Proof.
  intros (A1 & A2 & A3 & A4) (B1 & B2 & B3 & B4).
  repeat split; congruence.
Qed.

(** The effect of a loop that assigns [value n] to [target[n]] for the names
    that have a value: both loops of [create] are of this shape. *)
Section AssignLoop.

Variable t : tref.
Variable target : addr.
Variable loop : list string -> M unit.
Variable value : World -> string -> option JsVal.

Hypothesis value_stable : forall w w' n,
  same_schema w w' ->
  (forall b, b <> target -> w_heap w' !! b = w_heap w !! b) ->
  value w' n = value w n.

Hypothesis loop_nil : forall w, loop [] w = (Ret tt, w).

Hypothesis loop_cons : forall n rest w,
  is_Some (Js.own (TypeObj.fields (w_types w t)) n) ->
  loop (n :: rest) w
  = loop rest match value w n with
              | Some v => set_heap (Js.set (w_heap w) target n v) w
              | None => w
              end.

Lemma assign_loop_run names : forall w ps pr,
  w_heap w !! target = Some (HRec ps pr) ->
  Forall (fun n => is_Some (Js.own (TypeObj.fields (w_types w t)) n)) names ->
  exists w' ps',
    loop names w = (Ret tt, w')
    /\ same_schema w w'
    /\ length (w_heap w') = length (w_heap w)
    /\ (forall b, b <> target -> w_heap w' !! b = w_heap w !! b)
    /\ w_heap w' !! target = Some (HRec ps' pr)
    /\ (forall k, In k names ->
          Js.own ps' k = match value w k with
                         | Some v => Some v
                         | None => Js.own ps k
                         end)
    /\ (forall k, ~ In k names -> Js.own ps' k = Js.own ps k).
Proof.
  induction names as [|n rest IH]; intros w ps pr Ht Hall.
  - exists w, ps. rewrite loop_nil. repeat split; auto. intros k [].
  - inversion Hall as [|? ? Hn Hrest]; subst.
    rewrite (loop_cons n rest w Hn).
    set (w1 := match value w n with
               | Some v => set_heap (Js.set (w_heap w) target n v) w
               | None => w
               end).
    set (ps1 := match value w n with
                | Some v => Js.assign ps n v
                | None => ps
                end).
    assert (Hs1 : same_schema w w1).
    { unfold w1. destruct (value w n); repeat split. }
    assert (Hl1 : length (w_heap w1) = length (w_heap w)).
    { unfold w1. destruct (value w n); auto. simpl. apply length_set. }
    assert (Ho1 : forall b, b <> target -> w_heap w1 !! b = w_heap w !! b).
    { intros b Hb. unfold w1. destruct (value w n); auto.
      simpl. now apply lookup_set_ne. }
    assert (Ht1 : w_heap w1 !! target = Some (HRec ps1 pr)).
    { unfold w1, ps1. destruct (value w n); auto.
      simpl. now apply lookup_set_eq. }
    assert (Hall1 : Forall (fun n => is_Some (Js.own (TypeObj.fields (w_types w1 t)) n)) rest).
    { destruct Hs1 as (-> & _). exact Hrest. }
    destruct (IH w1 ps1 pr Ht1 Hall1)
      as (w' & ps' & Hrun & Hs & Hl & Ho & Ht' & Hin & Hout).
    assert (Hhead : Js.own ps1 n = match value w n with
                                   | Some v => Some v
                                   | None => Js.own ps n
                                   end).
    { unfold ps1. destruct (value w n); auto. apply own_assign_eq. }
    assert (Hother : forall k, n <> k -> Js.own ps1 k = Js.own ps k).
    { intros k Hne. unfold ps1. destruct (value w n); auto.
      now apply own_assign_ne. }
    exists w', ps'. split; [exact Hrun |].
    split; [eapply same_schema_trans; eauto |].
    split; [congruence |].
    split; [intros b Hb; rewrite Ho by auto; now apply Ho1 |].
    split; [exact Ht' |].
    split.
    + intros k Hk.
      destruct (in_dec string_dec k rest) as [Hr|Hr].
      * rewrite (Hin k Hr), (value_stable w w1 k Hs1 Ho1).
        destruct (value w k) eqn:Hv; auto.
        destruct (decide (n = k)) as [<-|Hne]; [|now apply Hother].
        rewrite Hhead, Hv. reflexivity.
      * rewrite (Hout k Hr). destruct Hk as [<-|Hk]; [exact Hhead | contradiction].
    + intros k Hk. rewrite Hout by (intros ?; apply Hk; now right).
      apply Hother. intros ->. apply Hk. now left.
Qed.

End AssignLoop.

Lemma slot_value_stable t p target w w' n :
  (p < target)%nat ->
  same_schema w w' ->
  (forall b, b <> target -> w_heap w' !! b = w_heap w !! b) ->
  slot_value w' t p n = slot_value w t p n.
Proof.
  intros Hlt (Ht & Hf & _) Hh. unfold slot_value. rewrite Ht, Hf.
  destruct (Js.own _ n); auto.
  rewrite (get_agree (w_heap w) (w_heap w')); auto.
  intros b Hb. apply Hh. lia.
Qed.

Lemma template_value_stable t w w' n :
  same_schema w w' -> template_value w' t n = template_value w t n.
Proof. intros (Ht & Hf & _). unfold template_value. now rewrite Ht, Hf. Qed.

Lemma create_populate_cons t p msg n rest w :
  is_Some (Js.own (TypeObj.fields (w_types w t)) n) ->
  create_populate t p msg (n :: rest) w
  = create_populate t p msg rest
      match slot_value w t p n with
      | Some v => set_heap (Js.set (w_heap w) msg n v) w
      | None => w
      end.
Proof.
  intros [f Hf]. simpl. unfold bind at 1.
  rewrite (resolved_field_run t n w f Hf).
  unfold slot_value. rewrite Hf. unfold readProp, writeProp. monad_simpl.
  now destruct (materialized _ _).
Qed.

Lemma create_prototype_cons t proto n rest w :
  is_Some (Js.own (TypeObj.fields (w_types w t)) n) ->
  create_prototype t proto (n :: rest) w
  = create_prototype t proto rest
      match template_value w t n with
      | Some v => set_heap (Js.set (w_heap w) proto n v) w
      | None => w
      end.
Proof.
  intros [f Hf]. simpl. unfold bind at 1.
  rewrite (resolved_field_run t n w f Hf).
  unfold template_value. rewrite Hf. unfold writeProp. monad_simpl.
  now destruct (Js.isObject _).
Qed.

(** Appending to the heap keeps what was there. *)
Lemma lookup_alloc_old (h : Heap) o b : (b < length h)%nat -> (h ++ [o]) !! b = h !! b.
Proof. intros H. now apply lookup_app_l. Qed.

Lemma lookup_alloc_new (h : Heap) o : (h ++ [o]) !! length h = Some o.
Proof. rewrite lookup_app_r by lia. now rewrite Nat.sub_diag. Qed.

Lemma alloc_run o w :
  alloc o w = (Ret (length (w_heap w)), set_heap (w_heap w ++ [o]) w).
Proof. reflexivity. Qed.

Lemma slot_value_none t p w k :
  Js.own (TypeObj.fields (w_types w t)) k = None -> slot_value w t p k = None.
Proof. intros H. unfold slot_value. now rewrite H. Qed.

Lemma template_value_none t w k :
  Js.own (TypeObj.fields (w_types w t)) k = None -> template_value w t k = None.
Proof. intros H. unfold template_value. now rewrite H. Qed.

(** The loop that populates a new, empty instance at [msg]. *)
Lemma create_populate_run t p msg w pr :
  (p < msg)%nat ->
  w_heap w !! msg = Some (HRec [] pr) ->
  exists w' ps,
    create_populate t p msg (Js.keys (TypeObj.fields (w_types w t))) w = (Ret tt, w')
    /\ same_schema w w'
    /\ (forall b, b <> msg -> w_heap w' !! b = w_heap w !! b)
    /\ w_heap w' !! msg = Some (HRec ps pr)
    /\ forall k, Js.own ps k = slot_value w t p k.
Proof.
  intros Hlt Hm.
  destruct (assign_loop_run t msg (create_populate t p msg)
              (fun w n => slot_value w t p n)
              (fun w w' n => slot_value_stable t p msg w w' n Hlt)
              (fun w => eq_refl)
              (create_populate_cons t p msg)
              _ w [] pr Hm (keys_all_own _))
    as (w' & ps & Hrun & Hs & _ & Ho & Ht & Hin & Hout).
  exists w', ps. repeat split; auto; try apply Hs.
  intros k. destruct (Js.own (TypeObj.fields (w_types w t)) k) eqn:E.
  - rewrite Hin by (apply own_keys; eauto). now destruct (slot_value w t p k).
  - rewrite Hout, slot_value_none; auto.
    intros Hk. apply own_keys in Hk as [? Hk]. congruence.
Qed.

Lemma create_prototype_run t proto w :
  w_heap w !! proto = Some (HRec [] None) ->
  exists w' ps,
    create_prototype t proto (Js.keys (TypeObj.fields (w_types w t))) w = (Ret tt, w')
    /\ same_schema w w'
    /\ length (w_heap w') = length (w_heap w)
    /\ (forall b, b <> proto -> w_heap w' !! b = w_heap w !! b)
    /\ w_heap w' !! proto = Some (HRec ps None)
    /\ forall k, Js.own ps k = template_value w t k.
Proof.
  intros Hm.
  destruct (assign_loop_run t proto (create_prototype t proto)
              (fun w n => template_value w t n)
              (fun w w' n Hs _ => template_value_stable t w w' n Hs)
              (fun w => eq_refl)
              (create_prototype_cons t proto)
              _ w [] None Hm (keys_all_own _))
    as (w' & ps & Hrun & Hs & Hl & Ho & Ht & Hin & Hout).
  exists w', ps. repeat split; auto; try apply Hs.
  intros k. destruct (Js.own (TypeObj.fields (w_types w t)) k) eqn:E.
  - rewrite Hin by (apply own_keys; eauto). now destruct (template_value w t k).
  - rewrite Hout, template_value_none; auto.
    intros Hk. apply own_keys in Hk as [? Hk]. congruence.
Qed.

Lemma slot_value_ext t p w w' k :
  TypeObj.fields (w_types w' t) = TypeObj.fields (w_types w t) ->
  w_fields w' = w_fields w ->
  (forall b, (b <= p)%nat -> w_heap w' !! b = w_heap w !! b) ->
  slot_value w' t p k = slot_value w t p k.
Proof.
  intros Ht Hf Hh. unfold slot_value. rewrite Ht, Hf.
  destruct (Js.own _ k); auto.
  now rewrite (get_agree (w_heap w) (w_heap w')).
Qed.

Lemma template_value_ext t w w' k :
  TypeObj.fields (w_types w' t) = TypeObj.fields (w_types w t) ->
  w_fields w' = w_fields w ->
  template_value w' t k = template_value w t k.
Proof. intros Ht Hf. unfold template_value. now rewrite Ht, Hf. Qed.

(** [create] without a constructor returns, and [created] describes what. *)
Lemma create_run t p w :
  names_coherent w t ->
  (p < length (w_heap w))%nat ->
  exists m w', create t (Some p) None w = (Ret m, w') /\ created t p w m w'.
Proof.
  intros Hcoh Hp.
  destruct (fieldNames_run t w Hcoh) as (wa & Hn & Hta & Hoa & Hfa & Hha).
  set (names := Js.keys (TypeObj.fields (w_types w t))) in *.
  assert (Hfsa : TypeObj.fields (w_types wa t) = TypeObj.fields (w_types w t))
    by now rewrite Hta.
  assert (Hpa : TypeObj._prototype (w_types wa t) = TypeObj._prototype (w_types w t))
    by now rewrite Hta.
  unfold create, resolveExtends. monad_simpl. rewrite Hn. cbv beta iota.
  rewrite Hpa.
  destruct (TypeObj._prototype (w_types w t)) as [q|] eqn:Hq.
  - (* the prototype is cached *)
    cbv beta iota. rewrite alloc_run. cbv beta iota.
    set (m := length (w_heap wa)).
    set (we := set_heap (w_heap wa ++ [HRec [] (Some q)]) wa).
    assert (Hm : w_heap we !! m = Some (HRec [] (Some q))) by apply lookup_alloc_new.
    assert (Hpm : (p < m)%nat) by (unfold m; rewrite Hha; exact Hp).
    destruct (create_populate_run t p m we (Some q) Hpm Hm)
      as (w' & ps & Hrun & (Hst & Hsf & _) & Ho & Ht & Hps).
    change (Js.keys (TypeObj.fields (w_types we t))) with
      (Js.keys (TypeObj.fields (w_types wa t))) in Hrun.
    rewrite Hfsa in Hrun. fold names in Hrun. rewrite Hrun.
    exists m, w'. split; [reflexivity |].
    assert (Hold : forall b, (b < length (w_heap w))%nat ->
                     w_heap w' !! b = w_heap w !! b).
    { intros b Hb. rewrite Ho by (unfold m; rewrite Hha; lia).
      unfold we. simpl. rewrite lookup_alloc_old by (rewrite Hha; lia).
      now rewrite Hha. }
    unfold created. rewrite Hst, Hsf. simpl. rewrite Hq.
    split; [exact Hfa |]. split; [exact Hoa |]. split; [exact Hfsa |].
    split; [now rewrite Hta |]. split; [now rewrite Hta |].
    split; [exact Hold |]. split; [unfold m; rewrite Hha; lia |].
    exists q, ps. split; [now rewrite Hta |]. split; [exact Ht |].
    split; [| reflexivity].
    intros k. rewrite Hps. apply slot_value_ext; auto.
    + simpl. intros b Hb. rewrite lookup_alloc_old by (rewrite Hha; lia).
      now rewrite Hha.
  - (* the prototype is built *)
    cbv beta iota. rewrite alloc_run. cbv beta iota.
    set (tmpl := length (w_heap wa)).
    set (wb := set_heap (w_heap wa ++ [HRec [] None]) wa).
    assert (Htm : w_heap wb !! tmpl = Some (HRec [] None)) by apply lookup_alloc_new.
    destruct (create_prototype_run t tmpl wb Htm)
      as (wc & tps & Hrunp & (Hstc & Hsfc & _) & Hlc & Hoc & Htc & Htps).
    change (Js.keys (TypeObj.fields (w_types wb t))) with
      (Js.keys (TypeObj.fields (w_types wa t))) in Hrunp.
    rewrite Hfsa in Hrunp. fold names in Hrunp. rewrite Hrunp.
    cbv beta iota. rewrite alloc_run. cbv beta iota.
    set (wd := upd_type t (TypeObj.set_prototype (Some tmpl)) wc).
    set (m := length (w_heap wd)).
    set (we := set_heap (w_heap wd ++ [HRec [] (Some tmpl)]) wd).
    assert (Hlen : m = S tmpl).
    { unfold m, wd. simpl. rewrite Hlc. unfold wb. simpl.
      rewrite length_app. simpl. unfold tmpl. lia. }
    assert (Hm : w_heap we !! m = Some (HRec [] (Some tmpl))) by apply lookup_alloc_new.
    assert (Hpm : (p < m)%nat) by (rewrite Hlen; unfold tmpl; rewrite Hha; lia).
    destruct (create_populate_run t p m we (Some tmpl) Hpm Hm)
      as (w' & ps & Hrun & (Hst & Hsf & _) & Ho & Ht & Hps).
    assert (Htd : w_types wd t
                  = TypeObj.set_prototype (Some tmpl)
                      (TypeObj.set_fieldNames (Some names) (w_types w t))).
    { unfold wd. rewrite types_upd_type_eq, Hstc. unfold wb. simpl.
      now rewrite Hta. }
    change (w_types we) with (w_types wd) in Hrun, Hst.
    rewrite Htd in Hrun. simpl in Hrun. fold names in Hrun. rewrite Hrun.
    exists m, w'. split; [reflexivity |].
    assert (Hold : forall b, (b < S tmpl)%nat ->
                     w_heap w' !! b = w_heap wc !! b).
    { intros b Hb. rewrite Ho by lia.
      unfold we. simpl. now rewrite lookup_alloc_old by (rewrite Hlc; unfold wb; simpl; rewrite length_app; simpl; fold tmpl; lia). }
    assert (Hfe : w_fields we = w_fields w).
    { change (w_fields wc = w_fields w). rewrite Hsfc. exact Hfa. }
    unfold created. rewrite Hst, Hsf, Htd, Hq.
    split; [exact Hfe |].
    split; [intros t' Hne; unfold wd; rewrite types_upd_type_ne by auto;
            rewrite Hstc; now apply Hoa |].
    split; [reflexivity |]. split; [reflexivity |]. split; [reflexivity |].
    split.
    { intros b Hb. rewrite Hold by (unfold tmpl; rewrite Hha; lia).
      rewrite Hoc by (unfold tmpl; rewrite Hha; lia).
      unfold wb. simpl. rewrite lookup_alloc_old by (rewrite Hha; lia).
      now rewrite Hha. }
    split; [rewrite Hlen; unfold tmpl; rewrite Hha; lia |].
    exists tmpl, ps. split; [reflexivity |]. split; [exact Ht |].
    split.
    + intros k. rewrite Hps. apply slot_value_ext.
      * change (w_types we) with (w_types wd). rewrite Htd. reflexivity.
      * exact Hfe.
      * intros b Hb. unfold we. simpl.
        rewrite lookup_alloc_old by (change (length (w_heap wc)) with m; lia).
        rewrite Hoc by (unfold tmpl; rewrite Hha; lia).
        unfold wb. simpl. rewrite lookup_alloc_old by (rewrite Hha; lia).
        now rewrite Hha.
    + split; [lia |]. exists tps. split.
      * rewrite Hold by lia. exact Htc.
      * intros k. rewrite Htps. apply template_value_ext; auto.
Qed.

Lemma strict_eq_spec a b : Js.strict_eq a b = true <-> a = b.
Proof.
  destruct a, b; simpl; split; intros H; try discriminate; try reflexivity;
    try (injection H as H).
  - f_equal. now apply eqb_prop.
  - subst. apply eqb_reflx.
  - f_equal. now apply Z.eqb_eq.
  - subst. apply Z.eqb_refl.
  - f_equal. now apply String.eqb_eq.
  - subst. apply String.eqb_refl.
  - f_equal. now apply Nat.eqb_eq.
  - subst. apply Nat.eqb_refl.
  - f_equal. now apply String.eqb_eq.
  - subst. apply String.eqb_refl.
Qed.



Lemma create_none t w :
  create t None None w
  = create t (Some (length (w_heap w))) None
      (set_heap (w_heap w ++ [HRec [] None]) w).
Proof. reflexivity. Qed.

Lemma get_empty_literal (h : Heap) k :
  Js.get (h ++ [HRec [] None]) (length h) k
  = if Js.inherited k then VBuiltin k else VUndef.
Proof. unfold Js.get. simpl. now rewrite lookup_alloc_new. Qed.

(** [create] without a constructor, with or without a properties object. *)
Lemma create_run_any t properties w :
  names_coherent w t ->
  (forall p, properties = Some p -> (p < length (w_heap w))%nat) ->
  exists m w' tmpl ps,
    create t properties None w = (Ret m, w')
    /\ w_fields w' = w_fields w
    /\ TypeObj.fields (w_types w' t) = TypeObj.fields (w_types w t)
    /\ TypeObj._fieldsById (w_types w' t) = TypeObj._fieldsById (w_types w t)
    /\ names_coherent w' t
    /\ (forall b, (b < length (w_heap w))%nat -> w_heap w' !! b = w_heap w !! b)
    /\ (length (w_heap w) <= m)%nat
    /\ w_heap w' !! m = Some (HRec ps (Some tmpl))
    /\ (forall k f,
          Js.own (TypeObj.fields (w_types w t)) k = Some f ->
          let field := w_fields w f in
          let value := Js.or (supplied w properties k) (Field.defaultValue field) in
          Js.own ps k = if materialized field value then Some value else None)
    /\ match TypeObj._prototype (w_types w t) with
       | Some q => tmpl = q
       | None =>
           (tmpl < m)%nat
           /\ exists tps,
                w_heap w' !! tmpl = Some (HRec tps None)
                /\ forall k, Js.own tps k = template_value w t k
       end.
Proof.
  intros Hcoh Hvalid.
  destruct properties as [p|].
  - destruct (create_run t p w Hcoh (Hvalid p eq_refl))
      as (m & w' & Hrun & Hf & _ & Hfs & Hby & Hn & Hold & Hm
            & tmpl & ps & _ & Hmsg & Hps & Htmpl).
    exists m, w', tmpl, ps. repeat split; auto.
    + intros names. rewrite Hn, Hfs. congruence.
    + intros k f Hk. rewrite Hps. unfold slot_value. now rewrite Hk.
  - set (w0 := set_heap (w_heap w ++ [HRec [] None]) w).
    assert (Hcoh0 : names_coherent w0 t) by exact Hcoh.
    assert (Hp0 : (length (w_heap w) < length (w_heap w0))%nat).
    { unfold w0. simpl. rewrite length_app. simpl. lia. }
    destruct (create_run t (length (w_heap w)) w0 Hcoh0 Hp0)
      as (m & w' & Hrun & Hf & _ & Hfs & Hby & Hn & Hold & Hm
            & tmpl & ps & _ & Hmsg & Hps & Htmpl).
    exists m, w', tmpl, ps. rewrite create_none. fold w0.
    repeat split; auto.
    + intros names. rewrite Hn, Hfs. congruence.
    + intros b Hb. rewrite Hold by lia. now apply lookup_alloc_old.
    + lia.
    + intros k f Hk. rewrite Hps. unfold slot_value.
      change (w_types w0) with (w_types w). rewrite Hk.
      unfold supplied. unfold w0 at 1. simpl w_heap.
      now rewrite get_empty_literal.
Qed.






(** ** Coherence of the caches *)

Section Coherence.

Variable NA NR : tref -> Child -> M tref.

Lemma type_after_add t f w r w' :
  add NA NR t (CField f) w = (Ret r, w') ->
  TypeObj._fieldsById (w_types w' t) = None
  /\ TypeObj._fieldNames (w_types w' t) = None
  /\ Js.own (TypeObj.fields (w_types w' t)) (Field.name (w_fields w' f)) = Some f
  /\ (forall g, Field.id (w_fields w' g) = Field.id (w_fields w g))
  /\ (forall g, Field.name (w_fields w' g) = Field.name (w_fields w g))
  /\ (forall k g, Js.own (TypeObj.fields (w_types w t)) k = Some g ->
        Js.own (TypeObj.fields (w_types w' t)) k = Some g).
Proof.
  intros Hadd. apply add_field_inv in Hadd as (Hfree & Hpar & -> & ->).
  assert (Hid : forall w0 g h,
    (forall F, Field.id (h F) = Field.id F) ->
    forall g', Field.id (w_fields (upd_field g h w0) g') = Field.id (w_fields w0 g')).
  { intros w0 g h Hh g'. destruct (decide (g = g')) as [->|Hne].
    - now rewrite fields_upd_field_eq.
    - now rewrite fields_upd_field_ne. }
  assert (Hnd : forall g, Field.name (w_fields (detached f w) g)
                          = Field.name (w_fields w g)).
  { intros g. unfold detached. destruct (Field.parent _); auto.
    apply name_removed. }
  split; [unfold added; simpl; now rewrite !fn_lookup_insert |].
  split; [unfold added; simpl; now rewrite !fn_lookup_insert |].
  split.
  { rewrite name_added, Hnd, own_fields_added_eq. now destruct (decide _). }
  split.
  { intros g. unfold added. rewrite !Hid by reflexivity.
    change (Field.id (w_fields (detached f w) g) = Field.id (w_fields w g)).
    unfold detached. destruct (Field.parent _); auto.
    unfold removed. now rewrite Hid. }
  split; [intros g; now rewrite name_added |].
  intros k g Hg. rewrite own_fields_added_eq.
  destruct (decide _) as [<-|Hne]; [congruence |].
  unfold detached. destruct (Field.parent (w_fields w f)) as [p|] eqn:Hp; auto.
  destruct (decide (p = t)) as [->|Hpt].
  - rewrite (Hpar t eq_refl) in Hfree. discriminate.
  - now rewrite types_removed_ne.
Qed.

(** C7. A successful [add] of a field leaves both caches of the type empty,
    so that the next reads rebuild them from the current fields: the names
    read are the current keys and include the new field; the view by id,
    when the current ids are pairwise distinct, is returned and maps the id
    of the new field to it, and it throws only when two current fields
    share an id.  A successful [remove] of a field leaves both caches empty
    and the name of the field is no longer among the names read. *)
Theorem caches_follow_add_and_remove (w : World) (t : tref) (f : fref) :
  (forall r w',
     add NA NR t (CField f) w = (Ret r, w') ->
     TypeObj._fieldsById (w_types w' t) = None
     /\ TypeObj._fieldNames (w_types w' t) = None
     /\ (exists w'',
           fieldNames t w' = (Ret (Js.keys (TypeObj.fields (w_types w' t))), w'')
           /\ In (Field.name (w_fields w' f)) (Js.keys (TypeObj.fields (w_types w' t))))
     /\ (NoDup (field_ids w' t) ->
         exists m w'',
           fieldsById t w' = (Ret m, w'')
           /\ m !! Field.id (w_fields w' f) = Some f)
     /\ (forall e w'', fieldsById t w' = (Throw e, w'') ->
           ~ NoDup (field_ids w' t)))
  /\ (forall r w',
        remove NR t (CField f) w = (Ret r, w') ->
        TypeObj._fieldsById (w_types w' t) = None
        /\ TypeObj._fieldNames (w_types w' t) = None
        /\ exists names w'',
             fieldNames t w' = (Ret names, w'')
             /\ ~ In (Field.name (w_fields w' f)) names).
Proof.
  split.
  - intros r w' Hadd.
    destruct (type_after_add t f w r w' Hadd) as (Hby & Hn & Hown & _).
    assert (Hcoh : names_coherent w' t).
    { intros names. rewrite Hn. discriminate. }
    split; [exact Hby |]. split; [exact Hn |].
    destruct (fieldsById_rebuild t w' Hby Hcoh) as [Hok Hdup].
    split; [|split].
    + destruct (fieldNames_run t w' Hcoh) as (w'' & Hrun & _).
      exists w''. split; [exact Hrun |]. apply own_keys. eauto.
    + intros Hnd. destruct (Hok Hnd) as (m & w'' & Hrun & _ & _ & _ & _ & _ & Hin & _).
      exists m, w''. split; [exact Hrun |]. exact (Hin _ f Hown).
    + intros e w'' Hthrow Hnd.
      destruct (Hok Hnd) as (m & w3 & Hrun & _). congruence.
  - intros r w' Hrem.
    apply remove_field_inv in Hrem as (Hown & -> & ->).
    assert (Hby : TypeObj._fieldsById (w_types (removed t f w) t) = None).
    { unfold removed. simpl. now rewrite !fn_lookup_insert. }
    assert (Hn : TypeObj._fieldNames (w_types (removed t f w) t) = None).
    { unfold removed. simpl. now rewrite !fn_lookup_insert. }
    split; [exact Hby |]. split; [exact Hn |].
    assert (Hcoh : names_coherent (removed t f w) t).
    { intros names. rewrite Hn. discriminate. }
    destruct (fieldNames_run t _ Hcoh) as (w'' & Hrun & _).
    eexists. exists w''. split; [exact Hrun |].
    rewrite name_removed. intros Hin. apply own_keys in Hin as [g Hg].
    rewrite own_fields_removed_eq in Hg.
    destruct (decide _); [discriminate | congruence].
Qed.

End Coherence.

Lemma caches_follow_add_and_remove_witness :
  let w := after (add no_namespace no_namespace 0%nat (CField 0%nat)) sample_world in
  let w1 := after (add no_namespace no_namespace 0%nat (CField 1%nat)) w in
  let w2 := after (remove no_namespace 0%nat (CField 0%nat)) w1 in
  (exists m w'', fieldsById 0%nat w1 = (Ret m, w'') /\ m !! 2 = Some 1%nat)
  /\ (exists names w'', fieldNames 0%nat w2 = (Ret names, w'') /\ ~ In "id" names).
Proof.
  intros w w1 w2.
  destruct (caches_follow_add_and_remove no_namespace no_namespace w 0%nat 1%nat)
    as [Hadd _].
  destruct (caches_follow_add_and_remove no_namespace no_namespace w1 0%nat 0%nat)
    as [_ Hrem].
  split.
  - destruct (Hadd 0%nat w1 eq_refl) as (_ & _ & _ & Hok & _).
    apply Hok.
    apply (bool_decide_unpack (NoDup (field_ids w1 0%nat))). vm_compute. exact I.
  - destruct (Hrem 0%nat w2 eq_refl) as (_ & _ & Hnames). exact Hnames.
Defined.

(** ** [encode] *)

Lemma Field_encode_frame f v writer w :
  exists o, Field_encode f v writer w = (o, w)
            /\ forall e, o = Throw e -> e = TypeError.
Proof.
  unfold Field_encode. monad_simpl.
  assert (Hs : forall field v writer e,
            encode_scalar field v writer = Throw e -> e = TypeError).
  { intros field v0 wr e. unfold encode_scalar.
    destruct (Field.type field), v0; intros H; congruence. }
  assert (He : forall field elts writer e,
            encode_elements field elts writer = Throw e -> e = TypeError).
  { intros field elts. induction elts as [|x elts IH]; intros wr e; simpl.
    - discriminate.
    - destruct (encode_scalar field x wr) eqn:E.
      + apply IH.
      + intros [= <-]. eapply Hs; eauto. }
  destruct (Field.repeated (w_fields w f)).
  - destruct v; try (eexists; split; [reflexivity | congruence]).
    destruct (w_heap w !! a) as [[elts|ps pr]|];
      try (eexists; split; [reflexivity | congruence]).
    eexists; split; [reflexivity |]. intros e. apply He.
  - eexists; split; [reflexivity |]. intros e. apply Hs.
Qed.

Section Encode.

Variable t : tref.
Variable message : addr.

(** The loop of [encode] calls [Field.encode] for the names that pass the
    test, in their order. *)
Lemma encode_fields_each (w : World) names : forall writer w',
  TypeObj.fields (w_types w' t) = TypeObj.fields (w_types w t) ->
  w_fields w' = w_fields w -> w_heap w' = w_heap w ->
  Forall (fun n => is_Some (Js.own (TypeObj.fields (w_types w t)) n)) names ->
  encode_fields t message writer names w'
  = encode_each w t message (List.filter (encoded w t message) names) writer w'.
Proof.
  induction names as [|n rest IH]; intros writer w' Ht Hfl Hh Hall; auto.
  inversion Hall as [|? ? [f Hf] Hrest]; subst.
  simpl. unfold encoded at 1. rewrite Hf.
  unfold readProp, resolve. monad_simpl.
  apply lookup_own in Hf as Hl. rewrite Ht, Hl. monad_simpl.
  rewrite ?Hh, ?Hfl.
  destruct (Field.required (w_fields w f)
            || negb (Js.loose_eq (w_heap w) (Js.get (w_heap w) message n)
                       (Field.defaultValue (w_fields w f)))).
  - simpl. rewrite Hf. monad_simpl.
    destruct (Field_encode_frame f (Js.get (w_heap w) message n) writer w')
      as (o & -> & _).
    destruct o; auto.
  - now apply IH.
Qed.


(** [encode] is the sequence of the calls of [Field.encode] for the names
    that pass the test. *)
Lemma encode_run (writer : option Writer.t) (w : World) :
  names_coherent w t ->
  let names := Js.keys (TypeObj.fields (w_types w t)) in
  exists w',
    fieldNames t w = (Ret names, w')
    /\ encode t message writer w
       = encode_each w t message (List.filter (encoded w t message) names)
           (default Writer.new writer) w'.
Proof.
  intros Hcoh names.
  destruct (fieldNames_run t w Hcoh) as (w' & Hn & Ht & Ho & Hf & Hh).
  exists w'. split; [exact Hn |].
  unfold encode, resolveExtends. monad_simpl. rewrite Hn.
  apply encode_fields_each; auto using keys_all_own.
  now rewrite Ht.
Qed.


End Encode.


(** ** The reader *)

Lemma varint_size bs v n :
  Reader.varint bs = Some (v, n) -> (1 <= n <= length bs)%nat.
Proof.
  revert v n. induction bs as [|b bs IH]; intros v n; simpl; [discriminate |].
  destruct (b <? 128).
  - intros [= <- <-]. lia.
  - destruct (Reader.varint bs) as [[v' n']|]; [|discriminate].
    intros [= <- <-]. specialize (IH v' n' eq_refl). lia.
Qed.

(** A varint is a run of bytes with the high bit set, closed by one
    without. *)
Lemma varint_shape bs v n :
  Reader.varint bs = Some (v, n) ->
  (forall i b, (i < n - 1)%nat -> bs !! i = Some b -> 128 <= b)
  /\ exists b, bs !! (n - 1)%nat = Some b /\ b < 128.
Proof.
  revert v n. induction bs as [|b bs IH]; intros v n; simpl; [discriminate |].
  destruct (b <? 128) eqn:E.
  - intros [= <- <-]. split; [intros i c Hi; lia |].
    exists b. split; auto. now apply Z.ltb_lt.
  - destruct (Reader.varint bs) as [[v' n']|] eqn:Ev; [|discriminate].
    intros [= <- <-]. destruct (IH v' n' eq_refl) as [Hhigh (c & Hc & Hlt)].
    apply varint_size in Ev. apply Z.ltb_ge in E.
    split.
    + intros [|i] c' Hi; simpl.
      * intros [= <-]. lia.
      * apply Hhigh. lia.
    + exists c. split; auto.
      replace (S n' - 1)%nat with (S (n' - 1)) by lia. exact Hc.
Qed.

Lemma uint32_inv r v r' :
  Reader.uint32 r = Ret (v, r') ->
  exists x n,
    Reader.varint (drop (Reader.pos r) (Reader.buf r)) = Some (x, n)
    /\ v = x mod 2 ^ 32 /\ r' = Reader.advance n r /\ (1 <= n)%nat.
Proof.
  unfold Reader.uint32.
  destruct (Reader.varint _) as [[x n]|] eqn:E; [|discriminate].
  intros [= <- <-]. exists x, n. repeat split; auto.
  now apply varint_size in E.
Qed.

Lemma uint32_throw r e : Reader.uint32 r = Throw e -> e = BufferUnderrun.
Proof.
  unfold Reader.uint32. destruct (Reader.varint _) as [[x n]|]; congruence.
Qed.

Lemma tag_inv r tg r' :
  Reader.tag r = Ret (tg, r') ->
  exists n, r' = Reader.advance n r /\ (1 <= n)%nat
            /\ 0 <= Reader.wireType tg < 8.
Proof.
  unfold Reader.tag. destruct (Reader.uint32 r) as [[v r1]|] eqn:E; [|discriminate].
  intros [= <- <-]. apply uint32_inv in E as (x & n & _ & _ & -> & Hn).
  exists n. repeat split; auto; simpl.
  - apply Z.land_nonneg. lia.
  - change 7 with (Z.ones 3). rewrite Z.land_ones by lia.
    apply Z.mod_pos_bound. lia.
Qed.

Lemma tag_throw r e : Reader.tag r = Throw e -> e = BufferUnderrun.
Proof.
  unfold Reader.tag. destruct (Reader.uint32 r) as [[v r1]|] eqn:E.
  - discriminate.
  - intros [= <-]. eapply uint32_throw; eauto.
Qed.

Lemma bytes_inv r run r' :
  Reader.bytes r = Ret (run, r') ->
  (Reader.pos r <= Reader.pos r')%nat /\ Reader.buf r' = Reader.buf r.
Proof.
  unfold Reader.bytes. destruct (Reader.uint32 r) as [[v r1]|] eqn:E; [|discriminate].
  apply uint32_inv in E as (x & n & _ & _ & -> & Hn).
  destruct (_ <=? _)%nat; [|discriminate].
  intros [= <- <-]. simpl. split; [lia | reflexivity].
Qed.

Lemma bytes_throw r e : Reader.bytes r = Throw e -> e = BufferUnderrun.
Proof.
  unfold Reader.bytes. destruct (Reader.uint32 r) as [[v r1]|] eqn:E.
  - destruct (_ <=? _)%nat; congruence.
  - intros [= <-]. eapply uint32_throw; eauto.
Qed.

Lemma skip_varint_throw r e : Reader.skip_varint r = Throw e -> e = BufferUnderrun.
Proof.
  unfold Reader.skip_varint. destruct (Reader.varint _) as [[x n]|]; congruence.
Qed.

(** ** [decode] *)

(** [Field.decode] moves the cursor forward, if at all, and raises nothing
    but what the reader raises. *)
Lemma Field_decode_inv f r wt w :
  match Field_decode f r wt w with
  | (Ret (_, r'), _) =>
      (Reader.pos r <= Reader.pos r')%nat /\ Reader.buf r' = Reader.buf r
  | (Throw e, _) => e = BufferUnderrun
  end.
Proof.
  unfold Field_decode. monad_simpl.
  destruct (Field.type (w_fields w f)).
  - destruct (Field.repeated (w_fields w f) && (wt =? 2)).
    + destruct (Reader.bytes r) as [[run r']|e] eqn:E.
      * apply bytes_inv in E.
        destruct (Reader.varints _ _); simpl; auto.
      * eapply bytes_throw; eauto.
    + destruct (Reader.uint32 r) as [[v r']|e] eqn:E.
      * apply uint32_inv in E as (x & n & _ & _ & -> & _). simpl.
        split; [lia | reflexivity].
      * eapply uint32_throw; eauto.
  - destruct (Reader.bytes r) as [[run r']|e] eqn:E.
    + now apply bytes_inv in E.
    + eapply bytes_throw; eauto.
Qed.

Lemma push_inv array values w :
  match push array values w with
  | (Ret _, _) => True
  | (Throw e, _) => e = TypeError
  end.
Proof.
  unfold push. monad_simpl.
  destruct array; auto.
  destruct (w_heap w !! a) as [[elts|ps pr]|]; auto.
Qed.

(** One iteration of the loop of [decode] moves the cursor forward by at
    least the byte of the tag; what it raises is a buffer underrun, a type
    error or an unsupported wire type. *)
Lemma decode_step_inv t message byId r w :
  match decode_step t message byId r w with
  | (Ret r', _) =>
      (Reader.pos r < Reader.pos r')%nat /\ Reader.buf r' = Reader.buf r
  | (Throw e, _) =>
      e = BufferUnderrun \/ e = TypeError
      \/ exists id wireType, e = UnsupportedWireType id wireType t
  end.
Proof.
  unfold decode_step. unfold bind at 1. unfold lift at 1.
  destruct (Reader.tag r) as [[tg r1]|e] eqn:Etag;
    [| left; eapply tag_throw; eauto].
  apply tag_inv in Etag as (n & -> & Hn & _).
  destruct (byId !! Reader.id tg) as [f|].
  - unfold bind at 1. unfold getField at 1.
    unfold bind at 1.
    pose proof (Field_decode_inv f (Reader.advance n r) (Reader.wireType tg) w) as Hd.
    destruct (Field_decode f (Reader.advance n r) (Reader.wireType tg) w)
      as [[[value r2]|e] w2]; [| now left].
    destruct Hd as [Hpos Hbuf]. simpl in Hpos, Hbuf.
    unfold bind at 1.
    match goal with
    | |- context [(if Field.repeated ?F then ?a else ?b) w2] =>
        set (store := (if Field.repeated F then a else b) w2)
    end.
    assert (Hstore : match store with
                     | (Ret _, _) => True
                     | (Throw e, _) => e = TypeError
                     end).
    { unfold store. destruct (Field.repeated (w_fields w f)).
      - unfold readProp, writeProp, alloc. monad_simpl.
        destruct (Js.truthy _); monad_simpl;
          match goal with
          | |- context [if ?c then _ else _] => destruct c
          end; apply push_inv.
      - unfold writeProp. monad_simpl. exact I. }
    destruct store as [[u|e] w3].
    + simpl. split; [lia | exact Hbuf].
    + right. now left.
  - assert (H0 : forall r1 : Reader.t,
              match lift (Reader.skip_varint r1) w with
              | (Ret r', _) =>
                  (Reader.pos r1 <= Reader.pos r')%nat
                  /\ Reader.buf r' = Reader.buf r1
              | (Throw e, _) => e = BufferUnderrun
              end).
    { intros r1. unfold lift, Reader.skip_varint.
      destruct (Reader.varint _) as [[x k]|]; auto.
      simpl. split; [lia | reflexivity]. }
    assert (H2 : forall r1 : Reader.t,
              match (let* '(n, reader) := lift (Reader.uint32 r1) in
                     ret (Reader.skip n reader)) w with
              | (Ret r', _) =>
                  (Reader.pos r1 <= Reader.pos r')%nat
                  /\ Reader.buf r' = Reader.buf r1
              | (Throw e, _) => e = BufferUnderrun
              end).
    { intros r1. unfold bind, lift.
      destruct (Reader.uint32 r1) as [[x r2]|e] eqn:E;
        [| eapply uint32_throw; eauto].
      apply uint32_inv in E as (y & k & _ & _ & -> & _).
      simpl. split; [lia | reflexivity]. }
    specialize (H0 (Reader.advance n r)). specialize (H2 (Reader.advance n r)).
    destruct (Reader.wireType tg) as [|p|p];
      [ | do 3 (try destruct p as [p|p|]) | ];
      try (right; right; eexists; eexists; reflexivity);
      try (unfold ret; simpl; split; [lia | reflexivity]).
    + destruct (lift _ w) as [[r'|e] w']; [simpl in H0; split; [lia | tauto] | now left].
    + match goal with
      | |- context [bind ?c ?k w] => destruct (bind c k w) as [[r'|e] w']
      end; [simpl in H2; split; [lia | tauto] | now left].
Qed.

(** The loop of [decode] ends, within the iterations [decode] grants it, with
    the cursor at or behind the limit. *)
Lemma decode_loop_inv t message byId limit fuel : forall r w,
  (Z.to_nat (limit - Z.of_nat (Reader.pos r)) <= fuel)%nat ->
  match decode_loop fuel t message byId limit r w with
  | (Ret r', _) =>
      limit <= Z.of_nat (Reader.pos r') /\ Reader.buf r' = Reader.buf r
  | (Throw e, _) =>
      e = BufferUnderrun \/ e = TypeError
      \/ exists id wireType, e = UnsupportedWireType id wireType t
  end.
Proof.
  induction fuel as [|fuel IH]; intros r w Hfuel.
  - simpl. destruct (Z.of_nat (Reader.pos r) <? limit) eqn:E.
    + apply Z.ltb_lt in E. lia.
    + apply Z.ltb_ge in E. simpl. auto.
  - simpl. destruct (Z.of_nat (Reader.pos r) <? limit) eqn:E.
    + unfold bind.
      pose proof (decode_step_inv t message byId r w) as Hstep.
      destruct (decode_step t message byId r w) as [[r1|e] w1]; [|exact Hstep].
      destruct Hstep as [Hpos Hbuf].
      specialize (IH r1 w1).
      destruct (decode_loop fuel t message byId limit r1 w1) as [[r'|e] w'].
      * destruct IH as [Hl Hb]; [lia |]. split; [exact Hl | congruence].
      * apply IH. lia.
    + apply Z.ltb_ge in E. simpl. auto.
Qed.

Lemma create_prototype_throws t proto names : forall w e w',
  create_prototype t proto names w = (Throw e, w') -> e = TypeError.
Proof.
  induction names as [|n rest IH]; intros w e w'; simpl; [discriminate |].
  unfold bind at 1. unfold resolved_field, resolve. monad_simpl.
  destruct (Js.lookup _ n); try (now intros [= <- _]).
  unfold writeProp. monad_simpl.
  destruct (negb _); apply IH.
Qed.

Lemma create_populate_throws t p msg names : forall w e w',
  create_populate t p msg names w = (Throw e, w') -> e = TypeError.
Proof.
  induction names as [|n rest IH]; intros w e w'; simpl; [discriminate |].
  unfold bind at 1. unfold resolved_field, resolve. monad_simpl.
  destruct (Js.lookup _ n); try (now intros [= <- _]).
  unfold readProp, writeProp. monad_simpl.
  destruct (materialized _ _); apply IH.
Qed.

Lemma create_throws t properties w e w' :
  create t properties None w = (Throw e, w') -> e = TypeError.
Proof.
  assert (Hn : forall w, exists names w1, fieldNames t w = (Ret names, w1)).
  { intros w0. unfold fieldNames. monad_simpl.
    destruct (TypeObj._fieldNames _); eauto. }
  assert (Hsome : forall p w, create t (Some p) None w = (Throw e, w') -> e = TypeError).
  { intros p w0. unfold create, resolveExtends. monad_simpl.
    destruct (Hn w0) as (names & w1 & ->). cbv beta iota.
    destruct (TypeObj._prototype (w_types w1 t)) as [q|].
    - cbv beta iota. rewrite alloc_run. cbv beta iota.
      destruct (create_populate t p _ names _) as [[u|e1] w2] eqn:E;
        [discriminate |].
      intros [= <- _]. eapply create_populate_throws; eauto.
    - cbv beta iota. rewrite alloc_run. cbv beta iota.
      destruct (create_prototype t _ names _) as [[u|e1] w2] eqn:E.
      + cbv beta iota. rewrite alloc_run. cbv beta iota.
        destruct (create_populate t p _ names _) as [[u'|e1] w3] eqn:E';
          [discriminate |].
        intros [= <- _]. eapply create_populate_throws; eauto.
      + intros [= <- _]. eapply create_prototype_throws; eauto. }
  destruct properties as [p|].
  - apply Hsome.
  - rewrite create_none. apply Hsome.
Qed.

Lemma fieldsById_fill_throws t names : forall w e w',
  fieldsById_fill t names w = (Throw e, w') ->
  e = TypeError \/ exists i, e = DuplicateId i t.
Proof.
  induction names as [|n rest IH]; intros w e w'; simpl; [discriminate |].
  monad_simpl.
  destruct (Js.own _ n) as [f|]; [| intros [= <- _]; now left].
  destruct (TypeObj._fieldsById _) as [byId|]; [| intros [= <- _]; now left].
  destruct (byId !! _); [intros [= <- _]; right; eauto |].
  apply IH.
Qed.

Lemma fieldsById_throws t w e w' :
  fieldsById t w = (Throw e, w') ->
  e = TypeError \/ exists i, e = DuplicateId i t.
Proof.
  unfold fieldsById. monad_simpl.
  destruct (TypeObj._fieldsById (w_types w t)); [discriminate |].
  unfold fieldNames. monad_simpl.
  match goal with
  | |- context [match ?o with Some names => _ | None => _ end] => destruct o
  end; cbv beta iota;
  match goal with
  | |- context [fieldsById_fill t ?ns ?w0] =>
      destruct (fieldsById_fill t ns w0) as [[u|e1] w1] eqn:E
  end;
  try (intros [= <- _]; eapply fieldsById_fill_throws; eauto);
  destruct (TypeObj._fieldsById _); try discriminate;
  intros [= <- _]; now left.
Qed.



(** C4. Whatever [decode] returns, it returns with the cursor exactly at the
    limit; when the loop ends with the cursor elsewhere, [decode] raises the
    invalid-wire-format error for that position and limit and returns no
    instance; and the loop does end: without a constructor of the caller's,
    [decode] never runs out of the iterations it grants its loop. *)
Theorem decode_ends_at_limit (t : tref) (reader : Reader.t)
    (length : option Z) (w : World) :
  let limit := limit_of reader length in
  let fuel := Z.to_nat (limit - Z.of_nat (Reader.pos reader)) in
  let w0 := set_heap (w_heap w ++ [HRec [] None]) w in
  (forall constructor m r' w',
     decode t reader constructor length w = (Ret (m, r'), w') ->
     Z.of_nat (Reader.pos r') = limit)
  /\ (forall constructor m w1 byId w2 r' w',
        create t (Some (List.length (w_heap w))) constructor w0 = (Ret m, w1) ->
        fieldsById t w1 = (Ret byId, w2) ->
        decode_loop fuel t m byId limit reader w2 = (Ret r', w') ->
        Z.of_nat (Reader.pos r') <> limit ->
        decode t reader constructor length w
        = (Throw (InvalidWireFormat (Z.of_nat (Reader.pos r')) limit), w'))
  /\ (forall w', decode t reader None length w <> (Throw OutOfFuel, w')).
Proof.
  intros limit fuel w0.
  assert (Hunf : forall constructor,
    decode t reader constructor length w
    = (let* message := create t (Some (List.length (w_heap w))) constructor in
       let* fieldsById := fieldsById t in
       let* reader' := decode_loop fuel t message fieldsById limit reader in
       if Z.of_nat (Reader.pos reader') =? limit then ret (message, reader')
       else throw (InvalidWireFormat (Z.of_nat (Reader.pos reader')) limit)) w0).
  { reflexivity. }
  split; [|split].
  - intros constructor m r' w'. rewrite Hunf. unfold bind.
    destruct (create _ _ _ w0) as [[m1|e] w1]; [|discriminate].
    destruct (fieldsById t w1) as [[byId|e] w2]; [|discriminate].
    destruct (decode_loop _ _ _ _ _ _ w2) as [[r1|e] w3]; [|discriminate].
    destruct (Z.of_nat (Reader.pos r1) =? limit) eqn:E; [|discriminate].
    intros [= <- <- <-]. now apply Z.eqb_eq.
  - intros constructor m w1 byId w2 r' w' Hc Hb Hl Hne.
    rewrite Hunf. unfold bind. rewrite Hc, Hb, Hl.
    apply Z.eqb_neq in Hne. now rewrite Hne.
  - intros w'. rewrite Hunf. unfold bind.
    destruct (create _ _ _ w0) as [[m1|e] w1] eqn:Hc.
    + destruct (fieldsById t w1) as [[byId|e] w2] eqn:Hb.
      * pose proof (decode_loop_inv t m1 byId limit fuel reader w2 (le_n _)) as Hl.
        destruct (decode_loop _ _ _ _ _ _ w2) as [[r1|e] w3].
        -- destruct (_ =? _); discriminate.
        -- intros [= -> _]. destruct Hl as [|[|(? & ? & ?)]]; discriminate.
      * intros [= -> _]. apply fieldsById_throws in Hb as [|[? ?]]; discriminate.
    + intros [= -> _]. apply create_throws in Hc. discriminate.
Qed.

Lemma decode_ends_at_limit_witness :
  let w0 := after (add no_namespace no_namespace 0%nat (CField 0%nat)) sample_world in
  let w := after (add no_namespace no_namespace 0%nat (CField 1%nat)) w0 in
  (exists m r' w', decode 0%nat (Reader.new [8; 7; 18; 1; 120]) None None w
                   = (Ret (m, r'), w')
                   /\ Z.of_nat (Reader.pos r') = 5)
  /\ fst (decode 0%nat (Reader.new [8; 7; 26; 5; 1; 2; 3; 4]) None None w)
     = Throw (InvalidWireFormat 9 8)
  /\ fst (decode 0%nat (Reader.new [8; 7; 18; 1]) None None w)
     = Throw BufferUnderrun.
Proof.
  intros w0 w. split; [|split; reflexivity].
  destruct (decode 0%nat (Reader.new [8; 7; 18; 1; 120]) None None w)
    as [[[m r']|e] w'] eqn:E; [| vm_compute in E; discriminate].
  exists m, r', w'. split; [reflexivity |].
  exact (proj1 (decode_ends_at_limit 0%nat (Reader.new [8; 7; 18; 1; 120])
                  None w) None m r' w' E).
Defined.

(** ** Duplicate ids *)


Section DuplicateIds.

Variable NA NR : tref -> Child -> M tref.


End DuplicateIds.

(** Two fields of id 1 on one type: [create] and [encode] go through and the
    view stays unbuilt. *)
Lemma create_and_encode_ignore_duplicate_ids :
  let w0 := after (add no_namespace no_namespace 0%nat (CField 0%nat)) sample_world in
  let w := after (add no_namespace no_namespace 0%nat (CField 2%nat)) w0 in
  Field.id (w_fields w 0%nat) = Field.id (w_fields w 2%nat)
  /\ exists m w1 bytes w2,
       create 0%nat (Some 2%nat) None w = (Ret m, w1)
       /\ encode 0%nat m None w1 = (Ret bytes, w2)
       /\ TypeObj._fieldsById (w_types w2 0%nat) = None.
Proof.
  intros w0 w. split; [reflexivity |].
  eexists. eexists. eexists. eexists.
  split; [reflexivity |]. split; reflexivity.
Qed.


Section DuplicateIdsFromScratch.

Variable NA NR : tref -> Child -> M tref.

Lemma exists_run t name w : exists_ t name w = (Ret (taken (w_types w t) name), w).
Proof. reflexivity. Qed.




End DuplicateIdsFromScratch.


(** ** Coherence of the name cache is an invariant *)

Section CoherenceInvariant.

Variable NA NR : tref -> Child -> M tref.

Lemma removed_coherent t f w :
  (forall t', names_coherent w t') -> forall t', names_coherent (removed t f w) t'.
Proof.
  intros Hw t' names. destruct (decide (t = t')) as [<-|Hne].
  - unfold removed. simpl. rewrite !fn_lookup_insert. discriminate.
  - rewrite types_removed_ne by auto. apply Hw.
Qed.

Lemma added_coherent t f name w :
  (forall t', names_coherent w t') ->
  forall t', names_coherent (added t f name w) t'.
Proof.
  intros Hw t' names. destruct (decide (t = t')) as [<-|Hne].
  - unfold added. simpl. rewrite !fn_lookup_insert. discriminate.
  - rewrite types_added_ne by auto. apply Hw.
Qed.

Lemma add_field_coherent w t f r w' :
  (forall t', names_coherent w t') ->
  add NA NR t (CField f) w = (Ret r, w') ->
  forall t', names_coherent w' t'.
Proof.
  intros Hw Hadd. apply add_field_inv in Hadd as (_ & _ & -> & ->).
  apply added_coherent. unfold detached.
  destruct (Field.parent (w_fields w f)); auto. now apply removed_coherent.
Qed.

Lemma remove_field_coherent w t f r w' :
  (forall t', names_coherent w t') ->
  remove NR t (CField f) w = (Ret r, w') ->
  forall t', names_coherent w' t'.
Proof.
  intros Hw Hrem. apply remove_field_inv in Hrem as (_ & -> & ->).
  now apply removed_coherent.
Qed.

End CoherenceInvariant.

(** ** Round trip *)

(** C1.  The round trip fails on a repeated field.  On the type with the
    repeated [uint32] field [r] (id 4), the instance created from
    [{r: [7]}] encodes to the bytes 32, 7.  Decoding them yields an instance
    whose [r] is the default array of the field itself, to which the element
    was appended: [[7]] after the first decode, [[7, 7]] after the second,
    while the original still holds [[7]]; and an instance created afterwards
    without properties starts with [[7, 7]]. *)
Theorem roundtrip_breaks_on_repeated_field :
  let w := after (add no_namespace no_namespace 0%nat (CField 4%nat)) sample_world in
  let read w m := array_elements (w_heap w) (Js.get (w_heap w) m "r") in
  exists m w1 writer w2 d1 r1 w3 d2 r2 w4 m' w5,
    create 0%nat (Some 4%nat) None w = (Ret m, w1)
    /\ read w1 m = [VNum 7]
    /\ encode 0%nat m None w1 = (Ret writer, w2)
    /\ Writer.finish writer = [32; 7]
    /\ decode 0%nat (Reader.new [32; 7]) None None w2 = (Ret (d1, r1), w3)
    /\ read w3 d1 = [VNum 7]
    /\ decode 0%nat (Reader.new [32; 7]) None None w3 = (Ret (d2, r2), w4)
    /\ read w4 d2 = [VNum 7; VNum 7]
    /\ read w4 m = [VNum 7]
    /\ Js.get (w_heap w4) d2 "r" = Field.defaultValue (w_fields w4 4%nat)
    /\ Js.get (w_heap w4) d1 "r" = Js.get (w_heap w4) d2 "r"
    /\ create 0%nat None None w4 = (Ret m', w5)
    /\ read w5 m' = [VNum 7; VNum 7].
Proof.
  intros w read. do 12 eexists.
  repeat (split; [vm_compute; reflexivity |]). vm_compute. reflexivity.
Qed.

(** ** The ownership discipline is an invariant *)

Lemma ownership_initial (w : World) :
  (forall t, TypeObj.fields (w_types w t) = []) -> ownership w.
Proof. intros Hempty t k f. rewrite Hempty. discriminate. Qed.

Lemma remove_field_ownership (NR : tref -> Child -> M tref)
    (w : World) (t : tref) (f : fref) (r : tref) (w' : World) :
  ownership w ->
  remove NR t (CField f) w = (Ret r, w') ->
  ownership w' /\ forall t', ~ holds w' t' f.
Proof.
  intros Hw Hrem. apply remove_field_inv in Hrem as (Hown & -> & ->).
  destruct (Hw _ _ _ Hown) as [_ Hp].
  pose proof (detached_ownership f w Hw) as Hd.
  unfold detached in Hd. rewrite Hp in Hd. apply Hd.
  intros p [= <-]. exact Hown.
Qed.

Lemma names_coherent_new (w : World) (t : tref) (name : string) :
  w_types w t = TypeObj.new name -> names_coherent w t.
Proof. intros E names. rewrite E. discriminate. Qed.

(** ** Two remarks on the caches *)

(** Only the first read of the view by id raises the duplicate-id error: the
    getter stores the view before it fills it, so the next read returns what
    the failed one had filled in. *)
Lemma second_read_returns_partial_view :
  let w0 := after (add no_namespace no_namespace 0%nat (CField 0%nat)) sample_world in
  let w := after (add no_namespace no_namespace 0%nat (CField 2%nat)) w0 in
  let w' := after (fieldsById 0%nat) w in
  fst (fieldsById 0%nat w) = Throw (DuplicateId 1 0%nat)
  /\ fst (fieldsById 0%nat w') = Ret {[ 1 := 0%nat ]}.
Proof. split; reflexivity. Qed.

(** The prototype of the instances is built once and survives [add]: a field
    added after the first [create] is not served by it, and an instance that
    has no value of its own for the field reads [undefined], not the
    default. *)
Lemma prototype_survives_add :
  let w0 := after (create 0%nat None None) sample_world in
  let w := after (add no_namespace no_namespace 0%nat (CField 2%nat)) w0 in
  exists m w',
    create 0%nat (Some 1%nat) None w = (Ret m, w')
    /\ Field.defaultValue (w_fields w' 2%nat) = VNum 5
    /\ Js.get (w_heap w') m "x" = VUndef.
Proof. do 2 eexists. repeat split; reflexivity. Qed.

(** * Further properties of [add] and [remove] *)

Lemma delete_assign_absent {A} (o : Obj A) k v :
  Js.own o k = None -> Js.delete (Js.assign o k v) k = o.
Proof.
  unfold Js.delete. induction o as [|[k0 v0] o IH]; simpl.
  - intros _. now rewrite String.eqb_refl.
  - destruct (String.eqb k0 k) eqn:E; [discriminate |].
    intros H. simpl. rewrite E. simpl. now rewrite IH.
Qed.

Lemma keys_assign_absent {A} (o : Obj A) k v :
  Js.own o k = None -> Js.keys (Js.assign o k v) = Js.keys o ++ [k].
Proof.
  unfold Js.keys. induction o as [|[k0 v0] o IH]; simpl; auto.
  destruct (String.eqb k0 k) eqn:E; [discriminate |].
  intros H. simpl. now rewrite IH.
Qed.

Lemma taken_false_own (T : TypeObj.t) name :
  taken T name = false ->
  Js.inherited name = false
  /\ Js.own (TypeObj.fields T) name = None
  /\ Js.own (default [] (TypeObj.nested T)) name = None
  /\ Js.own (default [] (TypeObj.oneofs T)) name = None.
Proof.
  unfold taken. rewrite !orb_false_iff. intros [[Hf Hn] Ho].
  assert (Hinh : Js.inherited name = false).
  { unfold Js.lookup in Hf. destruct (Js.own _ name); [discriminate |].
    now destruct (Js.inherited name). }
  split; [exact Hinh |]. split; [now apply lookup_absent_own |].
  split.
  - destruct (TypeObj.nested T); simpl; auto. now apply lookup_absent_own.
  - destruct (TypeObj.oneofs T); simpl; auto. now apply lookup_absent_own.
Qed.

Lemma inherited_taken (T : TypeObj.t) name :
  Js.inherited name = true -> taken T name = true.
Proof.
  intros H. unfold taken, Js.lookup.
  destruct (Js.own (TypeObj.fields T) name); simpl; auto. now rewrite H.
Qed.

Lemma fields_removed t f w :
  TypeObj.fields (w_types (removed t f w) t)
  = Js.delete (TypeObj.fields (w_types w t)) (Field.name (w_fields w f)).
Proof.
  unfold removed.
  change (w_types (upd_field ?g ?h ?w0)) with (w_types w0).
  now rewrite !types_upd_type_eq.
Qed.

Lemma fields_added t f name w :
  TypeObj.fields (w_types (added t f name w) t)
  = Js.assign (TypeObj.fields (w_types w t)) name f.
Proof.
  unfold added.
  change (w_types (upd_field f (Field.set_parent (Some t)) ?w0)) with (w_types w0).
  change (w_types (upd_field f (Field.set_message (Some t)) ?w0)) with (w_types w0).
  now rewrite !types_upd_type_eq.
Qed.

Section AddRemoveMore.

Variable NA NR : tref -> Child -> M tref.

Lemma add_taken (w : World) (t : tref) (object : Child) :
  taken (w_types w t) (name_of w object) = true ->
  add NA NR t object w = (Throw (DuplicateName (name_of w object) t), w).
Proof.
  intros H. unfold taken in H. unfold add, exists_. monad_simpl.
  now rewrite H.
Qed.

Lemma remove_non_member_run (w : World) (t : tref) (f : fref) :
  Js.own (TypeObj.fields (w_types w t)) (Field.name (w_fields w f)) <> Some f ->
  remove NR t (CField f) w = (Throw (NotMember t), w).
Proof.
  intros H. unfold remove. monad_simpl.
  destruct (Js.lookup _ _) as [f'| |] eqn:L; auto.
  destruct (Nat.eqb f' f) eqn:E; auto.
  apply Nat.eqb_eq in E. subst f'. apply lookup_own in L. contradiction.
Qed.

(** X1. A field can be removed once: after a successful [remove] of a field
    from a type, the type no longer holds it, and a second [remove] fails
    with the not-a-member error and changes nothing. *)
Theorem remove_is_not_repeatable (w : World) (t : tref) (f : fref)
    (r : tref) (w1 : World) :
  remove NR t (CField f) w = (Ret r, w1) ->
  remove NR t (CField f) w1 = (Throw (NotMember t), w1).
Proof.
  intros Hrun. apply remove_field_inv in Hrun as (_ & _ & ->).
  apply remove_non_member_run.
  rewrite name_removed, own_fields_removed_eq.
  destruct (decide _); [discriminate | contradiction].
Qed.

(** X2. A name that every object inherits from [Object.prototype] counts as
    taken in every type: [add] of a child of such a name fails with the
    duplicate-name error, also on a type without members. *)
Theorem add_rejects_inherited_name (w : World) (t : tref) (object : Child) :
  Js.inherited (name_of w object) = true ->
  add NA NR t object w = (Throw (DuplicateName (name_of w object) t), w).
Proof. intros H. apply add_taken. now apply inherited_taken. Qed.

(** The outcome of [add] for a field whose name is free. *)
Lemma add_field_free (w : World) (t : tref) (f : fref) :
  taken (w_types w t) (Field.name (w_fields w f)) = false ->
  add NA NR t (CField f) w
  = match Field.parent (w_fields w f) with
    | Some p =>
        match remove NR p (CField f) w with
        | (Ret _, w1) => (Ret t, added t f (Field.name (w_fields w f)) w1)
        | (Throw e, w1) => (Throw e, w1)
        end
    | None => (Ret t, added t f (Field.name (w_fields w f)) w)
    end.
Proof.
  intros Hfree. unfold taken in Hfree. unfold add, exists_. monad_simpl.
  change (name_of w (CField f)) with (Field.name (w_fields w f)).
  rewrite Hfree. monad_simpl.
  now destruct (Field.parent (w_fields w f)) as [p|].
Qed.

(** [add] of a field whose name is free but whose recorded parent does not
    hold it fails with the not-a-member error of that parent. *)
Lemma add_stale_parent_run (w : World) (t p : tref) (f : fref) :
  taken (w_types w t) (Field.name (w_fields w f)) = false ->
  Field.parent (w_fields w f) = Some p ->
  Js.own (TypeObj.fields (w_types w p)) (Field.name (w_fields w f)) <> Some f ->
  add NA NR t (CField f) w = (Throw (NotMember p), w).
Proof.
  intros Hfree Hp Hown. rewrite add_field_free by exact Hfree.
  rewrite Hp. now rewrite remove_non_member_run.
Qed.

(** X3. Once a field has been added to a type and removed from it, it cannot
    be added again: the parent that [onAdd] recorded is not cleared by
    [remove], so every later [add] of the field, to any type in which its
    name is free, asks that parent to remove it first and fails with the
    parent's not-a-member error, changing nothing. *)
Theorem removed_field_cannot_be_added (w : World) (t : tref) (f : fref)
    (r1 : tref) (w1 : World) (r2 : tref) (w2 : World) (u : tref) :
  add NA NR t (CField f) w = (Ret r1, w1) ->
  remove NR t (CField f) w1 = (Ret r2, w2) ->
  taken (w_types w2 u) (Field.name (w_fields w2 f)) = false ->
  add NA NR u (CField f) w2 = (Throw (NotMember t), w2).
Proof.
  intros Hadd Hrem Hfree.
  assert (Hp1 : Field.parent (w_fields w1 f) = Some t).
  { apply add_field_inv in Hadd as (_ & _ & _ & ->).
    rewrite parent_added. now destruct (decide (f = f)). }
  apply remove_field_inv in Hrem as (_ & _ & ->).
  apply add_stale_parent_run; auto.
  - now rewrite parent_removed.
  - rewrite name_removed, own_fields_removed_eq.
    destruct (decide _); [discriminate | contradiction].
Qed.

(** X4. After a successful [add] of a field to a type and its [remove] from
    that type, the fields of the type are what they were before the [add],
    and the field has no message. *)
Theorem add_then_remove_restores_fields (w : World) (t : tref) (f : fref)
    (r : tref) (w1 : World) :
  add NA NR t (CField f) w = (Ret r, w1) ->
  exists w2,
    remove NR t (CField f) w1 = (Ret t, w2)
    /\ TypeObj.fields (w_types w2 t) = TypeObj.fields (w_types w t)
    /\ TypeObj._fieldsById (w_types w2 t) = None
    /\ TypeObj._fieldNames (w_types w2 t) = None
    /\ Field.message (w_fields w2 f) = None.
Proof.
  intros Hadd.
  destruct (type_after_add NA NR t f w r w1 Hadd) as (_ & _ & Hown & _ & Hname & _).
  apply add_field_inv in Hadd as (Hfree & Hpar & -> & ->).
  exists (removed t f (added t f (Field.name (w_fields w f)) (detached f w))).
  split; [now apply remove_field_run |].
  assert (Hdt : TypeObj.fields (w_types (detached f w) t)
                = TypeObj.fields (w_types w t)).
  { unfold detached. destruct (Field.parent (w_fields w f)) as [p|] eqn:Hp; auto.
    rewrite types_removed_ne; auto.
    intros ->. rewrite (Hpar t eq_refl) in Hfree. discriminate. }
  split.
  { rewrite fields_removed, fields_added, Hname.
    rewrite delete_assign_absent; [exact Hdt |]. now rewrite Hdt. }
  split; [unfold removed; simpl; now rewrite !fn_lookup_insert |].
  split; [unfold removed; simpl; now rewrite !fn_lookup_insert |].
  unfold removed. now rewrite fields_upd_field_eq.
Qed.

(** What a successful [add] of a one-of leaves. *)
Lemma add_oneof_run (w : World) (t : tref) (o : oref) :
  taken (w_types w t) (Refl.name (w_oneofs w o)) = false ->
  add NA NR t (COneOf o) w
  = (Ret t,
     upd_oneof o (Refl.set_parent (Some t))
       (upd_type t (fun T =>
          TypeObj.set_oneofs
            (Some (Js.assign (default [] (TypeObj.oneofs T))
                     (Refl.name (w_oneofs w o)) o)) T) w)).
Proof.
  intros Hfree. unfold taken in Hfree. unfold add, exists_. monad_simpl.
  change (name_of w (COneOf o)) with (Refl.name (w_oneofs w o)).
  now rewrite Hfree.
Qed.

(** X5. A one-of whose name is free is added: the type has it under its name
    among its one-ofs (created if there were none), its parent is the type,
    and the fields of the type and both caches are as they were.  From then
    on the name is taken: [add] of any child of that name fails with the
    duplicate-name error. *)
Theorem add_oneof_binds_name (w : World) (t : tref) (o : oref) :
  let name := Refl.name (w_oneofs w o) in
  taken (w_types w t) name = false ->
  exists w',
    add NA NR t (COneOf o) w = (Ret t, w')
    /\ (exists os, TypeObj.oneofs (w_types w' t) = Some os
                   /\ Js.own os name = Some o)
    /\ Refl.parent (w_oneofs w' o) = Some t
    /\ TypeObj.fields (w_types w' t) = TypeObj.fields (w_types w t)
    /\ TypeObj._fieldsById (w_types w' t) = TypeObj._fieldsById (w_types w t)
    /\ TypeObj._fieldNames (w_types w' t) = TypeObj._fieldNames (w_types w t)
    /\ forall object,
         name_of w' object = name ->
         add NA NR t object w' = (Throw (DuplicateName name t), w').
Proof.
  intros name Hfree.
  set (w' := upd_oneof o (Refl.set_parent (Some t))
               (upd_type t (fun T =>
                  TypeObj.set_oneofs
                    (Some (Js.assign (default [] (TypeObj.oneofs T)) name o)) T) w)).
  assert (Ht : w_types w' t
               = TypeObj.set_oneofs
                   (Some (Js.assign (default [] (TypeObj.oneofs (w_types w t))) name o))
                   (w_types w t)).
  { unfold w'. change (w_types (upd_oneof ?g ?h ?w0)) with (w_types w0).
    now rewrite types_upd_type_eq. }
  exists w'. split; [now apply add_oneof_run |].
  rewrite Ht. simpl.
  split; [eexists; split; [reflexivity | apply own_assign_eq] |].
  split; [unfold w'; simpl; now rewrite fn_lookup_insert |].
  do 3 (split; [reflexivity |]).
  intros object Hname. pose proof (add_taken w' t object) as H.
  rewrite Hname in H. apply H.
  unfold taken. rewrite Ht. simpl.
  rewrite (own_present _ _ (ex_intro _ o (own_assign_eq _ _ _))).
  now rewrite orb_true_r.
Qed.

(** X6. A successful [add] of a field appends its name to the field names of
    the type: the names read next are the former keys followed by the new
    name, so the new field comes last in the order [encode] follows. *)
Theorem add_appends_field_name (w : World) (t : tref) (f : fref)
    (r : tref) (w' : World) :
  add NA NR t (CField f) w = (Ret r, w') ->
  exists w'',
    fieldNames t w'
    = (Ret (Js.keys (TypeObj.fields (w_types w t))
            ++ [Field.name (w_fields w f)]), w'').
Proof.
  intros Hadd.
  destruct (type_after_add NA NR t f w r w' Hadd) as (_ & Hn & _).
  apply add_field_inv in Hadd as (Hfree & Hpar & -> & ->).
  assert (Hdt : TypeObj.fields (w_types (detached f w) t)
                = TypeObj.fields (w_types w t)).
  { unfold detached. destruct (Field.parent (w_fields w f)) as [p|] eqn:Hp; auto.
    rewrite types_removed_ne; auto.
    intros ->. rewrite (Hpar t eq_refl) in Hfree. discriminate. }
  unfold fieldNames. monad_simpl. rewrite Hn. eexists.
  rewrite fields_added, Hdt, keys_assign_absent by exact Hfree.
  reflexivity.
Qed.

Lemma add_ret_free (w : World) (t : tref) (object : Child) r w' :
  add NA NR t object w = (Ret r, w') ->
  taken (w_types w t) (name_of w object) = false.
Proof.
  intros Hadd. destruct (taken _ _) eqn:E; auto.
  rewrite add_taken in Hadd by exact E. discriminate.
Qed.

Lemma removed_namespaces t f w t' :
  TypeObj.nested (w_types (removed t f w) t') = TypeObj.nested (w_types w t')
  /\ TypeObj.oneofs (w_types (removed t f w) t') = TypeObj.oneofs (w_types w t').
Proof.
  destruct (decide (t = t')) as [<-|Hne].
  - unfold removed. change (w_types (upd_field ?g ?h ?w0)) with (w_types w0).
    now rewrite !types_upd_type_eq.
  - now rewrite types_removed_ne.
Qed.

Lemma added_namespaces t f name w t' :
  TypeObj.nested (w_types (added t f name w) t') = TypeObj.nested (w_types w t')
  /\ TypeObj.oneofs (w_types (added t f name w) t') = TypeObj.oneofs (w_types w t').
Proof.
  destruct (decide (t = t')) as [<-|Hne].
  - unfold added.
    change (w_types (upd_field f (Field.set_parent (Some t)) ?w0)) with (w_types w0).
    change (w_types (upd_field f (Field.set_message (Some t)) ?w0)) with (w_types w0).
    now rewrite !types_upd_type_eq.
  - now rewrite types_added_ne.
Qed.

Lemma removed_disjoint t f w :
  (forall t', namespaces_disjoint (w_types w t')) ->
  forall t', namespaces_disjoint (w_types (removed t f w) t').
Proof.
  intros Hw t' name.
  destruct (removed_namespaces t f w t') as [-> ->].
  destruct (Hw t' name) as [H1 H2]. split; [|exact H2].
  intros [g Hg]. apply H1.
  destruct (decide (t = t')) as [<-|Hne].
  - rewrite own_fields_removed_eq in Hg.
    destruct (decide _); [discriminate | eauto].
  - rewrite types_removed_ne in Hg by auto. eauto.
Qed.

(** X7. [add] of a field or of a one-of and [remove] of a field keep the
    namespaces of every type disjoint: if no name is a key of two of
    [fields], [nested] and [oneofs] before, none is after. *)
Theorem namespaces_stay_disjoint (w : World) (t : tref) (r : tref) (w' : World) :
  (forall t', namespaces_disjoint (w_types w t')) ->
  (forall f, add NA NR t (CField f) w = (Ret r, w') ->
     forall t', namespaces_disjoint (w_types w' t'))
  /\ (forall o, add NA NR t (COneOf o) w = (Ret r, w') ->
        forall t', namespaces_disjoint (w_types w' t'))
  /\ (forall f, remove NR t (CField f) w = (Ret r, w') ->
        forall t', namespaces_disjoint (w_types w' t')).
Proof.
  intros Hw. split; [|split].
  - intros f Hadd t' name.
    apply add_ret_free in Hadd as Hfree.
    apply taken_false_own in Hfree as (_ & _ & Hn & Ho).
    apply add_field_inv in Hadd as (Hown & Hpar & -> & ->).
    assert (Hd : forall t', namespaces_disjoint (w_types (detached f w) t')).
    { unfold detached. destruct (Field.parent _); auto. now apply removed_disjoint. }
    assert (Hdn : forall t', TypeObj.nested (w_types (detached f w) t')
                             = TypeObj.nested (w_types w t')
                             /\ TypeObj.oneofs (w_types (detached f w) t')
                                = TypeObj.oneofs (w_types w t')).
    { intros t0. unfold detached. destruct (Field.parent _); auto.
      apply removed_namespaces. }
    destruct (added_namespaces t f (Field.name (w_fields w f)) (detached f w) t')
      as [-> ->].
    destruct (Hd t' name) as [H1 H2]. split; [|exact H2].
    intros [g Hg].
    destruct (decide (t = t')) as [<-|Hne].
    + rewrite own_fields_added_eq in Hg.
      destruct (decide (Field.name (w_fields w f) = name)) as [<-|Hk]; [|eauto].
      destruct (Hdn t) as [-> ->]. auto.
    + rewrite types_added_ne in Hg by auto. eauto.
  - intros o Hadd t' name.
    apply add_ret_free in Hadd as Hfree.
    change (name_of w (COneOf o)) with (Refl.name (w_oneofs w o)) in Hfree.
    rewrite add_oneof_run in Hadd by exact Hfree. injection Hadd as _ <-.
    apply taken_false_own in Hfree as (_ & Hf & Hn & _).
    change (w_types (upd_oneof ?g ?h ?w0)) with (w_types w0).
    destruct (decide (t = t')) as [<-|Hne].
    + rewrite types_upd_type_eq. simpl. destruct (Hw t name) as [H1 H2].
      split.
      * intros Hs. split; [now apply H1 |].
        rewrite own_assign_ne; [now apply H1 |].
        intros <-. destruct Hs as [g Hg]. congruence.
      * intros Hs. rewrite own_assign_ne; [now apply H2 |].
        intros <-. destruct Hs as [g Hg]. congruence.
    + rewrite types_upd_type_ne by auto. apply Hw.
  - intros f Hrem. apply remove_field_inv in Hrem as (_ & _ & ->).
    now apply removed_disjoint.
Qed.

End AddRemoveMore.

Lemma remove_is_not_repeatable_witness :
  let w := after (add no_namespace no_namespace 0%nat (CField 0%nat)) sample_world in
  let w1 := after (remove no_namespace 0%nat (CField 0%nat)) w in
  remove no_namespace 0%nat (CField 0%nat) w1 = (Throw (NotMember 0%nat), w1).
Proof.
  intros w w1.
  apply (remove_is_not_repeatable no_namespace w 0%nat 0%nat 0%nat w1).
  reflexivity.
Defined.

Lemma add_rejects_inherited_name_witness :
  add no_namespace no_namespace 0%nat (CField 0%nat) sample_world_inherited
  = (Throw (DuplicateName "constructor" 0%nat), sample_world_inherited).
Proof.
  exact (add_rejects_inherited_name no_namespace no_namespace
           sample_world_inherited 0%nat (CField 0%nat) eq_refl).
Defined.

Lemma removed_field_cannot_be_added_witness :
  let w1 := after (add no_namespace no_namespace 0%nat (CField 0%nat)) sample_world in
  let w2 := after (remove no_namespace 0%nat (CField 0%nat)) w1 in
  add no_namespace no_namespace 1%nat (CField 0%nat) w2 = (Throw (NotMember 0%nat), w2)
  /\ add no_namespace no_namespace 0%nat (CField 0%nat) w2 = (Throw (NotMember 0%nat), w2).
Proof.
  intros w1 w2.
  split;
    apply (removed_field_cannot_be_added no_namespace no_namespace
             sample_world 0%nat 0%nat 0%nat w1 0%nat w2);
    reflexivity.
Defined.

Lemma add_then_remove_restores_fields_witness :
  let w := after (add no_namespace no_namespace 0%nat (CField 1%nat)) sample_world in
  exists w2,
    remove no_namespace 0%nat
      (CField 0%nat) (after (add no_namespace no_namespace 0%nat (CField 0%nat)) w)
    = (Ret 0%nat, w2)
    /\ TypeObj.fields (w_types w2 0%nat) = [("name", 1%nat)].
Proof.
  intros w.
  destruct (add_then_remove_restores_fields no_namespace no_namespace
              w 0%nat 0%nat 0%nat _ eq_refl) as (w2 & Hrem & Hfs & _).
  exists w2. split; [exact Hrem | exact Hfs].
Defined.

Lemma add_oneof_binds_name_witness :
  exists w',
    add no_namespace no_namespace 0%nat (COneOf 0%nat) sample_world = (Ret 0%nat, w')
    /\ TypeObj.oneofs (w_types w' 0%nat) = Some [("choice", 0%nat)]
    /\ add no_namespace no_namespace 0%nat (COneOf 1%nat) w'
       = (Throw (DuplicateName "choice" 0%nat), w').
Proof.
  destruct (add_oneof_binds_name no_namespace no_namespace sample_world 0%nat 0%nat
              eq_refl) as (w' & Hadd & _ & _ & _ & _ & _ & Hdup).
  exists w'. split; [exact Hadd |].
  injection Hadd as <-. split; [reflexivity |].
  exact (Hdup (COneOf 1%nat) eq_refl).
Defined.

Lemma add_appends_field_name_witness :
  let w := after (add no_namespace no_namespace 0%nat (CField 0%nat)) sample_world in
  exists w'',
    fieldNames 0%nat (after (add no_namespace no_namespace 0%nat (CField 1%nat)) w)
    = (Ret ["id"; "name"], w'').
Proof.
  intros w.
  exact (add_appends_field_name no_namespace no_namespace w 0%nat 1%nat 0%nat _ eq_refl).
Defined.

Lemma namespaces_stay_disjoint_witness :
  let w' := after (add no_namespace no_namespace 0%nat (CField 0%nat)) sample_world in
  (forall t', namespaces_disjoint (w_types sample_world t'))
  /\ forall t', namespaces_disjoint (w_types w' t').
Proof.
  intros w'.
  assert (H0 : forall t', namespaces_disjoint (w_types sample_world t')).
  { intros t' name. simpl. split; intros [x Hx]; discriminate. }
  split; [exact H0 |].
  exact (proj1 (namespaces_stay_disjoint no_namespace no_namespace
                  sample_world 0%nat 0%nat w' H0) 0%nat eq_refl).
Defined.

(** * Further properties of the view by id *)

Section ViewMore.

Variable t : tref.

(** X8. When the view by id is not cached, the name cache is coherent and
    the ids of the fields are pairwise distinct, reading [fieldsById] returns
    a view that maps an id to a field exactly when the type holds that field
    and the field has that id; the view is cached: reading it again returns
    the same view and changes nothing. *)
Theorem fieldsById_is_exact (w : World) :
  TypeObj._fieldsById (w_types w t) = None ->
  names_coherent w t ->
  NoDup (field_ids w t) ->
  exists m w',
    fieldsById t w = (Ret m, w')
    /\ (forall i f,
          m !! i = Some f
          <-> exists n, Js.own (TypeObj.fields (w_types w t)) n = Some f
                        /\ Field.id (w_fields w f) = i)
    /\ fieldsById t w' = (Ret m, w').
Proof.
  intros Hnone Hcoh Hnd.
  destruct (fieldsById_rebuild t w Hnone Hcoh) as [Hok _].
  destruct (Hok Hnd) as (m & w' & Hrun & _ & _ & _ & Hcache & _ & Hin & Hout).
  exists m, w'. split; [exact Hrun |]. split.
  - intros i f. split.
    + intros Hm.
      destruct (in_dec Z.eq_dec i (field_ids w t)) as [Hi|Hi].
      * unfold field_ids, ids_of in Hi.
        apply list_elem_of_In, list_elem_of_omap in Hi as (n & _ & Hn).
        destruct (Js.own _ n) as [g|] eqn:Hg; [|discriminate].
        injection Hn as Hn. exists n.
        rewrite <- Hn, (Hin n g Hg) in Hm. injection Hm as ->. auto.
      * rewrite (Hout i Hi) in Hm. discriminate.
    + intros (n & Hn & <-). now apply (Hin n).
  - unfold fieldsById. monad_simpl. now rewrite Hcache.
Qed.

Lemma fill_duplicate_size names : forall w acc,
  TypeObj._fieldsById (w_types w t) = Some acc ->
  Forall (fun n => is_Some (Js.own (TypeObj.fields (w_types w t)) n)) names ->
  ~ (NoDup (ids_of w t names)
     /\ forall i, In i (ids_of w t names) -> acc !! i = None) ->
  exists i w' m,
    fieldsById_fill t names w = (Throw (DuplicateId i t), w')
    /\ cache_filled t w w' m
    /\ (size m < size acc + length names)%nat.
Proof.
  induction names as [|n rest IH]; intros w acc Hc Hall Hbad.
  - exfalso. apply Hbad. split; [constructor | intros i []].
  - inversion Hall as [|? ? [f Hf] Hrest]; subst.
    assert (Hids : ids_of w t (n :: rest)
                   = Field.id (w_fields w f) :: ids_of w t rest).
    { unfold ids_of. simpl. now rewrite Hf. }
    rewrite Hids in Hbad.
    set (i := Field.id (w_fields w f)) in *.
    destruct (acc !! i) as [g|] eqn:Hi.
    + exists i, w, acc. split; [|split].
      * simpl. monad_simpl. rewrite Hf, Hc. fold i. now rewrite Hi.
      * repeat split; auto. destruct (w_types w t); simpl in *. now subst.
      * simpl. lia.
    + set (w1 := upd_type t (TypeObj.set_fieldsById (Some (<[i := f]> acc))) w).
      destruct (IH w1 (<[i := f]> acc)) as (j & w' & m & Hrun & Hcf & Hsize).
      * unfold w1. now rewrite types_upd_type_eq.
      * unfold w1. now rewrite types_upd_type_eq.
      * unfold w1. rewrite ids_of_upd_cache. intros [Hnd Hfresh].
        apply Hbad. split.
        -- constructor; auto. intros Hin. apply list_elem_of_In, Hfresh in Hin.
           rewrite lookup_insert_eq in Hin. discriminate.
        -- intros k [<-|Hk]; auto.
           specialize (Hfresh k Hk).
           destruct (decide (i = k)) as [<-|Hne].
           ++ rewrite lookup_insert_eq in Hfresh. discriminate.
           ++ now rewrite lookup_insert_ne in Hfresh.
      * exists j, w', m. split; [|split].
        -- simpl. monad_simpl. rewrite Hf, Hc. fold i. rewrite Hi.
           exact Hrun.
        -- destruct Hcf as (Ht & Hother & Hfs & Hh).
           unfold w1 in *. repeat split; auto.
           ++ rewrite Ht, types_upd_type_eq. reflexivity.
           ++ intros t' Hne. rewrite Hother by auto.
              now rewrite types_upd_type_ne.
        -- rewrite map_size_insert_None in Hsize by exact Hi. simpl. lia.
Qed.

(** X9. The duplicate-id error is raised once.  When the view by id is not
    cached, the name cache is coherent and two fields share an id, the first
    read of [fieldsById] raises the error but leaves the part of the view it
    had filled in cached, so that the next read raises nothing and returns
    that part: a view with fewer entries than the type has fields. *)
Theorem duplicate_id_raised_once (w : World) :
  TypeObj._fieldsById (w_types w t) = None ->
  names_coherent w t ->
  ~ NoDup (field_ids w t) ->
  exists i w' m,
    fieldsById t w = (Throw (DuplicateId i t), w')
    /\ fieldsById t w' = (Ret m, w')
    /\ (size m < length (TypeObj.fields (w_types w t)))%nat.
Proof.
  intros Hnone Hcoh Hdup.
  set (w1 := upd_type t (TypeObj.set_fieldsById (Some ∅)) w).
  assert (Hcoh1 : names_coherent w1 t).
  { intros names. unfold w1. rewrite types_upd_type_eq. apply Hcoh. }
  destruct (fieldNames_run t w1 Hcoh1) as (w2 & Hn & Ht2 & Ho2 & Hf2 & Hh2).
  assert (Hfs1 : TypeObj.fields (w_types w1 t) = TypeObj.fields (w_types w t)).
  { unfold w1. now rewrite types_upd_type_eq. }
  assert (Hfs : TypeObj.fields (w_types w2 t) = TypeObj.fields (w_types w t)).
  { rewrite Ht2. exact Hfs1. }
  assert (Hc2 : TypeObj._fieldsById (w_types w2 t) = Some ∅).
  { rewrite Ht2. unfold w1. now rewrite types_upd_type_eq. }
  rewrite Hfs1 in Hn.
  destruct (fill_duplicate_size (Js.keys (TypeObj.fields (w_types w t))) w2 ∅ Hc2)
    as (i & w' & m & Hrun & (Ht' & _) & Hsize).
  - rewrite Hfs. apply keys_all_own.
  - intros [Hnd _]. apply Hdup. unfold field_ids, ids_of in *.
    now rewrite Hfs, Hf2 in Hnd.
  - exists i, w', m. split; [|split].
    + unfold fieldsById. unfold bind at 1. unfold getType at 1. cbv beta iota.
      rewrite Hnone. unfold bind at 1. unfold modType at 1. cbv beta iota.
      fold w1. unfold bind at 1. rewrite Hn. unfold bind at 1. now rewrite Hrun.
    + unfold fieldsById. monad_simpl. rewrite Ht'. reflexivity.
    + rewrite map_size_empty in Hsize. unfold Js.keys in Hsize.
      rewrite length_map in Hsize. simpl in Hsize. exact Hsize.
Qed.

End ViewMore.

Lemma fieldsById_is_exact_witness :
  let w0 := after (add no_namespace no_namespace 0%nat (CField 0%nat)) sample_world in
  let w := after (add no_namespace no_namespace 0%nat (CField 1%nat)) w0 in
  exists m w',
    fieldsById 0%nat w = (Ret m, w')
    /\ (m !! 2 = Some 1%nat
        <-> exists n, Js.own (TypeObj.fields (w_types w 0%nat)) n = Some 1%nat
                      /\ Field.id (w_fields w 1%nat) = 2)
    /\ fieldsById 0%nat w' = (Ret m, w').
Proof.
  intros w0 w.
  destruct (fieldsById_is_exact 0%nat w) as (m & w' & Hrun & Hex & Hmemo).
  - reflexivity.
  - intros names. vm_compute. discriminate.
  - apply (bool_decide_unpack (NoDup (field_ids w 0%nat))). vm_compute. exact I.
  - exists m, w'. split; [exact Hrun |]. split; [apply Hex | exact Hmemo].
Defined.

Lemma duplicate_id_raised_once_witness :
  let w0 := after (add no_namespace no_namespace 0%nat (CField 0%nat)) sample_world in
  let w := after (add no_namespace no_namespace 0%nat (CField 2%nat)) w0 in
  exists i w' m,
    fieldsById 0%nat w = (Throw (DuplicateId i 0%nat), w')
    /\ fieldsById 0%nat w' = (Ret m, w')
    /\ (size m < 2)%nat.
Proof.
  intros w0 w.
  apply (duplicate_id_raised_once 0%nat w).
  - reflexivity.
  - intros names. vm_compute. discriminate.
  - intros Hnd.
    apply (bool_decide_pack (NoDup (field_ids w 0%nat))) in Hnd.
    vm_compute in Hnd. exact Hnd.
Defined.

(** * Further properties of [create] *)

(** What reading a declared field off a new instance gives. *)
Lemma create_get_run t properties w :
  names_coherent w t ->
  (forall p, properties = Some p -> (p < length (w_heap w))%nat) ->
  exists m w',
    create t properties None w = (Ret m, w')
    /\ w_fields w' = w_fields w
    /\ TypeObj.fields (w_types w' t) = TypeObj.fields (w_types w t)
    /\ TypeObj._fieldsById (w_types w' t) = TypeObj._fieldsById (w_types w t)
    /\ names_coherent w' t
    /\ forall k f,
         Js.own (TypeObj.fields (w_types w t)) k = Some f ->
         prototype_serves w t k (Field.defaultValue (w_fields w f)) ->
         Js.get (w_heap w') m k
         = Js.or (supplied w properties k) (Field.defaultValue (w_fields w f)).
Proof.
  intros Hcoh Hvalid.
  destruct (create_run_any t properties w Hcoh Hvalid)
    as (m & w' & tmpl & ps & Hrun & Hf & Hfs & Hby & Hcoh' & Hold & Hm & Hmsg
          & Hps & Htmpl).
  exists m, w'. do 5 (split; [assumption |]).
  intros k f Hk Hserves.
  specialize (Hps k f Hk). cbv zeta in Hps.
  set (d := Field.defaultValue (w_fields w f)) in *.
  set (value := Js.or (supplied w properties k) d) in *.
  destruct (materialized (w_fields w f) value) eqn:Hmat.
  - now apply (get_own _ _ _ ps (Some tmpl)).
  - unfold materialized in Hmat. rewrite !orb_false_iff in Hmat.
    destruct Hmat as [[_ Heq] Hobj].
    apply negb_false_iff, strict_eq_spec in Heq.
    unfold prototype_serves in Hserves.
    destruct (TypeObj._prototype (w_types w t)) as [q|] eqn:Hq.
    + subst tmpl. destruct Hserves as [Hlt Hget].
      rewrite (get_proto _ _ _ ps q Hmsg Hps) by lia.
      transitivity (Js.get (w_heap w) q k);
        [| exact (eq_trans Hget (eq_sym Heq))].
      apply get_agree. intros b Hb. apply Hold. lia.
    + destruct Htmpl as (Hlt & tps & Htps & Hown).
      rewrite (get_proto _ _ _ ps tmpl Hmsg Hps Hlt).
      apply (get_own _ _ _ tps None _ Htps).
      rewrite Hown. unfold template_value. rewrite Hk.
      subst d. rewrite <- Heq. now rewrite Hobj.
Qed.

(** X10. Reading a declared field off the instance that [create] returns
    gives the supplied value if that is truthy and the default of the field
    otherwise, that is [properties[name] || defaultValue], provided the
    prototype of the instances, if cached already, serves the default of the
    field. *)
Theorem create_reads_back (t : tref) (properties : option addr)
    (w : World) (k : string) (f : fref) :
  names_coherent w t ->
  (forall p, properties = Some p -> (p < length (w_heap w))%nat) ->
  Js.own (TypeObj.fields (w_types w t)) k = Some f ->
  let d := Field.defaultValue (w_fields w f) in
  prototype_serves w t k d ->
  exists m w',
    create t properties None w = (Ret m, w')
    /\ Js.get (w_heap w') m k = Js.or (supplied w properties k) d.
Proof.
  intros Hcoh Hvalid Hk d Hserves.
  destruct (create_get_run t properties w Hcoh Hvalid)
    as (m & w' & Hrun & _ & _ & _ & _ & Hget).
  exists m, w'. split; [exact Hrun |]. now apply Hget.
Qed.

Lemma create_reads_back_witness :
  let w0 := after (add no_namespace no_namespace 0%nat (CField 0%nat)) sample_world in
  let w := after (add no_namespace no_namespace 0%nat (CField 1%nat)) w0 in
  exists m w',
    create 0%nat (Some 2%nat) None w = (Ret m, w')
    /\ Js.get (w_heap w') m "name" = VStr "x".
Proof.
  intros w0 w.
  apply (create_reads_back 0%nat (Some 2%nat) w "name" 1%nat).
  - intros names. vm_compute. discriminate.
  - intros p [= <-]. vm_compute. lia.
  - reflexivity.
  - exact I.
Defined.

(** X11. [create] without a constructor writes to no object that existed
    before the call: the instance is a new object, and every cell of the heap
    is as it was, the properties object and the defaults of the fields
    included; nor does it change a field or the fields of the type. *)
Theorem create_touches_nothing_old (t : tref) (properties : option addr)
    (w : World) :
  names_coherent w t ->
  (forall p, properties = Some p -> (p < length (w_heap w))%nat) ->
  exists m w',
    create t properties None w = (Ret m, w')
    /\ (length (w_heap w) <= m)%nat
    /\ (forall b, (b < length (w_heap w))%nat -> w_heap w' !! b = w_heap w !! b)
    /\ w_fields w' = w_fields w
    /\ TypeObj.fields (w_types w' t) = TypeObj.fields (w_types w t).
Proof.
  intros Hcoh Hvalid.
  destruct (create_run_any t properties w Hcoh Hvalid)
    as (m & w' & tmpl & ps & Hrun & Hf & Hfs & _ & _ & Hold & Hm & _).
  exists m, w'. auto.
Qed.

Lemma create_touches_nothing_old_witness :
  let w := after (add no_namespace no_namespace 0%nat (CField 4%nat)) sample_world in
  exists m w',
    create 0%nat (Some 4%nat) None w = (Ret m, w')
    /\ (5 <= m)%nat
    /\ w_heap w' !! 0%nat = Some (HArr []).
Proof.
  intros w.
  destruct (create_touches_nothing_old 0%nat (Some 4%nat) w)
    as (m & w' & Hrun & Hm & Hold & _).
  - intros names. vm_compute. discriminate.
  - intros p [= <-]. vm_compute. lia.
  - exists m, w'. split; [exact Hrun |]. split; [exact Hm |].
    rewrite Hold; [reflexivity | vm_compute; lia].
Defined.

(** [create] without a constructor, with or without a properties object, in
    the terms of [created]. *)
Lemma create_run_created t properties w :
  names_coherent w t ->
  (forall p, properties = Some p -> (p < length (w_heap w))%nat) ->
  exists m w' p w0,
    create t properties None w = (Ret m, w')
    /\ created t p w0 m w'
    /\ w_types w0 = w_types w
    /\ (length (w_heap w) <= length (w_heap w0))%nat
    /\ (forall b, (b < length (w_heap w))%nat -> w_heap w0 !! b = w_heap w !! b).
Proof.
  intros Hcoh Hvalid. destruct properties as [p|].
  - destruct (create_run t p w Hcoh (Hvalid p eq_refl)) as (m & w' & Hrun & Hc).
    exists m, w', p, w.
    split; [exact Hrun |]. split; [exact Hc |]. split; [reflexivity |].
    split; [lia | reflexivity].
  - set (w0 := set_heap (w_heap w ++ [HRec [] None]) w).
    assert (Hp0 : (length (w_heap w) < length (w_heap w0))%nat).
    { unfold w0. simpl. rewrite length_app. simpl. lia. }
    destruct (create_run t (length (w_heap w)) w0 Hcoh Hp0) as (m & w' & Hrun & Hc).
    exists m, w', (length (w_heap w)), w0. rewrite create_none. fold w0.
    split; [exact Hrun |]. split; [exact Hc |]. split; [reflexivity |].
    split; [lia |].
    intros b Hb. now apply lookup_alloc_old.
Qed.

(** X12. The prototype of the instances is built by the first [create] and
    shared from then on: the instance of the first [create] and that of a
    second one are different objects with one and the same prototype, an
    object that the second [create] leaves as the first built it. *)
Theorem instances_share_prototype (t : tref) (p1 p2 : option addr)
    (w : World) (m1 : addr) (w1 : World) :
  names_coherent w t ->
  TypeObj._prototype (w_types w t) = None ->
  (forall p, p1 = Some p -> (p < length (w_heap w))%nat) ->
  (forall p, p2 = Some p -> (p < length (w_heap w1))%nat) ->
  create t p1 None w = (Ret m1, w1) ->
  exists m2 w2 tmpl,
    create t p2 None w1 = (Ret m2, w2)
    /\ m1 <> m2
    /\ proto_of (w_heap w2) m1 = Some tmpl
    /\ proto_of (w_heap w2) m2 = Some tmpl
    /\ tmpl <> m1 /\ tmpl <> m2
    /\ w_heap w2 !! tmpl = w_heap w1 !! tmpl.
Proof.
  intros Hcoh Hnone Hv1 Hv2 Hrun1.
  destruct (create_run_created t p1 w Hcoh Hv1)
    as (m & w' & p & w0 & Hrun & Hc & Hty & _ & _).
  rewrite Hrun1 in Hrun. injection Hrun as <- <-.
  destruct Hc as (_ & _ & Hfs1 & _ & Hn1 & _ & _ & tmpl & ps1 & Hp1 & Hmsg1 & _ & Htm).
  rewrite Hty, Hnone in Htm. destruct Htm as (Hlt & tps & Htps & _).
  assert (Hcoh1 : names_coherent w1 t).
  { intros names. rewrite Hn1, Hfs1, Hty. congruence. }
  apply lookup_lt_Some in Hmsg1 as Hm1.
  destruct (create_run_created t p2 w1 Hcoh1 Hv2)
    as (m2 & w2 & p' & w0' & Hrun2 & Hc2 & Hty2 & Hlen2 & Hold0).
  destruct Hc2 as (_ & _ & _ & _ & _ & Hold & Hm2 & tmpl2 & ps2 & _ & Hmsg2 & _ & Htm2).
  rewrite Hty2, Hp1 in Htm2. subst tmpl2.
  assert (Hkeep : forall b, (b < length (w_heap w1))%nat ->
                    w_heap w2 !! b = w_heap w1 !! b).
  { intros b Hb. rewrite Hold by lia. now apply Hold0. }
  exists m2, w2, tmpl. split; [exact Hrun2 |].
  split; [lia |].
  unfold proto_of. rewrite (Hkeep m1 Hm1), Hmsg1, Hmsg2.
  repeat split; auto; try lia.
  apply Hkeep. lia.
Qed.

Lemma instances_share_prototype_witness :
  let w := after (add no_namespace no_namespace 0%nat (CField 0%nat)) sample_world in
  exists m1 w1 m2 w2 tmpl,
    create 0%nat (Some 2%nat) None w = (Ret m1, w1)
    /\ create 0%nat None None w1 = (Ret m2, w2)
    /\ m1 <> m2
    /\ proto_of (w_heap w2) m1 = Some tmpl
    /\ proto_of (w_heap w2) m2 = Some tmpl.
Proof.
  intros w.
  destruct (create 0%nat (Some 2%nat) None w) as [[m1|e] w1] eqn:E1;
    [| vm_compute in E1; discriminate].
  destruct (instances_share_prototype 0%nat (Some 2%nat) None w m1 w1)
    as (m2 & w2 & tmpl & Hrun2 & Hne & Hpr1 & Hpr2 & _); auto.
  - intros names. vm_compute. discriminate.
  - intros p [= <-]. vm_compute. lia.
  - discriminate.
  - exists m1, w1, m2, w2, tmpl. auto.
Defined.

(** * [create], [encode] and [decode] together *)

Lemma loose_eq_refl h v : Js.loose_eq h v v = true.
Proof.
  destruct v as [| |b|n|s|a|s]; simpl; auto.
  - now destruct b.
  - apply Z.eqb_refl.
  - apply String.eqb_refl.
  - apply Nat.eqb_refl.
  - apply String.eqb_refl.
Qed.

Lemma filter_none {A} (p : A -> bool) (l : list A) :
  (forall x, In x l -> p x = false) -> List.filter p l = [].
Proof.
  induction l as [|x l IH]; simpl; intros H; [reflexivity |].
  rewrite (H x) by auto. apply IH. auto.
Qed.

(** X13. A new instance made of no properties encodes to nothing: if no
    field of the type is required, no field goes by a name that every object
    inherits, and the prototype of the instances, if cached already, serves
    the defaults, [encode] of the instance that [create] returns leaves the
    writer as it was, whatever the defaults of the fields are. *)
Theorem default_instance_encodes_to_nothing (t : tref)
    (writer : option Writer.t) (w : World) :
  names_coherent w t ->
  (forall k f,
     Js.own (TypeObj.fields (w_types w t)) k = Some f ->
     Field.required (w_fields w f) = false
     /\ Js.inherited k = false
     /\ prototype_serves w t k (Field.defaultValue (w_fields w f))) ->
  exists m w1 w2,
    create t None None w = (Ret m, w1)
    /\ encode t m writer w1 = (Ret (default Writer.new writer), w2).
Proof.
  intros Hcoh Hfields.
  destruct (create_get_run t None w Hcoh) as
    (m & w1 & Hrun & Hf & Hfs & _ & Hcoh1 & Hget); [discriminate |].
  destruct (encode_run t m writer w1 Hcoh1) as (w2 & _ & Henc).
  exists m, w1, w2. split; [exact Hrun |].
  rewrite Henc, filter_none; [reflexivity |].
  intros name Hin. unfold encoded.
  destruct (Js.own (TypeObj.fields (w_types w1 t)) name) as [f|] eqn:Hown;
    [| reflexivity].
  rewrite Hfs in Hown. destruct (Hfields name f Hown) as (Hreq & Hinh & Hserves).
  rewrite Hf, Hreq, (Hget name f Hown Hserves). simpl supplied.
  rewrite Hinh. unfold Js.or. simpl. now rewrite loose_eq_refl.
Qed.

Lemma default_instance_encodes_to_nothing_witness :
  let w0 := after (add no_namespace no_namespace 0%nat (CField 1%nat)) sample_world in
  exists m w1 w2,
    create 0%nat None None w0 = (Ret m, w1)
    /\ encode 0%nat m None w1 = (Ret [], w2).
Proof.
  intros w0.
  apply (default_instance_encodes_to_nothing 0%nat None w0).
  - intros names. vm_compute. discriminate.
  - intros k f Hown.
    assert (Hfs : TypeObj.fields (w_types w0 0%nat) = [("name", 1%nat)])
      by (vm_compute; reflexivity).
    rewrite Hfs in Hown. cbn [Js.own] in Hown.
    destruct (String.eqb_spec "name" k) as [<- | _]; [| discriminate].
    injection Hown as <-. vm_compute. auto.
Defined.

Lemma field_ids_ext w w' t :
  w_fields w' = w_fields w ->
  TypeObj.fields (w_types w' t) = TypeObj.fields (w_types w t) ->
  field_ids w' t = field_ids w t.
Proof. intros Hf Hfs. unfold field_ids, ids_of. now rewrite Hf, Hfs. Qed.

(** [decode] when the limit is not beyond the position of the reader: the
    instance is created, the view by id is read, and the loop is not
    entered. *)
Lemma decode_no_loop t reader length w :
  names_coherent w t ->
  (TypeObj._fieldsById (w_types w t) = None -> NoDup (field_ids w t)) ->
  limit_of reader length <= Z.of_nat (Reader.pos reader) ->
  exists m w1 w',
    create t None None w = (Ret m, w1)
    /\ w_heap w' = w_heap w1 /\ w_fields w' = w_fields w1
    /\ decode t reader None length w
       = (if Z.of_nat (Reader.pos reader) =? limit_of reader length
          then Ret (m, reader)
          else Throw (InvalidWireFormat (Z.of_nat (Reader.pos reader))
                        (limit_of reader length)), w').
Proof.
  intros Hcoh Hids Hle.
  destruct (create_get_run t None w Hcoh) as
    (m & w1 & Hrun & Hf & Hfs & Hby & Hcoh1 & _); [discriminate |].
  assert (Hview : exists byId w',
            fieldsById t w1 = (Ret byId, w')
            /\ w_heap w' = w_heap w1 /\ w_fields w' = w_fields w1).
  { destruct (TypeObj._fieldsById (w_types w1 t)) as [c|] eqn:Hc.
    - exists c, w1. unfold fieldsById, getType, bind. now rewrite Hc.
    - destruct (fieldsById_rebuild t w1 Hc Hcoh1) as [Hok _].
      destruct Hok as (byId & w' & Hrun' & Hf' & Hh' & _).
      + rewrite (field_ids_ext w w1 t Hf Hfs). apply Hids. congruence.
      + exists byId, w'. auto. }
  destruct Hview as (byId & w' & Hview & Hh & Hf').
  exists m, w1, w'. do 3 (split; [assumption |]).
  rewrite create_none in Hrun.
  set (limit := limit_of reader length) in *.
  set (fuel := Z.to_nat (limit - Z.of_nat (Reader.pos reader))).
  set (w0 := set_heap (w_heap w ++ [HRec [] None]) w) in *.
  change (decode t reader None length w)
    with ((let* message := create t (Some (List.length (w_heap w))) None in
           let* fieldsById := fieldsById t in
           let* reader' := decode_loop fuel t message fieldsById limit reader in
           if Z.of_nat (Reader.pos reader') =? limit then ret (message, reader')
           else throw (InvalidWireFormat (Z.of_nat (Reader.pos reader')) limit))
            w0).
  unfold bind. rewrite Hrun, Hview.
  assert (Hstop : decode_loop fuel t m byId limit reader w' = (Ret reader, w')).
  { assert (Hlt : (Z.of_nat (Reader.pos reader) <? limit) = false)
      by (apply Z.ltb_ge; exact Hle).
    destruct fuel; simpl; now rewrite Hlt. }
  rewrite Hstop. now destruct (Z.of_nat (Reader.pos reader) =? limit).
Qed.

(** X14. Decoding nothing is [create]: when the limit is the position of the
    reader (an empty buffer, a reader at the end of its buffer, a length of
    0), [decode] returns the instance that [create] makes of no properties,
    with its heap, and leaves the reader where it was, provided the view by
    id can be read. *)
Theorem decode_nothing_is_create (t : tref) (reader : Reader.t)
    (length : option Z) (w : World) :
  names_coherent w t ->
  (TypeObj._fieldsById (w_types w t) = None -> NoDup (field_ids w t)) ->
  limit_of reader length = Z.of_nat (Reader.pos reader) ->
  exists m w1 w',
    create t None None w = (Ret m, w1)
    /\ decode t reader None length w = (Ret (m, reader), w')
    /\ w_heap w' = w_heap w1.
Proof.
  intros Hcoh Hids Hlim.
  destruct (decode_no_loop t reader length w Hcoh Hids) as
    (m & w1 & w' & Hrun & Hh & _ & Hdec); [lia |].
  exists m, w1, w'. split; [exact Hrun |]. split; [| exact Hh].
  rewrite Hdec, Hlim. now rewrite Z.eqb_refl.
Qed.

Lemma decode_nothing_is_create_witness :
  let w := after (add no_namespace no_namespace 0%nat (CField 0%nat)) sample_world in
  exists m w1 w',
    create 0%nat None None w = (Ret m, w1)
    /\ decode 0%nat (Reader.new []) None None w = (Ret (m, Reader.new []), w')
    /\ w_heap w' = w_heap w1.
Proof.
  intros w.
  apply (decode_nothing_is_create 0%nat (Reader.new []) None w).
  - intros names. vm_compute. discriminate.
  - intros _. vm_compute. repeat constructor. set_solver.
  - reflexivity.
Defined.

(** X15. A limit before the position of the reader, as a negative length
    gives, is an invalid wire format: [decode] reads nothing and throws the
    error with the position and the limit, provided the view by id can be
    read. *)
Theorem decode_rejects_limit_behind (t : tref) (reader : Reader.t)
    (length : option Z) (w : World) :
  names_coherent w t ->
  (TypeObj._fieldsById (w_types w t) = None -> NoDup (field_ids w t)) ->
  limit_of reader length < Z.of_nat (Reader.pos reader) ->
  exists w',
    decode t reader None length w
    = (Throw (InvalidWireFormat (Z.of_nat (Reader.pos reader))
                (limit_of reader length)), w').
Proof.
  intros Hcoh Hids Hlim.
  destruct (decode_no_loop t reader length w Hcoh Hids) as
    (m & w1 & w' & _ & _ & _ & Hdec); [lia |].
  exists w'. rewrite Hdec.
  destruct (Z.eqb_spec (Z.of_nat (Reader.pos reader)) (limit_of reader length));
    [lia | reflexivity].
Qed.

Lemma decode_rejects_limit_behind_witness :
  let w := after (add no_namespace no_namespace 0%nat (CField 0%nat)) sample_world in
  exists w',
    decode 0%nat (Reader.new [8; 7]) None (Some (-1)) w
    = (Throw (InvalidWireFormat 0 (-1)), w').
Proof.
  intros w.
  apply (decode_rejects_limit_behind 0%nat (Reader.new [8; 7]) (Some (-1)) w).
  - intros names. vm_compute. discriminate.
  - intros _. vm_compute. repeat constructor. set_solver.
  - reflexivity.
Defined.

(** * Length-delimited messages *)

Lemma low_bits_split n :
  0 <= n -> Z.land n 127 + Z.shiftl (Z.shiftr n 7) 7 = n.
Proof.
  intros Hn. change 127 with (Z.ones 7).
  rewrite Z.land_ones, Z.shiftr_div_pow2, Z.shiftl_mul_pow2 by lia.
  pose proof (Z.div_mod n (2 ^ 7)). lia.
Qed.

Lemma continuation_byte n :
  0 <= n ->
  128 <= Z.lor (Z.land n 127) 128
  /\ Z.land (Z.lor (Z.land n 127) 128) 127 = Z.land n 127.
Proof.
  intros Hn.
  assert (Hdis : Z.land (Z.land n 127) 128 = 0).
  { rewrite <- Z.land_assoc. simpl (Z.land 127 128). apply Z.land_0_r. }
  split.
  - rewrite <- Z.lxor_lor, <- Z.add_nocarry_lxor by exact Hdis.
    assert (0 <= Z.land n 127) by (apply Z.land_nonneg; lia). lia.
  - rewrite Z.land_lor_distr_l, <- Z.land_assoc.
    simpl (Z.land 127 127). simpl (Z.land 128 127). apply Z.lor_0_r.
Qed.

(** The reader reads back the varint that the writer wrote. *)
Lemma varint_round_trip fuel : forall n rest,
  0 <= n < 2 ^ (7 * (Z.of_nat fuel + 1)) ->
  Reader.varint (Writer.varint fuel n ++ rest)
  = Some (n, length (Writer.varint fuel n)).
Proof.
  induction fuel as [|fuel IH]; intros n rest Hn.
  - simpl in *. change 127 with (Z.ones 7). rewrite Z.land_ones by lia.
    rewrite Z.mod_small by lia.
    destruct (Z.ltb_spec n 128); [reflexivity | lia].
  - cbn [Writer.varint]. destruct (Z.ltb_spec n 128) as [Hlt | Hge].
    + simpl. destruct (Z.ltb_spec n 128); [reflexivity | lia].
    + destruct (continuation_byte n) as [Hb Hlow]; [lia |].
      cbn [app Reader.varint].
      destruct (Z.ltb_spec (Z.lor (Z.land n 127) 128) 128); [lia |].
      rewrite IH.
      * rewrite Hlow, low_bits_split by lia. reflexivity.
      * rewrite Z.shiftr_div_pow2 by lia. split.
        -- apply Z.div_pos; lia.
        -- apply Z.div_lt_upper_bound; [lia |].
           rewrite <- Z.pow_add_r by lia.
           replace (7 + 7 * (Z.of_nat fuel + 1))
             with (7 * (Z.of_nat (S fuel) + 1)) by lia.
           lia.
Qed.

(** [uint32] reads back what [uint32] wrote behind [prefix]. *)
Lemma uint32_round_trip v prefix rest :
  let bytes := Writer.uint32 v prefix in
  Reader.uint32 {| Reader.buf := bytes ++ rest; Reader.pos := length prefix |}
  = Ret (v mod 2 ^ 32,
         {| Reader.buf := bytes ++ rest; Reader.pos := length bytes |}).
Proof.
  intros bytes. unfold Reader.uint32, bytes, Writer.uint32. cbn [Reader.buf Reader.pos].
  rewrite <- app_assoc, drop_app_length.
  rewrite varint_round_trip.
  - unfold Reader.advance. cbn [Reader.buf Reader.pos].
    rewrite Z.mod_mod by lia. now rewrite length_app.
  - pose proof (Z.mod_pos_bound v (2 ^ 32)). simpl Z.of_nat.
    change (2 ^ (7 * (4 + 1))) with (2 ^ 32 * 8). lia.
Qed.

(** [bytes] reads back the run that [bytes] wrote behind [prefix]. *)
Lemma bytes_round_trip run prefix rest :
  Z.of_nat (length run) < 2 ^ 32 ->
  let bytes := Writer.bytes run prefix in
  Reader.bytes {| Reader.buf := bytes ++ rest; Reader.pos := length prefix |}
  = Ret (run, {| Reader.buf := bytes ++ rest; Reader.pos := length bytes |}).
Proof.
  intros Hlen bytes. unfold Reader.bytes, bytes, Writer.bytes.
  rewrite <- (app_assoc (Writer.uint32 _ prefix)), uint32_round_trip.
  rewrite Z.mod_small by lia. rewrite Nat2Z.id.
  unfold Reader.len, Reader.advance. cbn [Reader.buf Reader.pos].
  rewrite !length_app.
  destruct (Nat.leb_spec (length (Writer.uint32 (Z.of_nat (length run)) prefix)
                          + length run)
              (length (Writer.uint32 (Z.of_nat (length run)) prefix)
               + (length run + length rest))); [| lia].
  rewrite drop_app_length, take_app_length. reflexivity.
Qed.

(** X16. [decodeDelimited] reads one frame: on a reader that stands before a
    length-delimited run, that is the length of [body] as a varint and then
    [body], it decodes [body] as [decode] does a buffer of its own, whatever
    follows the frame, and leaves the reader behind the frame. *)
Theorem decodeDelimited_reads_one_frame (t : tref) (body prefix rest : list Z)
    (constructor : option (option addr -> M addr)) (w : World) :
  Z.of_nat (length body) < 2 ^ 32 ->
  let frame := Writer.bytes body prefix in
  decodeDelimited t
    {| Reader.buf := frame ++ rest; Reader.pos := length prefix |}
    constructor w
  = match decode t (Reader.new body) constructor None w with
    | (Ret (m, _), w') =>
        (Ret (m, {| Reader.buf := frame ++ rest; Reader.pos := length frame |}),
         w')
    | (Throw e, w') => (Throw e, w')
    end.
Proof.
  intros Hlen frame. unfold decodeDelimited, bind, lift.
  unfold frame. rewrite bytes_round_trip by exact Hlen.
  destruct (decode t (Reader.new body) constructor None w) as [[[m r]|e] w'];
    reflexivity.
Qed.

Lemma decodeDelimited_reads_one_frame_witness :
  let w0 := after (add no_namespace no_namespace 0%nat (CField 0%nat)) sample_world in
  let w := after (add no_namespace no_namespace 0%nat (CField 1%nat)) w0 in
  exists m r w',
    decodeDelimited 0%nat
      {| Reader.buf := [255; 5; 8; 7; 18; 1; 120; 9]; Reader.pos := 1 |} None w
    = (Ret (m, r), w')
    /\ Reader.pos r = 7%nat
    /\ Js.get (w_heap w') m "id" = VNum 7
    /\ Js.get (w_heap w') m "name" = VStr "x".
Proof.
  intros w0 w.
  pose proof (decodeDelimited_reads_one_frame 0%nat [8; 7; 18; 1; 120] [255] [9]
                None w) as H.
  cbv zeta in H.
  destruct (decode 0%nat (Reader.new [8; 7; 18; 1; 120]) None None w)
    as [[[m r]|e] w'] eqn:E; [| vm_compute in E; discriminate].
  - exists m, {| Reader.buf := Writer.bytes [8; 7; 18; 1; 120] [255] ++ [9];
                Reader.pos := length (Writer.bytes [8; 7; 18; 1; 120] [255]) |}, w'.
    split; [apply H; vm_compute; reflexivity |].
    vm_compute in E. injection E as <- _ <-. vm_compute. auto.
Defined.

(** X17. A frame cut short is a buffer underrun before anything is decoded:
    when the length that stands at the reader announces more bytes than the
    buffer holds behind it, [decodeDelimited] throws and leaves the world as
    it was; no instance is created. *)
Theorem decodeDelimited_rejects_short_frame (t : tref) (n : Z)
    (body prefix : list Z) (constructor : option (option addr -> M addr))
    (w : World) :
  0 <= n < 2 ^ 32 ->
  Z.of_nat (length body) < n ->
  decodeDelimited t
    {| Reader.buf := Writer.uint32 n prefix ++ body;
       Reader.pos := length prefix |}
    constructor w
  = (Throw BufferUnderrun, w).
Proof.
  intros Hn Hshort. unfold decodeDelimited, bind, lift, Reader.bytes.
  rewrite uint32_round_trip. rewrite Z.mod_small by exact Hn.
  unfold Reader.len. cbn [Reader.buf Reader.pos]. rewrite length_app.
  destruct (Nat.leb_spec (length (Writer.uint32 n prefix) + Z.to_nat n)
              (length (Writer.uint32 n prefix) + length body)); [lia |].
  reflexivity.
Qed.

Lemma decodeDelimited_rejects_short_frame_witness :
  decodeDelimited 0%nat
    {| Reader.buf := [255; 5; 8; 7; 18]; Reader.pos := 1 |} None sample_world
  = (Throw BufferUnderrun, sample_world).
Proof.
  apply (decodeDelimited_rejects_short_frame 0%nat 5 [8; 7; 18] [255] None
           sample_world); simpl; lia.
Defined.

(** * The round trip of singular fields *)

Lemma tag_value id wt :
  0 <= id < 2 ^ 29 -> 0 <= wt < 8 ->
  let v := Z.lor (Z.shiftl id 3) wt in
  0 <= v < 2 ^ 32 /\ Z.shiftr v 3 = id /\ Z.land v 7 = wt.
Proof.
  intros Hid Hwt v.
  assert (Hlow : Z.land (Z.shiftl id 3) 7 = 0).
  { change 7 with (Z.ones 3). rewrite Z.land_ones, Z.shiftl_mul_pow2 by lia.
    apply Z.mod_mul. lia. }
  assert (Hwt7 : Z.land wt 7 = wt).
  { change 7 with (Z.ones 3). rewrite Z.land_ones by lia.
    apply Z.mod_small. lia. }
  assert (Hdis : Z.land (Z.shiftl id 3) wt = 0).
  { rewrite <- Hwt7, (Z.land_comm wt), Z.land_assoc, Hlow. apply Z.land_0_l. }
  assert (Hv : v = id * 8 + wt).
  { unfold v. rewrite <- Z.lxor_lor, <- Z.add_nocarry_lxor by exact Hdis.
    rewrite Z.shiftl_mul_pow2 by lia. reflexivity. }
  split; [lia |]. split.
  - rewrite Z.shiftr_div_pow2, Hv by lia. change (2 ^ 3) with 8.
    rewrite Z.div_add_l by lia. rewrite Z.div_small by lia. lia.
  - unfold v. rewrite Z.land_lor_distr_l, Hlow, Hwt7. apply Z.lor_0_l.
Qed.

(** [tag] reads back the tag that the writer wrote behind [prefix]. *)
Lemma tag_round_trip id wt prefix rest :
  0 <= id < 2 ^ 29 -> 0 <= wt < 8 ->
  let written := Writer.tag id wt prefix in
  Reader.tag {| Reader.buf := written ++ rest; Reader.pos := length prefix |}
  = Ret ({| Reader.id := id; Reader.wireType := wt |},
         {| Reader.buf := written ++ rest; Reader.pos := length written |}).
Proof.
  intros Hid Hwt written. unfold Reader.tag, written, Writer.tag.
  rewrite uint32_round_trip.
  destruct (tag_value id wt Hid Hwt) as (Hrange & Hshift & Hland).
  rewrite Z.mod_small by exact Hrange. now rewrite Hshift, Hland.
Qed.

Lemma string_bytes_round_trip s :
  string_of_list_ascii
    (List.map (fun b => ascii_of_nat (Z.to_nat b))
       (List.map (fun c => Z.of_nat (nat_of_ascii c)) (list_ascii_of_string s)))
  = s.
Proof.
  rewrite List.map_map.
  rewrite (List.map_ext _ (fun c => c)).
  - rewrite List.map_id. apply string_of_list_ascii_of_string.
  - intros c. rewrite Nat2Z.id. apply ascii_nat_embedding.
Qed.

Lemma string_bytes_length s :
  length (List.map (fun c => Z.of_nat (nat_of_ascii c)) (list_ascii_of_string s))
  = String.length s.
Proof.
  rewrite length_map. induction s as [|c s IH]; simpl; congruence.
Qed.

Lemma varint_nonempty fuel n : (1 <= length (Writer.varint fuel n))%nat.
Proof. destruct fuel; simpl; [lia |]. destruct (n <? 128); simpl; lia. Qed.

(** What [Field.encode] appends for a singular field. *)
Lemma encode_scalar_run field v writer :
  wire_value field v ->
  encode_scalar field v writer = Ret (writer ++ wire_bytes field v)
  /\ (length writer < length (writer ++ wire_bytes field v))%nat.
Proof.
  unfold wire_value, wire_bytes, encode_scalar.
  destruct (Field.type field), v; try contradiction; intros Hv.
  - unfold Writer.uint32, Writer.tag, Writer.uint32, Writer.new.
    rewrite !app_nil_l, <- app_assoc. split; [reflexivity |].
    rewrite !length_app.
    pose proof (varint_nonempty 4%nat
                  (Z.lor (Z.shiftl (Field.id field) 3) 0 mod 2 ^ 32)).
    lia.
  - unfold Writer.string, Writer.bytes, Writer.uint32, Writer.tag,
      Writer.uint32, Writer.new.
    rewrite !app_nil_l, <- !app_assoc. split; [reflexivity |].
    rewrite !length_app.
    pose proof (varint_nonempty 4%nat
                  (Z.lor (Z.shiftl (Field.id field) 3) 2 mod 2 ^ 32)).
    lia.
Qed.

(** The step of the loop of [decode] on the bytes of a singular field. *)
Lemma decode_step_frame t message byId f (w : World) v done rest :
  let field := w_fields w f in
  wire_value field v ->
  Field.repeated field = false ->
  0 <= Field.id field < 2 ^ 29 ->
  byId !! Field.id field = Some f ->
  let written := done ++ wire_bytes field v in
  decode_step t message byId
    {| Reader.buf := written ++ rest; Reader.pos := length done |} w
  = (Ret {| Reader.buf := written ++ rest; Reader.pos := length written |},
     set_heap (Js.set (w_heap w) message (Field.name field) v) w).
Proof.
  intros field Hv Hrep Hid Hby written.
  destruct (encode_scalar_run field v done Hv) as [Henc _].
  fold written in Henc.
  unfold wire_value in Hv. unfold encode_scalar in Henc.
  unfold decode_step, bind, lift.
  destruct (Field.type field) eqn:Hty; destruct v; try contradiction;
    injection Henc as Henc; rewrite <- Henc.
  - pose proof (tag_round_trip (Field.id field) 0 done
                  (Writer.varint 4 (n mod 2 ^ 32) ++ rest) Hid) as Htag.
    pose proof (uint32_round_trip n (Writer.tag (Field.id field) 0 done) rest)
      as Hnum.
    cbv zeta in Htag, Hnum.
    set (T := Writer.tag (Field.id field) 0 done) in *.
    unfold Writer.uint32 at 1 2 3 in Hnum. unfold Writer.uint32 at 1 2 3.
    rewrite <- !app_assoc in Hnum. rewrite <- !app_assoc.
    rewrite Htag by lia. cbn [Reader.id Reader.wireType].
    rewrite Hby. unfold getField, Field_decode, bind, lift, getField.
    fold field. rewrite Hty, Hrep. cbn [andb].
    rewrite Hnum. rewrite Z.mod_small by exact Hv.
    unfold writeProp, bind, getHeap, putHeap, ret.
    rewrite length_app. reflexivity.
  - set (run := List.map (fun c => Z.of_nat (nat_of_ascii c))
                  (list_ascii_of_string s)).
    assert (Hlen : Z.of_nat (length run) < 2 ^ 32).
    { unfold run. now rewrite string_bytes_length. }
    pose proof (tag_round_trip (Field.id field) 2 done
                  (Writer.varint 4 (Z.of_nat (length run) mod 2 ^ 32)
                     ++ run ++ rest) Hid) as Htag.
    pose proof (bytes_round_trip run (Writer.tag (Field.id field) 2 done) rest
                  Hlen) as Hrun.
    cbv zeta in Htag, Hrun.
    set (T := Writer.tag (Field.id field) 2 done) in *.
    unfold Writer.string. fold run.
    unfold Writer.bytes, Writer.uint32 in Hrun.
    unfold Writer.bytes, Writer.uint32.
    rewrite <- !app_assoc in Hrun. rewrite <- !app_assoc.
    rewrite Htag by lia. cbn [Reader.id Reader.wireType].
    rewrite Hby. unfold getField, Field_decode, bind, lift, getField.
    fold field. rewrite Hty.
    rewrite Hrun. unfold run at 1. rewrite string_bytes_round_trip.
    rewrite Hrep.
    unfold writeProp, bind, getHeap, putHeap, ret.
    rewrite !length_app. reflexivity.
Qed.

(** The loop of [decode] on the bytes of the fields [names] of the message
    [source] of the world [wb]: it reads them to the end and assigns each
    value to the instance. *)
Lemma decode_loop_frames t source message byId (wb : World) rest pr :
  forall names done (w : World) fuel ps,
    Forall (readable wb t source byId) names ->
    w_fields w = w_fields wb ->
    w_heap w !! message = Some (HRec ps pr) ->
    (length (frames wb t source names) <= fuel)%nat ->
    let total := done ++ frames wb t source names in
    exists w' ps',
      decode_loop fuel t message byId (Z.of_nat (length total))
        {| Reader.buf := total ++ rest; Reader.pos := length done |} w
      = (Ret {| Reader.buf := total ++ rest; Reader.pos := length total |}, w')
      /\ w_fields w' = w_fields w /\ w_types w' = w_types w
      /\ (forall b, b <> message -> w_heap w' !! b = w_heap w !! b)
      /\ w_heap w' !! message = Some (HRec ps' pr)
      /\ (forall k, In k names ->
            Js.own ps' k = Some (Js.get (w_heap wb) source k))
      /\ (forall k, ~ In k names -> Js.own ps' k = Js.own ps k).
Proof.
  induction names as [|name names IH]; intros done w fuel ps Hgood Hf Hmsg Hfuel total.
  - exists w, ps. unfold total, frames. simpl. rewrite app_nil_r.
    assert (Hlt : (Z.of_nat (length done) <? Z.of_nat (length done)) = false)
      by (apply Z.ltb_irrefl).
    split.
    + destruct fuel; simpl; now rewrite Hlt.
    + repeat split; auto. intros k [].
  - inversion Hgood as [|? ? Hname Hrest]; subst.
    destruct Hname as (f & Hown & Hv & Hnm & Hrep & Hid & Hby).
    set (v := Js.get (w_heap wb) source name) in *.
    set (field := w_fields wb f) in *.
    assert (Hfr : frames wb t source (name :: names)
                  = wire_bytes field v ++ frames wb t source names).
    { unfold frames. simpl. now rewrite Hown. }
    destruct (encode_scalar_run field v done Hv) as [_ Hgrow].
    unfold total. rewrite Hfr in *. clear total.
    rewrite length_app in Hfuel. rewrite length_app in Hgrow.
    destruct fuel as [|fuel]; [lia |].
    pose proof (decode_step_frame t message byId f w v done
                  (frames wb t source names ++ rest)) as Hstep.
    cbv zeta in Hstep. rewrite Hf in Hstep. fold field in Hstep.
    specialize (Hstep Hv Hrep Hid Hby).
    rewrite <- !app_assoc in Hstep.
    set (w1 := set_heap (Js.set (w_heap w) message (Field.name field) v) w) in *.
    assert (Hmsg1 : w_heap w1 !! message
                    = Some (HRec (Js.assign ps name v) pr)).
    { unfold w1. simpl. rewrite Hnm. now apply lookup_set_eq. }
    destruct (IH (done ++ wire_bytes field v) w1 fuel (Js.assign ps name v)
                Hrest Hf Hmsg1) as (w' & ps' & Hloop & Hf' & Hty' & Hold & Hmsg'
                                      & Hin & Hout); [lia |].
    exists w', ps'. split.
    + cbn [decode_loop].
      assert (Hlt : (Z.of_nat (length done)
                     <? Z.of_nat (length (done ++ wire_bytes field v
                                            ++ frames wb t source names)))
                    = true).
      { apply Z.ltb_lt. rewrite !length_app. lia. }
      cbn [Reader.pos]. rewrite Hlt. unfold bind at 1.
      rewrite <- !app_assoc. rewrite Hstep.
      rewrite <- !app_assoc in Hloop. exact Hloop.
    + split; [exact Hf' |]. split; [exact Hty' |].
      split; [| split; [exact Hmsg' | split]].
      * intros b Hb. rewrite Hold by exact Hb. unfold w1. simpl.
        apply lookup_set_ne. congruence.
      * intros k Hk. destruct (in_dec string_dec k names) as [Hi | Hni].
        -- now apply Hin.
        -- destruct Hk as [<- | Hk]; [| contradiction].
           rewrite Hout by exact Hni. apply own_assign_eq.
      * intros k Hk. rewrite Hout by (intros Hi; apply Hk; now right).
        apply own_assign_ne. intros ->. apply Hk. now left.
Qed.

(** What [encode] writes for fields that the loop of [decode] reads back. *)
Lemma encode_each_run t source byId (wb : World) :
  forall names writer (w : World),
    Forall (readable wb t source byId) names ->
    w_fields w = w_fields wb ->
    encode_each wb t source names writer w
    = (Ret (writer ++ frames wb t source names), w).
Proof.
  induction names as [|name names IH]; intros writer w Hgood Hf.
  - unfold frames. simpl. now rewrite app_nil_r.
  - inversion Hgood as [|? ? Hname Hrest]; subst.
    destruct Hname as (f & Hown & Hv & _ & Hrep & _ & _).
    cbn [encode_each]. rewrite Hown.
    unfold bind at 1. unfold Field_encode, bind, getField.
    rewrite Hf, Hrep. unfold lift.
    destruct (encode_scalar_run (w_fields wb f)
                (Js.get (w_heap wb) source name) writer Hv) as [-> _].
    rewrite IH by assumption.
    unfold frames. simpl. rewrite Hown. now rewrite <- app_assoc.
Qed.

(** Reading a property off an object is a matter of its own properties and
    of the objects before it. *)
Lemma get_own_agree (h h' : Heap) a k ps ps' pr :
  h !! a = Some (HRec ps pr) ->
  h' !! a = Some (HRec ps' pr) ->
  Js.own ps' k = Js.own ps k ->
  (forall b, b <> a -> h' !! b = h !! b) ->
  Js.get h' a k = Js.get h a k.
Proof.
  intros Ha Ha' Hown Hold. unfold Js.get. cbn [Js.get_from].
  rewrite Ha, Ha', Hown.
  destruct (Js.own ps k); [reflexivity |].
  destruct pr as [p|]; [| reflexivity].
  destruct (Nat.ltb_spec p a); [| reflexivity].
  apply get_from_agree. intros b Hb. apply Hold. lia.
Qed.

(** X18. The round trip of a type of singular fields.  When the view by id
    is not cached, the ids of the fields are distinct and every value that
    [encode] writes is one the codec of its field carries, [encode] succeeds, [decode] of its bytes succeeds
    and reads them to the end, and the decoded instance has, for every field
    that was written, the value of the message, and for every other field the
    default of the field (under a name that objects do not inherit, and with
    a prototype of the instances that serves the default). *)
Theorem singular_round_trip (t : tref) (message : addr) (w : World) :
  names_coherent w t ->
  TypeObj._fieldsById (w_types w t) = None ->
  NoDup (field_ids w t) ->
  singular_schema w t ->
  (forall k f,
     Js.own (TypeObj.fields (w_types w t)) k = Some f ->
     encoded w t message k = true ->
     wire_value (w_fields w f) (Js.get (w_heap w) message k)) ->
  exists bytes w1 decoded r w2,
    encode t message None w = (Ret bytes, w1)
    /\ decode t (Reader.new bytes) None None w1 = (Ret (decoded, r), w2)
    /\ Reader.pos r = length bytes
    /\ forall k f,
         Js.own (TypeObj.fields (w_types w t)) k = Some f ->
         (encoded w t message k = true ->
          Js.get (w_heap w2) decoded k = Js.get (w_heap w) message k)
         /\ (encoded w t message k = false ->
             Js.inherited k = false ->
             prototype_serves w t k (Field.defaultValue (w_fields w f)) ->
             Js.get (w_heap w2) decoded k = Field.defaultValue (w_fields w f)).
Proof.
  intros Hcoh Hnone Hdistinct Hschema Hvalues.
  set (names := Js.keys (TypeObj.fields (w_types w t))).
  set (written := List.filter (encoded w t message) names).
  (* the names are read *)
  destruct (fieldNames_run t w Hcoh) as (w1 & Hnames & Hty1 & _ & Hf1 & Hh1).
  destruct (encode_run t message None w Hcoh) as (w1' & Hnames' & Henc).
  rewrite Hnames in Hnames'. injection Hnames' as <-.
  fold names written in Henc. simpl default in Henc.
  assert (Hfs1 : TypeObj.fields (w_types w1 t) = TypeObj.fields (w_types w t))
    by now rewrite Hty1.
  assert (Hby1 : TypeObj._fieldsById (w_types w1 t) = None)
    by now rewrite Hty1.
  assert (Hpr1 : TypeObj._prototype (w_types w1 t)
                 = TypeObj._prototype (w_types w t)) by now rewrite Hty1.
  assert (Hcoh1 : names_coherent w1 t).
  { intros ns. rewrite Hty1. simpl. intros [= <-]. reflexivity. }
  (* the instance of [decode] *)
  destruct (create_run_any t None w1 Hcoh1) as
    (m & w2 & tmpl & ps & Hrun & Hf2 & Hfs2 & Hby2 & Hcoh2 & _ & _ & Hmsg
       & _ & _); [discriminate |].
  destruct (create_get_run t None w1 Hcoh1) as
    (m0 & w20 & Hrun0 & _ & _ & _ & _ & Hget); [discriminate |].
  rewrite Hrun in Hrun0. injection Hrun0 as <- <-.
  (* the view by id *)
  destruct (fieldsById_rebuild t w2) as [Hview _];
    [congruence | exact Hcoh2 |].
  destruct Hview as (byId & w3 & Hview & Hf3 & Hh3 & _ & _ & _ & Hids & _).
  { rewrite (field_ids_ext w1 w2 t Hf2 Hfs2).
    now rewrite (field_ids_ext w w1 t Hf1 Hfs1). }
  (* what is written can be read back *)
  assert (Hgood : Forall (readable w t message byId) written).
  { apply Forall_forall. intros name Hin.
    assert (Hin' : In name written).
    { first [exact Hin | now apply list_elem_of_In]. }
    apply filter_In in Hin' as [Hkey Hen].
    apply own_keys in Hkey as [f Hown].
    destruct (Hschema name f Hown) as (Hnm & Hrep & Hid).
    exists f. repeat split; auto; try lia.
    specialize (Hids name f). rewrite Hfs2, Hfs1, Hf2, Hf1 in Hids. auto. }
  set (bytes := frames w t message written).
  assert (Hencode : encode t message None w = (Ret bytes, w1)).
  { rewrite Henc.
    rewrite (encode_each_run t message byId w written Writer.new w1 Hgood Hf1).
    reflexivity. }
  (* the loop *)
  destruct (decode_loop_frames t message m byId w [] (Some tmpl) written []
              w3 (length bytes) ps Hgood) as
    (w4 & ps' & Hloop & _ & _ & Hold & Hmsg' & Hin & Hout).
  { congruence. }
  { now rewrite Hh3. }
  { reflexivity. }
  cbv zeta in Hloop. rewrite !app_nil_l, !app_nil_r in Hloop. fold bytes in Hloop.
  exists bytes, w1, m, {| Reader.buf := bytes; Reader.pos := length bytes |}, w4.
  split; [exact Hencode |]. split; [| split; [reflexivity |]].
  - rewrite create_none in Hrun.
    change (decode t (Reader.new bytes) None None w1)
      with ((let* message := create t (Some (List.length (w_heap w1))) None in
             let* fieldsById := fieldsById t in
             let* reader' :=
               decode_loop
                 (Z.to_nat (Z.of_nat (length bytes) - Z.of_nat 0))
                 t message fieldsById (Z.of_nat (length bytes))
                 (Reader.new bytes) in
             if Z.of_nat (Reader.pos reader') =? Z.of_nat (length bytes)
             then ret (message, reader')
             else throw (InvalidWireFormat (Z.of_nat (Reader.pos reader'))
                           (Z.of_nat (length bytes))))
              (set_heap (w_heap w1 ++ [HRec [] None]) w1)).
    unfold bind. rewrite Hrun, Hview.
    replace (Z.to_nat (Z.of_nat (length bytes) - Z.of_nat 0))
      with (length bytes) by lia.
    change (Reader.new bytes)
      with {| Reader.buf := bytes; Reader.pos := length (@nil Z) |}.
    rewrite Hloop. cbn [Reader.pos]. now rewrite Z.eqb_refl.
  - intros k f Hown. split.
    + intros Hen. apply (get_own _ _ _ ps' (Some tmpl) _ Hmsg').
      apply Hin. apply filter_In. split; [| exact Hen].
      apply own_keys. eauto.
    + intros Hen Hinh Hserves.
      assert (Hni : ~ In k written).
      { intros Hi. apply filter_In in Hi as [_ Hi]. congruence. }
      transitivity (Js.get (w_heap w2) m k).
      * apply (get_own_agree _ _ _ _ ps ps' (Some tmpl)); auto;
          try (now rewrite <- Hh3);
          intros b Hb; rewrite Hold by exact Hb; now rewrite Hh3.
      * rewrite (Hget k f).
        -- rewrite Hf1. simpl supplied. rewrite Hinh. reflexivity.
        -- now rewrite Hfs1.
        -- unfold prototype_serves in *. rewrite Hpr1, Hh1, Hf1. exact Hserves.
Qed.

Lemma singular_round_trip_witness :
  let w0 := after (add no_namespace no_namespace 0%nat (CField 0%nat)) sample_world in
  let w := after (add no_namespace no_namespace 0%nat (CField 1%nat)) w0 in
  exists bytes w1 decoded r w2,
    encode 0%nat 2%nat None w = (Ret bytes, w1)
    /\ decode 0%nat (Reader.new bytes) None None w1 = (Ret (decoded, r), w2)
    /\ Js.get (w_heap w2) decoded "id" = VNum 7
    /\ Js.get (w_heap w2) decoded "name" = VStr "x".
Proof.
  intros w0 w.
  assert (Hfs : TypeObj.fields (w_types w 0%nat) = [("id", 0%nat); ("name", 1%nat)])
    by (vm_compute; reflexivity).
  destruct (singular_round_trip 0%nat 2%nat w) as
    (bytes & w1 & decoded & r & w2 & Henc & Hdec & _ & Hback).
  - intros names. vm_compute. discriminate.
  - reflexivity.
  - vm_compute.
    repeat constructor; intros H; apply list_elem_of_In in H; simpl in H;
      intuition discriminate.
  - intros k f Hown. rewrite Hfs in Hown. cbn [Js.own] in Hown.
    destruct (String.eqb_spec "id" k) as [<- |];
      [| destruct (String.eqb_spec "name" k) as [<- |]; [| discriminate]];
      injection Hown as <-; vm_compute; intuition discriminate.
  - intros k f Hown _. rewrite Hfs in Hown. cbn [Js.own] in Hown.
    destruct (String.eqb_spec "id" k) as [<- |];
      [| destruct (String.eqb_spec "name" k) as [<- |]; [| discriminate]];
      injection Hown as <-; vm_compute; intuition discriminate.
  - exists bytes, w1, decoded, r, w2. split; [exact Henc |]. split; [exact Hdec |].
    split.
    + destruct (Hback "id" 0%nat) as [Hid _]; [rewrite Hfs; reflexivity |].
      rewrite Hid by (vm_compute; reflexivity). vm_compute. reflexivity.
    + destruct (Hback "name" 1%nat) as [Hname _]; [rewrite Hfs; reflexivity |].
      rewrite Hname by (vm_compute; reflexivity). vm_compute. reflexivity.
Defined.
